(** * flawlessgrid: the daily-grid API service (api-service/server.ts)

    A shallow embedding of the Express service that serves the daily 3x3
    grid: the date-seeded selector, the single-slot grid cache with its
    optional database mirror, the Twitch token cache, the search rate
    limiter and the two request handlers.

    JavaScript numbers are IEEE-754 binary64 values; they are modelled by
    [spec_float] with the standard library's reference operations, so that
    NaN propagation and rounding are those of the runtime.  Strings are
    sequences of UTF-16 code units.  [Math.sin], which ECMA-262 leaves
    implementation-approximated, is a parameter of the development; a
    high-precision reference implementation is provided for evaluation. *)

From Stdlib Require Import ZArith Lia Bool List Ascii String.
From Stdlib Require Import SpecFloat.
From stdpp Require Import base option list gmap.

Local Open Scope Z_scope.

(** ** JavaScript strings *)

(** A string is the list of its UTF-16 code units; [length] is the
    JavaScript [.length]. *)
Abbreviation jsstring := (list N).

Definition str (s : string) : jsstring :=
  map (fun a => N_of_ascii a) (list_ascii_of_string s).

(** ** JavaScript numbers *)

Module JS.

Abbreviation number := spec_float.

Definition prec : Z := 53.
Definition emax : Z := 1024.

Definition NaN : number := S754_nan.

(** The number denoted by an integer literal or an integer-valued
    conversion (array lengths, timestamps): rounded to nearest-even. *)
Definition of_Z (z : Z) : number := binary_normalize prec emax z 0 false.

Definition add : number -> number -> number := SFadd prec emax.
Definition sub : number -> number -> number := SFsub prec emax.
Definition mul : number -> number -> number := SFmul prec emax.

(** [Math.floor]: NaN, the infinities and the zeros are returned as they
    are; a finite number with a non-negative exponent is an integer. *)
Definition Math_floor (x : number) : number :=
  match x with
  | S754_finite s m e =>
      if 0 <=? e then x
      else
        let q := Z.shiftr (Zpos m) (- e) in
        let exact := Z.shiftl q (- e) =? Zpos m in
        if s then of_Z (- (if exact then q else q + 1))
        else of_Z q
  | _ => x
  end.

(** The mathematical integer a number denotes, when it denotes one. *)
Definition to_integer (x : number) : option Z :=
  match x with
  | S754_zero _ => Some 0
  | S754_finite s m e =>
      if 0 <=? e then Some (cond_Zopp s (Z.shiftl (Zpos m) e))
      else
        let q := Z.shiftr (Zpos m) (- e) in
        if Z.shiftl q (- e) =? Zpos m then Some (cond_Zopp s q) else None
  | _ => None
  end.

(** [a[idx]] for an array [a] and a number [idx]: the element when [idx]
    denotes an integer in range, [undefined] ([None]) otherwise (NaN, a
    fraction, a negative number, or an index past the end). *)
Definition array_get {A} (a : list A) (idx : number) : option A :=
  match to_integer idx with
  | Some z =>
      if (0 <=? z) && (z <? Z.of_nat (length a)) then a !! Z.to_nat z
      else None
  | None => None
  end.

(** SameValueZero, the equality of [Set] and [Map] keys: NaN equals NaN,
    the two zeros are equal, other numbers are compared by value. *)
Definition same_value_zero (x y : number) : bool :=
  match x, y with
  | S754_nan, S754_nan => true
  | S754_zero _, S754_zero _ => true
  | S754_infinity s1, S754_infinity s2 => Bool.eqb s1 s2
  | S754_finite s1 m1 e1, S754_finite s2 m2 e2 =>
      let e := Z.min e1 e2 in
      Bool.eqb s1 s2
      && (Z.shiftl (Zpos m1) (e1 - e) =? Z.shiftl (Zpos m2) (e2 - e))
  | _, _ => false
  end.

(** A [Set<number>] in insertion order. *)
Definition Set_has (s : list number) (x : number) : bool :=
  existsb (same_value_zero x) s.

Definition Set_add (s : list number) (x : number) : list number :=
  if Set_has s x then s else s ++ [x].

Definition Set_size (s : list number) : nat := length s.

(** *** [Math.sin] *)

(** ECMA-262 fixes [Math.sin] on NaN, the zeros and the infinities; on the
    other numbers the result is implementation-approximated, here
    [sin_impl]. *)
Definition Math_sin (sin_impl : number -> number) (x : number) : number :=
  match x with
  | S754_nan => NaN
  | S754_infinity _ => NaN
  | S754_zero _ => x
  | S754_finite _ _ _ => sin_impl x
  end.

(** *** [Date] *)

Definition digit (c : N) : option Z :=
  if ((48 <=? c) && (c <=? 57))%N then Some (Z.of_N c - 48) else None.

(** ECMA-262 [DayFromYear], [InLeapYear] and the day number of the first
    day of a month. *)
Definition DayFromYear (y : Z) : Z :=
  365 * (y - 1970) + (y - 1969) / 4 - (y - 1901) / 100 + (y - 1601) / 400.

Definition InLeapYear (y : Z) : bool :=
  ((y mod 4 =? 0) && negb (y mod 100 =? 0)) || (y mod 400 =? 0).

Definition month_start (leap : bool) (m : Z) : Z :=
  let l := if leap then 1 else 0 in
  match m with
  | 1 => 0 | 2 => 31 | 3 => 59 + l | 4 => 90 + l | 5 => 120 + l
  | 6 => 151 + l | 7 => 181 + l | 8 => 212 + l | 9 => 243 + l
  | 10 => 273 + l | 11 => 304 + l | _ => 334 + l
  end.

Definition msPerDay : Z := 86400000.

(** The time value of the UTC date [y]-[m]-[d] ([MakeDate (MakeDay ...) 0]). *)
Definition utc_ms (y m d : Z) : Z :=
  (DayFromYear y + month_start (InLeapYear y) m + (d - 1)) * msPerDay.

(** [new Date(s).getTime()].  The date-only ISO form [YYYY-MM-DD] is a UTC
    date; a month outside 1..12 or a day outside 1..31 is an illegal
    element value and gives NaN (as V8 does, the day is not checked against
    the length of the month: day 30 of February is March 2).  Every other
    string is left to the engine's own parser, [parse_impl]. *)
Definition Date_getTime (parse_impl : jsstring -> number) (s : jsstring)
  : number :=
  match s with
  | [y1; y2; y3; y4; 45%N; m1; m2; 45%N; d1; d2] =>
      match digit y1, digit y2, digit y3, digit y4,
            digit m1, digit m2, digit d1, digit d2 with
      | Some a, Some b, Some c, Some d, Some e, Some f, Some g, Some h =>
          let y := 1000 * a + 100 * b + 10 * c + d in
          let m := 10 * e + f in
          let dd := 10 * g + h in
          if (1 <=? m) && (m <=? 12) && (1 <=? dd) && (dd <=? 31)
          then of_Z (utc_ms y m dd)
          else NaN
      | _, _, _, _, _, _, _, _ => parse_impl s
      end
  | _ => parse_impl s
  end.

End JS.

Import JS.

(** ** The data model (src/types/Game.ts) *)

Record Game := {
  id : option Z;
  name : jsstring;
  cover : option jsstring;
  screenshots : option (list jsstring);
  first_release_date : option Z
}.

(** ** The deterministic selector *)

Section Selector.

Variable sin_impl : number -> number.
Variable parse_impl : jsstring -> number.

(** [seededRandom(seed)]: [x - Math.floor(x)] for [x = Math.sin(seed) * 10000]. *)
Definition seededRandom (seed : number) : number :=
  let x := mul (Math_sin sin_impl seed) (of_Z 10000) in
  sub x (Math_floor x).

(** The variables of the loop of [selectGamesForDate].  An entry of
    [selectedGames] is [games[idx]], which is [undefined] ([None]) when
    [idx] is not an index of [games]. *)
Record SelState := {
  selectedGames : list (option Game);
  usedIndexes : list number;
  seedOffset : number
}.

Definition sel_init : SelState :=
  {| selectedGames := []; usedIndexes := []; seedOffset := of_Z 0 |}.

Definition sel_cond (games : list Game) (count : nat) (st : SelState) : bool :=
  (length (selectedGames st) <? count)%nat
  && (Set_size (usedIndexes st) <? length games)%nat.

Definition sel_index (games : list Game) (dateNum : number) (st : SelState)
  : number :=
  let random := seededRandom (add dateNum (seedOffset st)) in
  Math_floor (mul random (of_Z (Z.of_nat (length games)))).

Definition sel_body (games : list Game) (dateNum : number) (st : SelState)
  : SelState :=
  let idx := sel_index games dateNum st in
  let st' :=
    if negb (Set_has (usedIndexes st) idx)
    then {| selectedGames := selectedGames st ++ [array_get games idx];
            usedIndexes := Set_add (usedIndexes st) idx;
            seedOffset := seedOffset st |}
    else st in
  {| selectedGames := selectedGames st';
     usedIndexes := usedIndexes st';
     seedOffset := add (seedOffset st') (of_Z 1) |}.

(** The [while] loop, run for at most [fuel] evaluations of its condition;
    [None] when the fuel does not suffice. *)
Fixpoint sel_loop (fuel : nat) (games : list Game) (dateNum : number)
    (count : nat) (st : SelState) : option (list (option Game)) :=
  match fuel with
  | O => None
  | S fuel' =>
      if sel_cond games count st
      then sel_loop fuel' games dateNum count (sel_body games dateNum st)
      else Some (selectedGames st)
  end.

Definition selectGamesForDate (fuel : nat) (games : list Game)
    (date : jsstring) (count : nat) : option (list (option Game)) :=
  let dateNum := Date_getTime parse_impl date in
  sel_loop fuel games dateNum count sel_init.

End Selector.

(** ** A reference [Math.sin]

    The sine of a binary64 number computed in fixed-point integer
    arithmetic to about 300 binary places and rounded to nearest-even:
    one admissible implementation of the approximation ECMA-262 asks for.
    It instantiates [sin_impl] where the development evaluates the
    selector on concrete inputs. *)

Module RefMath.

(** Binary places kept for pi and for the series. *)
Definition K : Z := 1400.
Definition P : Z := 320.

(** Machin's formula, with 16 guard bits. *)
Fixpoint atan_inv_series (fuel : nat) (n2 pw k : Z) (neg : bool) (acc : Z)
  : Z :=
  match fuel with
  | O => acc
  | S fuel' =>
      let t := pw / (2 * k + 1) in
      atan_inv_series fuel' n2 (pw / n2) (k + 1) (negb neg)
        (if neg then acc - t else acc + t)
  end.

Definition atan_inv (n : Z) : Z :=
  atan_inv_series 320 (n * n) (2 ^ (K + 16) / n) 0 false 0.

(** [pi * 2^K], truncated. *)
Definition PI_K : Z :=
  Eval vm_compute in (16 * atan_inv 5 - 4 * atan_inv 239) / 2 ^ 16.

(** Alternating Taylor series at scale [2^P]: from the term of degree [k],
    the next one is [- term * r^2 / ((k+1) (k+2))]. *)
Fixpoint taylor (fuel : nat) (r2 term k acc : Z) : Z :=
  match fuel with
  | O => acc
  | S fuel' =>
      let term' := - (term * r2 / 2 ^ P) / ((k + 1) * (k + 2)) in
      taylor fuel' r2 term' (k + 2) (acc + term')
  end.

Definition sin_fix (r : Z) : Z := taylor 60 (r * r / 2 ^ P) r 1 r.
Definition cos_fix (r : Z) : Z := taylor 60 (r * r / 2 ^ P) (2 ^ P) 0 (2 ^ P).

Definition ref_sin (x : number) : number :=
  match x with
  | S754_finite s m e =>
      if Zpos (digits2_pos m) + e <? -26 then x
      else
        let X := Z.shiftl (Zpos m) (e + K) in
        let H := PI_K / 2 in
        let q := (2 * X + H) / (2 * H) in
        let r := Z.shiftr (X - q * H) (K - P) in
        let v :=
          match q mod 4 with
          | 0 => sin_fix r
          | 1 => cos_fix r
          | 2 => - sin_fix r
          | _ => - cos_fix r
          end in
        binary_normalize prec emax (if s then - v else v) (- P) false
  | _ => x
  end.

(** Strings that are not in the date-only ISO form are not recognised. *)
Definition ref_parse (s : jsstring) : number := NaN.

End RefMath.





(** ** The search rate limiter *)

(** Instants are [Date.now()] values: integral milliseconds, far below
    2^53, where the arithmetic of numbers is that of integers. *)
Record RateRecord := { count : Z; resetTime : Z }.

(** [isRateLimited(ip)], at the instant [now], on the [searchRateLimit]
    map: the answer and the map afterwards. *)
Definition isRateLimited (now : Z) (ip : jsstring)
    (searchRateLimit : gmap jsstring RateRecord)
  : bool * gmap jsstring RateRecord :=
  match searchRateLimit !! ip with
  | Some record =>
      if now >? resetTime record
      then (false,
            <[ip := {| count := 1; resetTime := now + 60000 |}]> searchRateLimit)
      else if count record >=? 30 then (true, searchRateLimit)
      else (false,
            <[ip := {| count := count record + 1;
                       resetTime := resetTime record |}]> searchRateLimit)
  | None =>
      (false,
       <[ip := {| count := 1; resetTime := now + 60000 |}]> searchRateLimit)
  end.

(** The five-minute sweep: expired entries are deleted. *)
Definition sweepRateLimit (now : Z)
    (searchRateLimit : gmap jsstring RateRecord)
  : gmap jsstring RateRecord :=
  filter (fun kv => negb (now >? resetTime (snd kv)) = true) searchRateLimit.

(** A client calling at the instants [ts], in order. *)
Fixpoint rateLimitedCalls (ip : jsstring) (ts : list Z)
    (searchRateLimit : gmap jsstring RateRecord)
  : list bool * gmap jsstring RateRecord :=
  match ts with
  | [] => ([], searchRateLimit)
  | now :: ts' =>
      let '(b, m) := isRateLimited now ip searchRateLimit in
      let '(bs, m') := rateLimitedCalls ip ts' m in
      (b :: bs, m')
  end.

(** ** Process state, the outside world and its answers *)

Record CachedGrid := { date : jsstring; games : list (option Game) }.

Record ServerState := {
  accessToken : jsstring;
  tokenExpiry : Z;
  cachedGrid : CachedGrid;
  searchRateLimit : gmap jsstring RateRecord
}.

Definition initialState : ServerState :=
  {| accessToken := [];
     tokenExpiry := 0;
     cachedGrid := {| date := []; games := [] |};
     searchRateLimit := ∅ |}.

(** What an awaited call can throw, as the handlers' [catch] tells them
    apart. *)
Inductive Thrown :=
| AxiosError (message : jsstring) (data : option jsstring)
| JsError (message : jsstring)
| NotAnError.

(** The body of a successful credential exchange, and [Date.now()] when it
    arrives. *)
Record TokenReply := {
  access_token : jsstring;
  expires_in : Z;
  received_at : Z
}.

(** Requests sent to the outside, in order. *)
Inductive Event :=
| TokenExchange
| CatalogFetch (monthTimestamp : Z)
| CatalogSearch (body : jsstring)
| DbSelect (today : jsstring)
| DbInsert (today : jsstring) (grid : list (option Game)).

Inductive Response :=
| GamesOk (grid : list (option Game)) (gridId : jsstring)
| SearchOk (data : list Game)
| Status400 (error : jsstring)
| Status429 (error : jsstring)
| Status500 (error : jsstring) (details : option jsstring).

(** The [catch] clause shared by the two handlers. *)
Definition catchResponse (err : Thrown) : Response :=
  match err with
  | AxiosError message data => Status500 message data
  | JsError message => Status500 message None
  | NotAnError => Status500 (str "Unknown error") None
  end.

(** ** The access token manager *)

(** [getAccessToken()] at the instant [now]; [exchange] is what the
    identity provider answers if it is asked. *)
Definition getAccessToken (now : Z) (exchange : Thrown + TokenReply)
    (s : ServerState) : (Thrown + jsstring) * ServerState * list Event :=
  if negb (bool_decide (accessToken s = [])) && (now <? tokenExpiry s)
  then (inr (accessToken s), s, [])
  else
    match exchange with
    | inl err => (inl err, s, [TokenExchange])
    | inr res =>
        (inr (access_token res),
         {| accessToken := access_token res;
            tokenExpiry := received_at res + (expires_in res - 60) * 1000;
            cachedGrid := cachedGrid s;
            searchRateLimit := searchRateLimit s |},
         [TokenExchange])
    end.

(** ** GET /api/games *)

(** What the world answers to one request for the grid. *)
Record GamesEnv := {
  env_today : jsstring;
  env_monthTimestamp : Z;
  env_select : Thrown + list (list (option Game));
  env_now : Z;
  env_exchange : Thrown + TokenReply;
  env_catalog : Thrown + list Game
}.

(** Duplicate names are removed, the first occurrence is kept. *)
Fixpoint uniqueByName (allGames uniqueGames : list Game)
    (seenNames : gset jsstring) : list Game :=
  match allGames with
  | [] => uniqueGames
  | game :: rest =>
      if bool_decide (name game ∈ seenNames)
      then uniqueByName rest uniqueGames seenNames
      else uniqueByName rest (uniqueGames ++ [game]) ({[name game]} ∪ seenNames)
  end.

Section Handlers.

Variable sin_impl : number -> number.
Variable parse_impl : jsstring -> number.

(** Whether a database is configured ([DATABASE_URL]). *)
Variable db : bool.

Definition withGrid (s : ServerState) (g : CachedGrid) : ServerState :=
  {| accessToken := accessToken s;
     tokenExpiry := tokenExpiry s;
     cachedGrid := g;
     searchRateLimit := searchRateLimit s |}.

(** The part of the handler after the cache and the database missed. *)
Definition gamesFresh (fuel : nat) (env : GamesEnv) (s : ServerState)
    (log : list Event) : option (Response * ServerState * list Event) :=
  let today := env_today env in
  let '(tok, s1, ev) := getAccessToken (env_now env) (env_exchange env) s in
  match tok with
  | inl err => Some (catchResponse err, s1, log ++ ev)
  | inr token =>
      let log1 := log ++ ev ++ [CatalogFetch (env_monthTimestamp env)] in
      match env_catalog env with
      | inl err => Some (catchResponse err, s1, log1)
      | inr allGames =>
          let uniqueGames := uniqueByName allGames [] ∅ in
          match selectGamesForDate sin_impl parse_impl fuel uniqueGames today 9 with
          | None => None
          | Some selected =>
              Some (GamesOk selected today,
                    withGrid s1 {| date := today; games := selected |},
                    if db then log1 ++ [DbInsert today selected] else log1)
          end
      end
  end.

(** The handler: [None] when the selection loop is still running after
    [fuel] evaluations of its condition. *)
Definition gamesHandler (fuel : nat) (env : GamesEnv) (s : ServerState)
  : option (Response * ServerState * list Event) :=
  let today := env_today env in
  if bool_decide (date (cachedGrid s) = today)
     && (0 <? length (games (cachedGrid s)))%nat
  then Some (GamesOk (games (cachedGrid s)) (date (cachedGrid s)), s, [])
  else if db then
    match env_select env with
    | inr (row :: _) =>
        Some (GamesOk row today,
              withGrid s {| date := today; games := row |},
              [DbSelect today])
    | _ => gamesFresh fuel env s [DbSelect today]
    end
  else gamesFresh fuel env s [].

(** ** GET /api/search *)

Definition isWhiteSpace (c : N) : bool :=
  match c with
  | 9 | 10 | 11 | 12 | 13 | 32 | 160 | 5760 | 8232 | 8233 | 8239 | 8287
  | 12288 | 65279 => true
  | _ => ((8192 <=? c) && (c <=? 8202))%N
  end%N.

Fixpoint trimStart (s : jsstring) : jsstring :=
  match s with
  | c :: s' => if isWhiteSpace c then trimStart s' else s
  | [] => []
  end.

Definition trim (s : jsstring) : jsstring :=
  rev (trimStart (rev (trimStart s))).

(** The characters the handler's [replace] removes: the double quote (34),
    the backslash (92) and the semicolon (59). *)
Definition isStripped (c : N) : bool :=
  ((c =? 34) || (c =? 92) || (c =? 59))%N.

Definition sanitize (query : jsstring) : jsstring :=
  trim (List.filter (fun c => negb (isStripped c)) query).

(** [s.split(',')[0]] *)
Fixpoint beforeComma (s : jsstring) : jsstring :=
  match s with
  | [] => []
  | c :: s' => if (c =? 44)%N then [] else c :: beforeComma s'
  end.

(** [req.query.query] as Express hands it over: a string for a single
    [query=...]; an array or an object for a repeated or a bracketed key.
    The handler's cast to [string] is not checked at run time. *)
Inductive QueryValue :=
| QueryString (s : jsstring)
| QueryNotString.

Record SearchReq := {
  req_query : option QueryValue;
  req_forwarded : option jsstring;
  req_ip : option jsstring
}.

Record SearchEnv := {
  senv_limiterNow : Z;
  senv_now : Z;
  senv_exchange : Thrown + TokenReply;
  senv_search : Thrown + list Game
}.

Definition clientIp (req : SearchReq) : jsstring :=
  match req_forwarded req with
  | Some h => trim (beforeComma h)
  | None =>
      match req_ip req with
      | Some a => a
      | None => str "unknown"
      end
  end.

Definition searchBody (sanitizedQuery : jsstring) : jsstring :=
  str "search " ++ [34%N] ++ sanitizedQuery ++ [34%N]
  ++ str "; fields name, id, first_release_date, cover.url; limit 10;".

Definition tooShort : Response :=
  Status400 (str "Query must be at least 2 characters").

(** What [query.trim()] throws when [query] is an array or an object. *)
Definition trimTypeError : Thrown :=
  JsError (str "query.trim is not a function").

Definition searchHandler (req : SearchReq) (env : SearchEnv)
    (s : ServerState) : Response * ServerState * list Event :=
  match req_query req with
  | None => (tooShort, s, [])
  | Some QueryNotString => (catchResponse trimTypeError, s, [])
  | Some (QueryString query) =>
      if bool_decide (query = []) || (length (trim query) <? 2)%nat
      then (tooShort, s, [])
      else
        let sanitizedQuery := sanitize query in
        if (length sanitizedQuery <? 2)%nat then (tooShort, s, [])
        else
          let ip := clientIp req in
          let '(limited, m) :=
            isRateLimited (senv_limiterNow env) ip (searchRateLimit s) in
          let s0 := {| accessToken := accessToken s;
                       tokenExpiry := tokenExpiry s;
                       cachedGrid := cachedGrid s;
                       searchRateLimit := m |} in
          if limited
          then (Status429 (str "Too many requests, please slow down."), s0, [])
          else
            let '(tok, s1, ev) :=
              getAccessToken (senv_now env) (senv_exchange env) s0 in
            match tok with
            | inl err => (catchResponse err, s1, ev)
            | inr token =>
                let log := ev ++ [CatalogSearch (searchBody sanitizedQuery)] in
                match senv_search env with
                | inl err => (catchResponse err, s1, log)
                | inr data => (SearchOk data, s1, log)
                end
            end
  end.

End Handlers.

(** ** Example data *)

Definition exampleGame (n : nat) : Game :=
  {| id := Some (Z.of_nat n);
     name := str "Game " ++ [N.of_nat (65 + n)];
     cover := None;
     screenshots := None;
     first_release_date := None |}.

Definition examplePool (n : nat) : list Game := map exampleGame (seq 0 n).

(** The five games of [examplePool 5] in the order of 2025-06-01. *)
Definition exampleSelection : list (option Game) :=
  map (fun n => Some (exampleGame n)) [1; 2; 0; 4; 3]%nat.


Definition exampleLimits : gmap jsstring RateRecord :=
  {[ str "ip1" := {| count := 30; resetTime := 100000 |} ]}.

Definition exampleReply : TokenReply :=
  {| access_token := str "tok";
     expires_in := 5000000;
     received_at := 1748736000500 |}.

(** A first request of the day, without a database row. *)
Definition exampleGamesEnv (pool : list Game) : GamesEnv :=
  {| env_today := str "2025-06-01";
     env_monthTimestamp := 1748736000;
     env_select := inr [];
     env_now := 1748736000400;
     env_exchange := inr exampleReply;
     env_catalog := inr pool |}.

(** The process state after that request has stored the token of
    [exampleReply] and the grid [grid]. *)
Definition exampleStateAfter (grid : list (option Game)) : ServerState :=
  {| accessToken := str "tok";
     tokenExpiry := 1748736000500 + (5000000 - 60) * 1000;
     cachedGrid := {| date := str "2025-06-01"; games := grid |};
     searchRateLimit := ∅ |}.

(** The initial state once the token of [exampleReply] is stored. *)
Definition exampleStateToken : ServerState :=
  {| accessToken := str "tok";
     tokenExpiry := 1748736000500 + (5000000 - 60) * 1000;
     cachedGrid := cachedGrid initialState;
     searchRateLimit := searchRateLimit initialState |}.

Definition exampleSearchEnv : SearchEnv :=
  {| senv_limiterNow := 1748736000400;
     senv_now := 1748736000401;
     senv_exchange := inr exampleReply;
     senv_search := inr (examplePool 2) |}.

(** A search for the letters [a] and [b] with a double quote between
    them, a semicolon and a backslash after them and a space at each end;
    relayed by a proxy. *)
Definition exampleQuotedReq : SearchReq :=
  {| req_query := Some (QueryString [32; 97; 34; 98; 59; 92; 32]%N);
     req_forwarded := Some (str " 1.2.3.4 , 5.6.7.8");
     req_ip := None |}.

Definition exampleSearchReq (q : string) : SearchReq :=
  {| req_query := Some (QueryString (str q));
     req_forwarded := None;
     req_ip := Some (str "10.0.0.1") |}.

(** ** Notions used to state the properties *)

(** [m * 2^e ≤ L], for integers [m], [e] and [L]. *)
Definition scaled_le (m e L : Z) : Prop :=
  m * 2 ^ Z.max 0 e ≤ L * 2 ^ Z.max 0 (- e).

(** A number of sign [s] that is a zero or is finite, of magnitude at most
    [L], with a mantissa of at most 53 bits. *)
Definition bounded_float (s : bool) (L : Z) (x : number) : Prop :=
  x = S754_zero s
  ∨ ∃ m e, x = S754_finite s m e ∧ scaled_le (Z.pos m) e L ∧ Z.pos m < 2 ^ 53.

(** The mantissa of a finite number has at most 53 bits. *)
Definition valid (x : number) : Prop :=
  match x with
  | S754_finite _ m _ => Z.pos m < 2 ^ 53
  | _ => True
  end.

Definition is_finite (x : number) : bool :=
  match x with
  | S754_zero _ | S754_finite _ _ _ => true
  | _ => false
  end.

(** An index that is NaN or denotes an integer of [0 .. pool.length]. *)
Definition index_in_range (pool : list Game) (idx : number) : Prop :=
  idx = NaN
  ∨ ∃ z, to_integer idx = Some z ∧ 0 ≤ z ≤ Z.of_nat (length pool).







(** No two numbers of the list are the same value. *)
Definition distinct_numbers (l : list number) : Prop :=
  ∀ i j x y, l !! i = Some x → l !! j = Some y →
             same_value_zero x y = true → i = j.

Section SelectorSequence.

Variable sin_impl : number -> number.

(** [seedOffset] after [k] iterations of the loop. *)
Definition offset_at (k : nat) : number :=
  Nat.iter k (fun o => add o (of_Z 1)) (of_Z 0).

(** The index the loop computes in its iteration number [k] (from 0). *)
Definition index_at (pool : list Game) (dateNum : number) (k : nat) : number :=
  Math_floor (mul (seededRandom sin_impl (add dateNum (offset_at k)))
                  (of_Z (Z.of_nat (length pool)))).

(** The set of the indexes computed in the first [k] iterations. *)
Definition visited (pool : list Game) (dateNum : number) (k : nat)
  : list number :=
  fold_left Set_add (map (index_at pool dateNum) (seq 0 k)) [].

(** The loop variables after [k] iterations. *)
Definition sel_iter (pool : list Game) (dateNum : number) (k : nat)
  : SelState :=
  Nat.iter k (sel_body sin_impl pool dateNum) sel_init.

End SelectorSequence.

(** The loop invariant: the entries selected are the elements at the used
    indexes, in order, and no index is used twice. *)
Definition sel_inv (pool : list Game) (st : SelState) : Prop :=
  selectedGames st = map (array_get pool) (usedIndexes st)
  ∧ distinct_numbers (usedIndexes st).

Definition sel_bounded (pool : list Game) (cnt : nat) (st : SelState) : Prop :=
  (Set_size (usedIndexes st) ≤ cnt `min` length pool)%nat.

(** The test of [getAccessToken]: a token is cached and has not expired. *)
Definition tokenValid (s : ServerState) (now : Z) : Prop :=
  accessToken s ≠ [] ∧ now < tokenExpiry s.

(** The number of catalog requests in a log. *)
Definition catalogFetches (log : list Event) : nat :=
  length (List.filter
            (fun ev => match ev with CatalogFetch _ => true | _ => false end)
            log).

(** The number of credential exchanges in a log. *)
Definition tokenExchanges (log : list Event) : nat :=
  length (List.filter
            (fun ev => match ev with TokenExchange => true | _ => false end)
            log).


(** ** Histories of the rate limiter *)

(** What happens to the [searchRateLimit] map: a call of [isRateLimited] or
    a run of the sweep. *)
Inductive LimiterOp :=
| LimiterCall (now : Z) (ip : jsstring)
| LimiterSweep (now : Z).

Definition limiterStep (m : gmap jsstring RateRecord) (op : LimiterOp)
  : gmap jsstring RateRecord :=
  match op with
  | LimiterCall now ip => snd (isRateLimited now ip m)
  | LimiterSweep now => sweepRateLimit now m
  end.

(** The map after a history, from the empty map of a fresh process. *)
Definition limiterAfter (ops : list LimiterOp) : gmap jsstring RateRecord :=
  fold_left limiterStep ops ∅.


(** The number of calls of [isRateLimited] by [ip] in a history. *)
Definition callsBy (ip : jsstring) (ops : list LimiterOp) : nat :=
  length (List.filter
            (fun op => match op with
                       | LimiterCall _ ip' => bool_decide (ip' = ip)
                       | LimiterSweep _ => false
                       end)
            ops).

(** ** Runs of the search handler *)

Definition is429 (resp : Response) : bool :=
  match resp with
  | Status429 _ => true
  | _ => false
  end.

(** A query that passes the two length checks of the handler. *)
Definition validQuery (req : SearchReq) : Prop :=
  ∃ query, req_query req = Some (QueryString query)
           ∧ (2 ≤ length (trim query))%nat
           ∧ (2 ≤ length (sanitize query))%nat.

(** The same request handled once for each answer of the world, in
    order: the responses and the state at the end. *)
Fixpoint searchRequests (req : SearchReq) (envs : list SearchEnv)
    (s : ServerState) : list Response * ServerState :=
  match envs with
  | [] => ([], s)
  | env :: envs' =>
      let '(resp, s1, _) := searchHandler req env s in
      let '(resps, s2) := searchRequests req envs' s1 in
      (resp :: resps, s2)
  end.

(** ** Variations of a request *)

(** The same answers of the world, but for the database read. *)
Definition setSelect (env : GamesEnv)
    (rows : Thrown + list (list (option Game))) : GamesEnv :=
  {| env_today := env_today env;
     env_monthTimestamp := env_monthTimestamp env;
     env_select := rows;
     env_now := env_now env;
     env_exchange := env_exchange env;
     env_catalog := env_catalog env |}.

(** ** The grid number (src/utils/gameUtils.ts) *)

(** The quotient of two numbers. *)
Definition div : number -> number -> number := SFdiv prec emax.

(** [getGridNumber(dateStr)]: the days since 2025-01-01, plus one. *)
Definition getGridNumber (parse_impl : jsstring -> number)
    (dateStr : jsstring) : number :=
  let start := Date_getTime parse_impl (str "2025-01-01") in
  let current := Date_getTime parse_impl dateStr in
  let diff :=
    Math_floor
      (div (sub current start)
           (mul (mul (mul (of_Z 1000) (of_Z 60)) (of_Z 60)) (of_Z 24))) in
  add diff (of_Z 1).

(** The day number of a UTC date, day 0 being 1970-01-01. *)
Definition dayNumber (y m d : Z) : Z :=
  DayFromYear y + month_start (InLeapYear y) m + (d - 1).

(** The string [YYYY-MM-DD] of a date. *)
Definition digitChar (z : Z) : N := Z.to_N (48 + z).

Definition isoDate (y m d : Z) : jsstring :=
  [digitChar (y / 1000); digitChar (y / 100 mod 10);
   digitChar (y / 10 mod 10); digitChar (y mod 10); 45%N;
   digitChar (m / 10); digitChar (m mod 10); 45%N;
   digitChar (d / 10); digitChar (d mod 10)].

(** The exponent of the canonical representation of a positive integer. *)
Definition cexp (q : Z) : Z := fexp prec emax (Zdigits2 q).

(** ** More example data *)

(** A catalog that does not answer. *)
Definition exampleCatalogError : Thrown :=
  AxiosError (str "Request failed with status code 503") None.

(** A first request of the day whose catalog request fails. *)
Definition exampleFailingEnv : GamesEnv :=
  {| env_today := str "2025-06-01";
     env_monthTimestamp := 1748736000;
     env_select := inr [];
     env_now := 1748736000400;
     env_exchange := inr exampleReply;
     env_catalog := inl exampleCatalogError |}.

(** A catalog answer that names the same game twice. *)
Definition exampleDuplicates : list Game := [exampleGame 0; exampleGame 0].

(** Two calls of one client around a sweep. *)
Definition exampleHistory : list LimiterOp :=
  [LimiterCall 1000 (str "ip1"); LimiterSweep 2000;
   LimiterCall 3000 (str "ip1")].

(** The process state once the client of [exampleSearchReq] has used up
    its window. *)
Definition exampleStateLimited : ServerState :=
  {| accessToken := accessToken exampleStateToken;
     tokenExpiry := tokenExpiry exampleStateToken;
     cachedGrid := cachedGrid exampleStateToken;
     searchRateLimit :=
       {[ str "10.0.0.1" := {| count := 30; resetTime := 1748736060000 |} ]} |}.

(** A token that lives 30 seconds. *)
Definition exampleShortReply : TokenReply :=
  {| access_token := str "tok";
     expires_in := 30;
     received_at := 1748736000500 |}.

(** The process state once the client of [exampleSearchReq] has made one
    search at the instant of [exampleSearchEnv]. *)
Definition exampleStateCharged : ServerState :=
  {| accessToken := accessToken exampleStateToken;
     tokenExpiry := tokenExpiry exampleStateToken;
     cachedGrid := cachedGrid exampleStateToken;
     searchRateLimit :=
       {[ str "10.0.0.1" := {| count := 1; resetTime := 1748736060400 |} ]} |}.

(** A search with the key repeated, [?query=ab&query=cd]: Express hands
    over an array. *)
Definition exampleArrayReq : SearchReq :=
  {| req_query := Some QueryNotString;
     req_forwarded := None;
     req_ip := Some (str "10.0.0.1") |}.

(** The request of [exampleSearchReq], relayed by a proxy that names
    another client. *)
Definition exampleForwardedReq (q : string) : SearchReq :=
  {| req_query := Some (QueryString (str q));
     req_forwarded := Some (str "203.0.113.7, 10.0.0.1");
     req_ip := Some (str "10.0.0.1") |}.
(** * Properties *)

(** ** Numbers *)

Lemma same_value_zero_sym x y : same_value_zero x y = same_value_zero y x.
Proof.
  destruct x as [s1| s1 | |s1 m1 e1], y as [s2|s2| |s2 m2 e2]; simpl; try done.
  - by destruct s1, s2.
  - rewrite (Z.min_comm e2 e1), (Z.eqb_sym (Z.shiftl (Z.pos m2) _)).
    by destruct s1, s2.
Qed.

Lemma cond_Zopp_pos_inj s1 s2 a b :
  0 < a → 0 < b → cond_Zopp s1 a = cond_Zopp s2 b → s1 = s2 ∧ a = b.
Proof. destruct s1, s2; simpl; lia. Qed.

(** The magnitude of a finite number that denotes an integer, scaled. *)
Lemma to_integer_finite s m e z :
  to_integer (S754_finite s m e) = Some z →
  ∃ a, 0 < a ∧ z = cond_Zopp s a ∧
       ∀ k, 0 ≤ k → 0 ≤ e + k → Z.pos m * 2 ^ (e + k) = a * 2 ^ k.
Proof.
  simpl. destruct (Z.leb_spec 0 e) as [He|He].
  - intros [= <-]. exists (Z.shiftl (Z.pos m) e).
    rewrite Z.shiftl_mul_pow2 by done. split; [|split; [done|]].
    + assert (0 < 2 ^ e) by (apply Z.pow_pos_nonneg; lia). nia.
    + intros k Hk _. rewrite Z.pow_add_r by lia. apply Z.mul_assoc.
  - destruct (Z.eqb_spec (Z.shiftl (Z.shiftr (Z.pos m) (- e)) (- e)) (Z.pos m))
      as [Hq|Hq]; [|done].
    intros [= <-]. exists (Z.shiftr (Z.pos m) (- e)).
    rewrite Z.shiftl_mul_pow2 in Hq by lia.
    assert (0 < 2 ^ (- e)) by (apply Z.pow_pos_nonneg; lia).
    split; [nia|split; [done|]].
    intros k Hk Hek. rewrite <- Hq at 1.
    replace (2 ^ k) with (2 ^ (- e) * 2 ^ (e + k)).
    + symmetry. apply Z.mul_assoc.
    + rewrite <- Z.pow_add_r by lia. f_equal. lia.
Qed.

Lemma to_integer_same_value x y z :
  to_integer x = Some z → to_integer y = Some z → same_value_zero x y = true.
Proof.
  destruct x as [s1|s1| |s1 m1 e1], y as [s2|s2| |s2 m2 e2]; try done.
  - intros [= <-] (a & Ha & Hz & _)%to_integer_finite. destruct s2; simpl in Hz; lia.
  - intros (a & Ha & Hz & _)%to_integer_finite [= <-]. destruct s1; simpl in Hz; lia.
  - intros (a & Ha & -> & H1)%to_integer_finite (b & Hb & Hz & H2)%to_integer_finite.
    apply cond_Zopp_pos_inj in Hz as [-> ->]; [|done..].
    simpl. rewrite eqb_reflx. simpl. apply Z.eqb_eq.
    set (e := Z.min e1 e2).
    rewrite !Z.shiftl_mul_pow2 by lia.
    set (k := Z.max 0 (- e)).
    assert (0 < 2 ^ (e + k)) by (apply Z.pow_pos_nonneg; lia).
    apply (Z.mul_reg_r _ _ (2 ^ (e + k))); [lia|].
    rewrite <- !Z.mul_assoc, <- !Z.pow_add_r by lia.
    replace (e1 - e + (e + k)) with (e1 + k) by lia.
    replace (e2 - e + (e + k)) with (e2 + k) by lia.
    rewrite H1, H2 by lia. done.
Qed.

(** NaN is absorbing for the operations the selector uses. *)
Lemma add_NaN_l y : add NaN y = NaN.
Proof. by destruct y. Qed.

Lemma mul_NaN_l y : mul NaN y = NaN.
Proof. by destruct y. Qed.

(** ** Rounding *)

Lemma pow2_pos k : 0 ≤ k → 0 < 2 ^ k.
Proof. intros. apply Z.pow_pos_nonneg; lia. Qed.

Lemma pow2_le a b : 0 ≤ a ≤ b → 2 ^ a ≤ 2 ^ b.
Proof. intros. apply Z.pow_le_mono_r; lia. Qed.

Lemma pow2_lt a b : 0 ≤ a < b → 2 ^ a < 2 ^ b.
Proof. intros. apply Z.pow_lt_mono_r; lia. Qed.

Lemma digits2_pos_bounds m :
  2 ^ (Z.pos (digits2_pos m) - 1) ≤ Z.pos m < 2 ^ Z.pos (digits2_pos m).
Proof.
  induction m as [m IH|m IH|]; simpl digits2_pos.
  - rewrite Pos2Z.inj_succ.
    replace (Z.succ (Z.pos (digits2_pos m)) - 1)
      with (Z.succ (Z.pos (digits2_pos m) - 1)) by lia.
    rewrite !Z.pow_succ_r by lia. lia.
  - rewrite Pos2Z.inj_succ.
    replace (Z.succ (Z.pos (digits2_pos m)) - 1)
      with (Z.succ (Z.pos (digits2_pos m) - 1)) by lia.
    rewrite !Z.pow_succ_r by lia. lia.
  - simpl. lia.
Qed.

Lemma Zdigits2_bounds z :
  0 < z → 2 ^ (Zdigits2 z - 1) ≤ z < 2 ^ Zdigits2 z.
Proof. destruct z as [|m|m]; [lia| |lia]. intros _. apply digits2_pos_bounds. Qed.

Lemma Zdigits2_nonneg z : 0 ≤ Zdigits2 z.
Proof. destruct z; simpl; lia. Qed.

Lemma iter_pos_nat {A} (f : A → A) p x :
  SpecFloat.iter_pos f p x = Nat.iter (Pos.to_nat p) f x.
Proof.
  revert x. induction p as [p IH|p IH|]; intros x; simpl SpecFloat.iter_pos.
  - rewrite !IH.
    replace (Pos.to_nat p~1) with (Pos.to_nat p + (Pos.to_nat p + 1))%nat by lia.
    by rewrite !Nat.iter_add.
  - rewrite !IH.
    replace (Pos.to_nat p~0) with (Pos.to_nat p + Pos.to_nat p)%nat by lia.
    by rewrite Nat.iter_add.
  - done.
Qed.

Lemma pos_iter_xO m d : Z.pos (Pos.iter xO m d) = Z.pos m * 2 ^ Z.pos d.
Proof.
  induction d as [|d IH] using Pos.peano_ind.
  - simpl. lia.
  - rewrite Pos.iter_succ, Pos2Z.inj_xO, IH, Pos2Z.inj_succ, Z.pow_succ_r by lia.
    lia.
Qed.

(** One step of the right shift, on a mantissa that is not negative. *)
Lemma shr_1_spec mrs :
  0 ≤ shr_m mrs →
  shr_m (shr_1 mrs) = shr_m mrs / 2
  ∧ (shr_r (shr_1 mrs) || shr_s (shr_1 mrs)
     = Z.odd (shr_m mrs) || (shr_r mrs || shr_s mrs)).
Proof.
  destruct mrs as [m r s]. cbn [shr_m shr_r shr_s]. intros Hm.
  destruct m as [|[p|p|]|p]; cbn [shr_1 shr_m shr_r shr_s Z.odd]; try lia.
  - done.
  - split; [|done]. apply (Z.div_unique _ _ _ 1); lia.
  - split; [|done]. apply (Z.div_unique _ _ _ 0); lia.
  - done.
Qed.


Lemma scaled_le_iff m e L k :
  0 ≤ k → 0 ≤ e + k → scaled_le m e L ↔ m * 2 ^ (e + k) ≤ L * 2 ^ k.
Proof.
  intros Hk Hek. unfold scaled_le.
  destruct (Z.le_gt_cases 0 e) as [He|He].
  - rewrite Z.max_r, Z.max_l by lia. rewrite Z.pow_0_r, Z.mul_1_r.
    rewrite Z.pow_add_r, Z.mul_assoc by lia.
    apply Z.mul_le_mono_pos_r, pow2_pos; lia.
  - rewrite Z.max_l, Z.max_r by lia. rewrite Z.pow_0_r, Z.mul_1_r.
    replace k with (- e + (e + k)) at 2 by lia.
    rewrite (Z.pow_add_r 2 (- e)), Z.mul_assoc by lia.
    apply Z.mul_le_mono_pos_r, pow2_pos; lia.
Qed.

Lemma scaled_le_mono m m' e L : m' ≤ m → scaled_le m e L → scaled_le m' e L.
Proof.
  unfold scaled_le. intros Hm H.
  pose proof (pow2_pos (Z.max 0 e)). nia.
Qed.

(** Dropping [k] low bits does not increase the value. *)
Lemma scaled_le_shift m m' e L k :
  0 ≤ k → 0 ≤ m' → m' * 2 ^ k ≤ m → scaled_le m e L → scaled_le m' (e + k) L.
Proof.
  intros Hk Hm' Hle H.
  set (j := Z.max 0 (- e)).
  apply (scaled_le_iff m e L j) in H; [|lia..].
  apply (scaled_le_iff m' (e + k) L j); [lia..|].
  replace (e + k + j) with (k + (e + j)) by lia.
  rewrite Z.pow_add_r, Z.mul_assoc by lia.
  pose proof (pow2_pos (e + j)). nia.
Qed.

(** Rounding up after dropping [k] low bits, not all zero, stays below an
    integer bound when the new exponent is not positive. *)
Lemma scaled_le_round_up m m' e L k :
  0 ≤ k → e + k ≤ 0 → m' * 2 ^ k < m → scaled_le m e L →
  scaled_le (m' + 1) (e + k) L.
Proof.
  intros Hk He Hlt H.
  apply (scaled_le_iff m e L (- e)) in H; [|lia..].
  apply (scaled_le_iff (m' + 1) (e + k) L (- (e + k))); [lia..|].
  replace (e + - e) with 0 in H by lia.
  replace (e + k + - (e + k)) with 0 by lia.
  rewrite Z.pow_0_r, Z.mul_1_r in *.
  replace (- e) with (- (e + k) + k) in H by lia.
  rewrite Z.pow_add_r, Z.mul_assoc in H by lia.
  pose proof (pow2_pos k Hk). nia.
Qed.

Lemma shr_iter n mrs :
  0 ≤ shr_m mrs →
  shr_m (Nat.iter n shr_1 mrs) = shr_m mrs / 2 ^ Z.of_nat n
  ∧ (shr_r (Nat.iter n shr_1 mrs) || shr_s (Nat.iter n shr_1 mrs) = true →
     shr_r mrs || shr_s mrs = true ∨ shr_m mrs mod 2 ^ Z.of_nat n ≠ 0).
Proof.
  intros Hm. induction n as [|n [IHm IHi]].
  - simpl. rewrite Z.div_1_r. auto.
  - change (Nat.iter (S n) shr_1 mrs) with (shr_1 (Nat.iter n shr_1 mrs)).
    assert (0 < 2 ^ Z.of_nat n) as Hp by (apply pow2_pos; lia).
    assert (0 ≤ shr_m (Nat.iter n shr_1 mrs)) as Hn.
    { rewrite IHm. apply Z.div_pos; lia. }
    destruct (shr_1_spec _ Hn) as [H1 H2]. rewrite H1, H2, IHm.
    rewrite Nat2Z.inj_succ, Z.pow_succ_r by lia.
    split.
    + rewrite Z.div_div by lia. f_equal. lia.
    + intros [Hodd|Hin]%orb_true_iff; [|destruct (IHi Hin) as [?|Hmod]; [by left|]].
      * right. intros Hmod.
        apply Z.mod_divide in Hmod as [c Hc]; [|lia].
        rewrite Hc in Hodd.
        replace (c * (2 * 2 ^ Z.of_nat n)) with (c * 2 * 2 ^ Z.of_nat n) in Hodd by lia.
        rewrite Z.div_mul in Hodd by lia.
        rewrite Z.odd_mul in Hodd. simpl in Hodd. by rewrite andb_false_r in Hodd.
      * right. intros Hmod2. apply Hmod.
        apply Z.mod_divide in Hmod2 as [c Hc]; [|lia].
        apply Z.mod_divide; [lia|]. exists (c * 2). lia.
Qed.

Lemma loc_of_shr_record_exact mrs :
  loc_of_shr_record mrs ≠ loc_Exact → shr_r mrs || shr_s mrs = true.
Proof. by destruct mrs as [m [] []]. Qed.

Lemma shr_spec m e n :
  0 ≤ m →
  ∃ mrs, shr (Build_shr_record m false false) e n = (mrs, e + Z.max 0 n)
         ∧ shr_m mrs = m / 2 ^ Z.max 0 n
         ∧ (loc_of_shr_record mrs ≠ loc_Exact → m mod 2 ^ Z.max 0 n ≠ 0).
Proof.
  intros Hm. destruct n as [|p|p]; simpl shr.
  - eexists. rewrite Z.add_0_r. split; [done|]. simpl. rewrite Z.div_1_r. done.
  - eexists. rewrite iter_pos_nat. split; [by rewrite Z.max_r by lia|].
    destruct (shr_iter (Pos.to_nat p) (Build_shr_record m false false) Hm)
      as [H1 H2].
    simpl in H1, H2.
    rewrite Z.max_r, <- (positive_nat_Z p) by lia.
    split; [exact H1|]. intros Hloc%loc_of_shr_record_exact.
    by destruct (H2 Hloc).
  - eexists. rewrite Z.add_0_r. split; [done|]. simpl. rewrite Z.div_1_r. done.
Qed.

Lemma round_nearest_even_spec mrs :
  shr_m mrs ≤ round_nearest_even (shr_m mrs) (loc_of_shr_record mrs)
            ≤ shr_m mrs + 1
  ∧ (loc_of_shr_record mrs = loc_Exact →
     round_nearest_even (shr_m mrs) (loc_of_shr_record mrs) = shr_m mrs).
Proof.
  destruct mrs as [m [] []]; simpl; try (split; [lia|done]).
  destruct (Z.even m); split; (lia || done).
Qed.

Lemma fexp_le e : e - 53 ≤ fexp prec emax e ∧ -1074 ≤ fexp prec emax e.
Proof. unfold fexp, emin, prec, emax. lia. Qed.

Lemma fexp_small e : e ≤ 53 → fexp prec emax e ≤ 0.
Proof. unfold fexp, emin, prec, emax. lia. Qed.

(** The mantissa and exponent after one pass of [shr_fexp]. *)
Lemma shr_fexp_spec m e :
  0 ≤ m →
  ∃ mrs k,
    shr_fexp prec emax m e loc_Exact = (mrs, e + k)
    ∧ 0 ≤ k
    ∧ shr_m mrs = m / 2 ^ k
    ∧ (loc_of_shr_record mrs ≠ loc_Exact → m mod 2 ^ k ≠ 0)
    ∧ (0 < k → e + k = fexp prec emax (Zdigits2 m + e))
    ∧ shr_m mrs < 2 ^ 53.
Proof.
  intros Hm. unfold shr_fexp. simpl shr_record_of_loc.
  set (n := fexp prec emax (Zdigits2 m + e) - e).
  destruct (shr_spec m e n Hm) as (mrs & Hshr & Hmrs & Hloc).
  exists mrs, (Z.max 0 n). split; [done|]. split; [lia|].
  split; [done|]. split; [done|]. split; [lia|].
  rewrite Hmrs.
  destruct (Z.eq_dec m 0) as [->|Hm0].
  { rewrite Z.div_0_l; [lia|]. pose proof (pow2_pos (Z.max 0 n)). lia. }
  destruct (Zdigits2_bounds m) as [_ Hd]; [lia|].
  pose proof (Zdigits2_nonneg m) as Hd0.
  destruct (fexp_le (Zdigits2 m + e)) as [Hf _].
  apply Z.div_lt_upper_bound; [apply pow2_pos; lia|].
  rewrite <- Z.pow_add_r by lia.
  eapply Z.lt_le_trans; [exact Hd|]. apply pow2_le. lia.
Qed.



Lemma digits_bound m e L :
  0 < L ≤ 2 ^ 52 → 0 < m → scaled_le m e L → Zdigits2 m + e ≤ 53.
Proof.
  intros HL Hm H.
  destruct (Zdigits2_bounds m Hm) as [Hd _].
  pose proof (Zdigits2_nonneg m) as Hd0.
  destruct (Z.le_gt_cases (Zdigits2 m + e) 53) as [|Hgt]; [done|exfalso].
  assert (1 ≤ Zdigits2 m).
  { destruct m; simpl in *; lia. }
  set (k := Z.max 0 (- e)).
  apply (scaled_le_iff m e L k) in H; [|lia..].
  assert (2 ^ (53 + k) ≤ m * 2 ^ (e + k)) as H1.
  { transitivity (2 ^ (Zdigits2 m - 1) * 2 ^ (e + k)).
    - rewrite <- Z.pow_add_r by lia. apply pow2_le. lia.
    - apply Z.mul_le_mono_nonneg_r; [apply Z.lt_le_incl, pow2_pos; lia|done]. }
  assert (L * 2 ^ k ≤ 2 ^ 52 * 2 ^ k) as H2.
  { apply Z.mul_le_mono_nonneg_r; [apply Z.lt_le_incl, pow2_pos; lia|lia]. }
  rewrite <- Z.pow_add_r in H2 by lia.
  assert (2 ^ (52 + k) < 2 ^ (53 + k)) by (apply pow2_lt; lia).
  lia.
Qed.

(** The two passes of [binary_round_aux] on an exact mantissa. *)
Lemma binary_round_aux_core s m e :
  ∃ m3 e3,
    0 ≤ m3 < 2 ^ 53
    ∧ binary_round_aux prec emax s (Z.pos m) e loc_Exact
      = match m3 with
        | 0 => S754_zero s
        | Z.pos p =>
            if e3 <=? emax - prec then S754_finite s p e3 else S754_infinity s
        | Z.neg _ => S754_nan
        end
    ∧ ∀ L, 0 < L ≤ 2 ^ 52 → scaled_le (Z.pos m) e L → scaled_le m3 e3 L.
Proof.
  unfold binary_round_aux.
  destruct (shr_fexp_spec (Z.pos m) e) as (mrs1 & k1 & -> & Hk1 & Hm1 & Hloc1 & He1 & _);
    [lia|].
  pose proof (pow2_pos k1 Hk1) as Hp1.
  assert (0 ≤ shr_m mrs1) as Hm1pos by (rewrite Hm1; apply Z.div_pos; lia).
  destruct (round_nearest_even_spec mrs1) as [Hr1 Hr2].
  set (m2 := round_nearest_even (shr_m mrs1) (loc_of_shr_record mrs1)) in *.
  destruct (shr_fexp_spec m2 (e + k1)) as (mrs3 & k2 & -> & Hk2 & Hm3 & _ & _ & Hlt);
    [lia|].
  pose proof (pow2_pos k2 Hk2) as Hp2.
  exists (shr_m mrs3), (e + k1 + k2).
  split; [|split; [done|]].
  { split; [|done]. rewrite Hm3. apply Z.div_pos; lia. }
  intros L HL Hle.
  apply (scaled_le_shift m2); [done| |rewrite Hm3, Z.mul_comm; apply Z.mul_div_le; lia|].
  { rewrite Hm3. apply Z.div_pos; lia. }
  assert (shr_m mrs1 * 2 ^ k1 ≤ Z.pos m) as Hfloor.
  { rewrite Hm1, Z.mul_comm. apply Z.mul_div_le. lia. }
  destruct (loc_of_shr_record mrs1) eqn:Hloc.
  - rewrite Hr2 by done. by apply (scaled_le_shift (Z.pos m)).
  - apply (scaled_le_mono (shr_m mrs1 + 1)); [lia|].
    assert (Z.pos m mod 2 ^ k1 ≠ 0) as Hmod by (by apply Hloc1).
    assert (0 < k1) as Hk1'.
    { destruct (Z.eq_dec k1 0) as [->|]; [|lia].
      rewrite Z.pow_0_r, Z.mod_1_r in Hmod. done. }
    apply (scaled_le_round_up (Z.pos m)); [done| | |done].
    + rewrite (He1 Hk1'). apply fexp_small.
      apply (digits_bound _ _ L); [done|lia|done].
    + pose proof (Z.div_mod (Z.pos m) (2 ^ k1)) as Hdm.
      pose proof (Z.mod_pos_bound (Z.pos m) (2 ^ k1) Hp1).
      rewrite Hm1. lia.
Qed.

Lemma binary_round_aux_le s m e L :
  0 < L ≤ 2 ^ 52 → scaled_le (Z.pos m) e L →
  bounded_float s L (binary_round_aux prec emax s (Z.pos m) e loc_Exact).
Proof.
  intros HL Hle.
  destruct (binary_round_aux_core s m e) as (m3 & e3 & Hm3 & -> & Hb).
  specialize (Hb L HL Hle).
  destruct m3 as [|p|p]; [by left| |lia].
  right. exists p, e3.
  destruct (Z.leb_spec e3 (emax - prec)) as [|Hbig];
    [split; [done|split; [done|lia]]|exfalso].
  unfold emax, prec in Hbig.
  apply (scaled_le_iff _ _ _ 0) in Hb; [|lia..].
  rewrite Z.add_0_r, Z.pow_0_r, Z.mul_1_r in Hb.
  assert (2 ^ 53 ≤ 2 ^ e3) by (apply pow2_le; lia).
  assert (2 ^ 52 < 2 ^ 53) by (apply pow2_lt; lia).
  nia.
Qed.

Lemma binary_round_aux_valid s m e :
  valid (binary_round_aux prec emax s (Z.pos m) e loc_Exact).
Proof.
  destruct (binary_round_aux_core s m e) as (m3 & e3 & Hm3 & -> & _).
  destruct m3 as [|p|p]; [done| |done].
  destruct (e3 <=? emax - prec); [simpl; lia|done].
Qed.

Lemma mul_valid x y : valid (mul x y).
Proof.
  destruct x as [sx|sx| |sx mx ex], y as [sy|sy| |sy my ey]; try done.
  apply binary_round_aux_valid.
Qed.

(** A mantissa that is already canonical is left as it is. *)
Lemma binary_round_aux_canonical s m e :
  fexp prec emax (Z.pos (digits2_pos m) + e) = e → e ≤ 971 →
  binary_round_aux prec emax s (Z.pos m) e loc_Exact = S754_finite s m e.
Proof.
  intros Hc He. unfold binary_round_aux, shr_fexp. simpl Zdigits2.
  rewrite Hc, Z.sub_diag. simpl. rewrite Hc, Z.sub_diag. simpl.
  destruct (Z.leb_spec e (emax - prec)) as [|Hbig]; [done|].
  unfold emax, prec in Hbig. lia.
Qed.

Lemma digits2_pos_iter m j :
  digits2_pos (Pos.iter xO m j) = (digits2_pos m + j)%positive.
Proof.
  induction j as [|j IH] using Pos.peano_ind.
  - simpl. lia.
  - rewrite Pos.iter_succ. simpl. rewrite IH. lia.
Qed.

Lemma shl_align_spec m e e' :
  ∃ j, 0 ≤ j
       ∧ snd (shl_align m e e') = e - j
       ∧ Z.pos (fst (shl_align m e e')) = Z.pos m * 2 ^ j
       ∧ (e' ≤ e → j = e - e')
       ∧ Z.pos (digits2_pos (fst (shl_align m e e')))
         = Z.pos (digits2_pos m) + j.
Proof.
  unfold shl_align. destruct (e' - e) as [|d|d] eqn:Hd; simpl.
  - exists 0. rewrite Z.mul_1_r. repeat split; lia.
  - exists 0. rewrite Z.mul_1_r. repeat split; lia.
  - exists (Z.pos d). rewrite pos_iter_xO, digits2_pos_iter.
    repeat split; lia.
Qed.

Lemma scaled_le_align m e L j :
  0 ≤ j → scaled_le m e L ↔ scaled_le (m * 2 ^ j) (e - j) L.
Proof.
  intros Hj. set (k := Z.max 0 (- e) + j).
  rewrite (scaled_le_iff m e L k), (scaled_le_iff (m * 2 ^ j) (e - j) L k) by lia.
  rewrite <- Z.mul_assoc, <- Z.pow_add_r by lia.
  by replace (j + (e - j + k)) with (e + k) by lia.
Qed.

Lemma binary_round_le s m e L :
  0 < L ≤ 2 ^ 52 → scaled_le (Z.pos m) e L →
  bounded_float s L (binary_round prec emax s m e).
Proof.
  intros HL Hle. unfold binary_round.
  destruct (shl_align_spec m e (fexp prec emax (Z.pos (digits2_pos m) + e)))
    as (j & Hj & Hsnd & Hfst & _).
  destruct (shl_align m e _) as [mz ez]. simpl in *. subst ez.
  apply binary_round_aux_le; [done|].
  rewrite Hfst. by apply scaled_le_align.
Qed.

(** A mantissa of at most 53 bits with an exponent in range is
    represented exactly. *)
Lemma binary_round_exact s m e :
  Z.pos m < 2 ^ 53 → -1074 ≤ e ≤ 0 →
  ∃ m' e', binary_round prec emax s m e = S754_finite s m' e'
           ∧ e' ≤ e ∧ Z.pos m' = Z.pos m * 2 ^ (e - e').
Proof.
  intros Hm He. unfold binary_round.
  set (fe := fexp prec emax (Z.pos (digits2_pos m) + e)).
  assert (Z.pos (digits2_pos m) ≤ 53) as Hd.
  { destruct (digits2_pos_bounds m) as [Hlo _].
    destruct (Z.le_gt_cases (Z.pos (digits2_pos m)) 53) as [|Hgt]; [done|].
    assert (2 ^ 53 ≤ 2 ^ (Z.pos (digits2_pos m) - 1)) by (apply pow2_le; lia).
    lia. }
  assert (fe ≤ e ∧ -1074 ≤ fe) as [Hfe Hfe'].
  { unfold fe, fexp, emin, prec, emax. lia. }
  destruct (shl_align_spec m e fe) as (j & Hj & Hsnd & Hfst & Hje & Hdig).
  specialize (Hje Hfe).
  destruct (shl_align m e fe) as [mz ez]. simpl in *. subst ez j.
  exists mz, fe. replace (e - (e - fe)) with fe by lia.
  split; [|split; [done|done]].
  apply binary_round_aux_canonical; [|lia].
  rewrite Hdig. unfold fe, fexp, emin, prec, emax. lia.
Qed.

Lemma of_Z_pos q :
  0 < q < 2 ^ 53 →
  ∃ m e, of_Z q = S754_finite false m e ∧ e ≤ 0 ∧ Z.pos m = q * 2 ^ (- e).
Proof.
  intros Hq. destruct q as [|p|p]; [lia| |lia].
  destruct (binary_round_exact false p 0) as (m & e & H & He & Hm); [lia|lia|].
  exists m, e. split; [done|]. split; [done|]. by rewrite Hm.
Qed.

Lemma of_Z_neg q :
  0 < q < 2 ^ 53 →
  ∃ m e, of_Z (- q) = S754_finite true m e ∧ e ≤ 0 ∧ Z.pos m = q * 2 ^ (- e).
Proof.
  intros Hq. destruct q as [|p|p]; [lia| |lia].
  destruct (binary_round_exact true p 0) as (m & e & H & He & Hm); [lia|lia|].
  exists m, e. split; [done|]. split; [done|]. by rewrite Hm.
Qed.

Lemma to_integer_exact s m e q :
  e ≤ 0 → Z.pos m = q * 2 ^ (- e) →
  to_integer (S754_finite s m e) = Some (cond_Zopp s q).
Proof.
  intros He Hm. simpl.
  assert (0 < 2 ^ (- e)) as Hp by (apply pow2_pos; lia).
  destruct (Z.leb_spec 0 e).
  - replace e with 0 in * by lia. simpl in Hm.
    rewrite Z.shiftl_0_r. do 2 f_equal. lia.
  - rewrite Z.shiftr_div_pow2, Z.shiftl_mul_pow2 by lia.
    rewrite Hm, Z.div_mul by lia. by rewrite Z.eqb_refl.
Qed.

(** The difference of two finite numbers of the same sign, when the
    aligned mantissas differ by [D ≥ 0] in favour of the result's sign. *)
Lemma sub_finite_spec s m1 e1 m2 e2 :
  let ez := Z.min e1 e2 in
  sub (S754_finite s m1 e1) (S754_finite s m2 e2)
  = binary_normalize prec emax
      (cond_Zopp s (Z.pos m1 * 2 ^ (e1 - ez))
       - cond_Zopp s (Z.pos m2 * 2 ^ (e2 - ez))) ez false.
Proof.
  intros ez. assert (ez ≤ e1 ∧ ez ≤ e2) as [H1 H2] by (unfold ez; lia).
  unfold sub, SFsub. change (Z.min e1 e2) with ez.
  destruct (shl_align_spec m1 e1 ez) as (j1 & _ & _ & -> & Hj1 & _).
  destruct (shl_align_spec m2 e2 ez) as (j2 & _ & _ & -> & Hj2 & _).
  by rewrite (Hj1 H1), (Hj2 H2).
Qed.

Lemma sub_self_finite s m e :
  sub (S754_finite s m e) (S754_finite s m e) = S754_zero false.
Proof. by rewrite sub_finite_spec, Z.sub_diag. Qed.

Lemma binary_normalize_unit D ez :
  ez < 0 → 0 ≤ D ≤ 2 ^ (- ez) →
  bounded_float false 1 (binary_normalize prec emax D ez false).
Proof.
  intros Hez HD. destruct D as [|p|p]; [by left| |lia].
  apply binary_round_le; [lia|].
  unfold scaled_le. rewrite Z.max_l, Z.max_r by lia. lia.
Qed.

(** [x - Math.floor(x)] lies between 0 and 1, 1 included, when [x] is
    finite, and is NaN otherwise. *)
Lemma sub_floor_range x :
  valid x →
  if is_finite x then bounded_float false 1 (sub x (Math_floor x))
  else sub x (Math_floor x) = NaN.
Proof.
  destruct x as [s|s| |s m e]; intros Hv; simpl is_finite.
  - left. by destruct s.
  - by destruct s.
  - done.
  - simpl in Hv. unfold Math_floor.
    destruct (Z.leb_spec 0 e) as [He|He]; [left; apply sub_self_finite|].
    assert (0 < 2 ^ (- e)) as Hp by (apply pow2_pos; lia).
    assert (2 ≤ 2 ^ (- e)) as Hp2.
    { change 2 with (2 ^ 1) at 1. apply pow2_le. lia. }
    rewrite Z.shiftr_div_pow2, Z.shiftl_mul_pow2 by lia.
    set (q := Z.pos m / 2 ^ (- e)).
    assert (0 ≤ q) as Hq0 by (apply Z.div_pos; lia).
    assert (q * 2 ^ (- e) ≤ Z.pos m < (q + 1) * 2 ^ (- e)) as Hq.
    { pose proof (Z.div_mod (Z.pos m) (2 ^ (- e))).
      pose proof (Z.mod_pos_bound (Z.pos m) (2 ^ (- e)) Hp). unfold q. lia. }
    assert (q < 2 ^ 52) as Hq52.
    { change (2 ^ 53) with (2 ^ 52 * 2) in Hv. nia. }
    assert (2 ^ 52 < 2 ^ 53) as H5253 by (apply pow2_lt; lia).
    destruct s.
    + (* negative: the floor is -q, or -(q+1) when x is not an integer *)
      set (c := if q * 2 ^ (- e) =? Z.pos m then q else q + 1).
      assert (0 < c ∧ c * 2 ^ (- e) - 2 ^ (- e) ≤ Z.pos m ≤ c * 2 ^ (- e))
        as [Hc0 Hc].
      { unfold c. destruct (Z.eqb_spec (q * 2 ^ (- e)) (Z.pos m)); nia. }
      destruct (of_Z_neg c) as (mc & ec & -> & Hec & Hmc); [unfold c in *; destruct (_ =? _); lia|].
      rewrite sub_finite_spec. simpl cond_Zopp.
      set (ez := Z.min e ec).
      assert (0 < 2 ^ (e - ez)) as Hpb by (apply pow2_pos; lia).
      assert (Z.pos mc * 2 ^ (ec - ez) = c * (2 ^ (- e) * 2 ^ (e - ez))) as ->.
      { rewrite Hmc, <- Z.mul_assoc, <- !Z.pow_add_r by lia.
        do 2 f_equal. lia. }
      apply binary_normalize_unit; [lia|].
      replace (- ez) with (- e + (e - ez)) by lia.
      rewrite Z.pow_add_r by lia. nia.
    + destruct (Z.eq_dec q 0) as [Hq0'|Hq0'].
      * rewrite Hq0'. change (of_Z 0) with (S754_zero false).
        right. exists m, e. split; [done|]. split; [|done].
        unfold scaled_le. rewrite Z.max_l, Z.max_r by lia. lia.
      * destruct (of_Z_pos q) as (mq & eq & -> & Heq & Hmq); [lia|].
        rewrite sub_finite_spec. simpl cond_Zopp.
        set (ez := Z.min e eq).
        assert (0 < 2 ^ (e - ez)) as Hpb by (apply pow2_pos; lia).
        assert (Z.pos mq * 2 ^ (eq - ez) = q * (2 ^ (- e) * 2 ^ (e - ez))) as ->.
        { rewrite Hmq, <- Z.mul_assoc, <- !Z.pow_add_r by lia.
          do 2 f_equal. lia. }
        apply binary_normalize_unit; [lia|].
        replace (- ez) with (- e + (e - ez)) by lia.
        rewrite Z.pow_add_r by lia. nia.
Qed.

(** Multiplying a number of the unit interval by an array length. *)
Lemma mul_length_range r len :
  bounded_float false 1 r → 0 ≤ len < 2 ^ 32 →
  bounded_float false len (mul r (of_Z len)).
Proof.
  intros Hr Hlen.
  assert (2 ^ 32 < 2 ^ 52) by (apply pow2_lt; lia).
  assert (2 ^ 52 < 2 ^ 53) by (apply pow2_lt; lia).
  destruct (Z.eq_dec len 0) as [->|Hlen0].
  { change (of_Z 0) with (S754_zero false).
    destruct Hr as [->|(mr & er & -> & _)]; by left. }
  destruct (of_Z_pos len) as (ml & el & -> & Hel & Hml); [lia|].
  destruct Hr as [->|(mr & er & -> & Hle & _)]; [by left|].
  unfold mul, SFmul. simpl xorb.
  apply binary_round_aux_le; [lia|].
  set (k1 := Z.max 0 (- er)).
  apply (scaled_le_iff _ _ _ k1) in Hle; [|lia..].
  apply (scaled_le_iff _ _ _ (k1 - el)); [lia..|].
  rewrite Pos2Z.inj_mul, Hml.
  replace (er + el + (k1 - el)) with (er + k1) by lia.
  replace (k1 - el) with (k1 + - el) by lia.
  rewrite Z.mul_1_l in Hle. rewrite (Z.pow_add_r 2 k1 (- el)) by lia.
  assert (0 < 2 ^ (- el)) by (apply pow2_pos; lia).
  assert (Z.pos mr * 2 ^ (er + k1) * (len * 2 ^ (- el))
          ≤ 2 ^ k1 * (len * 2 ^ (- el))) as Hmul.
  { apply Z.mul_le_mono_nonneg_r; [nia|done]. }
  lia.
Qed.

(** The floor of a number between 0 and [L] is an integer of [0..L]. *)
Lemma floor_range y L :
  bounded_float false L y → 0 ≤ L →
  ∃ z, to_integer (Math_floor y) = Some z ∧ 0 ≤ z ≤ L.
Proof.
  intros [->|(m & e & -> & Hle & Hv)] HL; [by exists 0|].
  unfold Math_floor. destruct (Z.leb_spec 0 e) as [He|He].
  - exists (Z.pos m * 2 ^ e). simpl.
    destruct (Z.leb_spec 0 e); [|lia].
    rewrite Z.shiftl_mul_pow2 by lia. split; [done|].
    apply (scaled_le_iff _ _ _ 0) in Hle; [|lia..].
    rewrite Z.add_0_r, Z.pow_0_r, Z.mul_1_r in Hle.
    pose proof (pow2_pos e He). nia.
  - assert (0 < 2 ^ (- e)) as Hp by (apply pow2_pos; lia).
    rewrite Z.shiftr_div_pow2 by lia.
    set (q := Z.pos m / 2 ^ (- e)).
    assert (0 ≤ q) as Hq0 by (apply Z.div_pos; lia).
    assert (q * 2 ^ (- e) ≤ Z.pos m) as Hq.
    { unfold q. rewrite Z.mul_comm. apply Z.mul_div_le. lia. }
    apply (scaled_le_iff _ _ _ (- e)) in Hle; [|lia..].
    replace (e + - e) with 0 in Hle by lia.
    rewrite Z.pow_0_r, Z.mul_1_r in Hle.
    assert (q ≤ L) by nia.
    destruct (Z.eq_dec q 0) as [->|Hq0']; [by exists 0|].
    exists q. split; [|lia].
    destruct (of_Z_pos q) as (mq & eq & -> & Heq & Hmq); [nia|].
    by rewrite (to_integer_exact false mq eq q).
Qed.

(** ** Rounding to nearest *)













(** ** Lists *)

Lemma lookup_map {A B} (f : A → B) (l : list A) (i : nat) :
  map f l !! i = f <$> (l !! i).
Proof. revert i. induction l as [|a l IH]; intros [|i]; simpl; auto. Qed.

Lemma array_get_Some {A} (a : list A) idx (x : A) :
  array_get a idx = Some x →
  ∃ z, to_integer idx = Some z ∧ 0 ≤ z < Z.of_nat (length a)
       ∧ a !! Z.to_nat z = Some x.
Proof.
  unfold array_get. destruct (to_integer idx) as [z|]; [|done].
  destruct (Z.leb_spec 0 z), (Z.ltb_spec z (Z.of_nat (length a))); simpl;
    try done.
  intros Hx. exists z. auto with lia.
Qed.

(** ** The selector *)

Section SelectorFacts.

Variable sin_impl : number -> number.
Variable parse_impl : jsstring -> number.

Abbreviation loop := (sel_loop sin_impl).
Abbreviation body := (sel_body sin_impl).




Lemma Set_has_false s x :
  Set_has s x = false → ∀ y, y ∈ s → same_value_zero x y = false.
Proof.
  unfold Set_has. intros H y Hy.
  destruct (same_value_zero x y) eqn:E; [|done].
  assert (existsb (same_value_zero x) s = true); [|congruence].
  apply existsb_exists. exists y. split; [by apply list_elem_of_In|done].
Qed.

Lemma Set_add_length s x :
  (length (Set_add s x) ≤ S (length s))%nat
  ∧ (length s ≤ length (Set_add s x))%nat.
Proof.
  unfold Set_add. destruct (Set_has s x); rewrite ?length_app; simpl; lia.
Qed.

Lemma distinct_numbers_snoc s x :
  distinct_numbers s → Set_has s x = false → distinct_numbers (s ++ [x]).
Proof.
  intros Hs Hx i j a b Hi Hj Hab.
  destruct (decide (i < length s)%nat) as [Hil|Hil],
           (decide (j < length s)%nat) as [Hjl|Hjl].
  - rewrite lookup_app_l in Hi, Hj by done. eauto.
  - rewrite lookup_app_l in Hi by done. rewrite lookup_app_r in Hj by lia.
    apply list_lookup_singleton_Some in Hj as [_ <-].
    rewrite same_value_zero_sym in Hab.
    rewrite (Set_has_false s x Hx a) in Hab; [done|].
    by eapply list_elem_of_lookup_2.
  - rewrite lookup_app_l in Hj by done. rewrite lookup_app_r in Hi by lia.
    apply list_lookup_singleton_Some in Hi as [_ <-].
    rewrite (Set_has_false s x Hx b) in Hab; [done|].
    by eapply list_elem_of_lookup_2.
  - rewrite lookup_app_r in Hi, Hj by lia.
    apply list_lookup_singleton_Some in Hi as [? _].
    apply list_lookup_singleton_Some in Hj as [? _]. lia.
Qed.

Lemma sel_body_used pool dateNum st :
  usedIndexes (body pool dateNum st)
  = Set_add (usedIndexes st) (sel_index sin_impl pool dateNum st).
Proof.
  unfold sel_body, Set_add.
  by destruct (Set_has (usedIndexes st) _).
Qed.

Lemma sel_body_offset pool dateNum st :
  seedOffset (body pool dateNum st) = add (seedOffset st) (of_Z 1).
Proof.
  unfold sel_body. by destruct (Set_has (usedIndexes st) _).
Qed.

Lemma sel_init_inv pool : sel_inv pool sel_init.
Proof. split; [done|]. by intros i j x y ?. Qed.

Lemma sel_body_inv pool dateNum st :
  sel_inv pool st → sel_inv pool (body pool dateNum st).
Proof.
  intros [Hsel Hdis]. unfold sel_body, Set_add.
  destruct (Set_has (usedIndexes st) _) eqn:Hhas; simpl; [done|].
  split; simpl.
  - by rewrite map_app, Hsel.
  - by apply distinct_numbers_snoc.
Qed.

Lemma sel_body_bounded pool dateNum cnt st :
  sel_inv pool st → sel_cond pool cnt st = true →
  sel_bounded pool cnt (body pool dateNum st).
Proof.
  intros [Hsel _] Hc. unfold sel_bounded, sel_cond, Set_size in *.
  rewrite sel_body_used.
  pose proof (Set_add_length (usedIndexes st)
                (sel_index sin_impl pool dateNum st)) as [Hle _].
  apply andb_true_iff in Hc as [H1%Nat.ltb_lt H2%Nat.ltb_lt].
  rewrite Hsel, length_map in H1. lia.
Qed.

(** What the loop returns, whenever it returns. *)
Lemma sel_loop_result fuel pool dateNum cnt st r :
  loop fuel pool dateNum cnt st = Some r →
  sel_inv pool st → sel_bounded pool cnt st →
  ∃ used, r = map (array_get pool) used ∧ distinct_numbers used
          ∧ length used = (cnt `min` length pool)%nat.
Proof.
  revert st. induction fuel as [|fuel IH]; intros st; [done|].
  simpl. destruct (sel_cond pool cnt st) eqn:Hc.
  - intros Hrun Hinv Hb. apply (IH _ Hrun).
    + by apply sel_body_inv.
    + by apply sel_body_bounded.
  - intros [= <-] [Hsel Hdis] Hb. exists (usedIndexes st).
    split; [done|split; [done|]].
    unfold sel_cond, sel_bounded, Set_size in *.
    rewrite Hsel, length_map in Hc.
    apply andb_false_iff in Hc as [H%Nat.ltb_ge|H%Nat.ltb_ge]; lia.
Qed.

Lemma sel_init_bounded pool cnt : sel_bounded pool cnt sel_init.
Proof. unfold sel_bounded, Set_size. simpl. lia. Qed.


(** The loop variables after [k] iterations, in terms of the index
    sequence. *)
Lemma visited_S pool dateNum k :
  visited sin_impl pool dateNum (S k)
  = Set_add (visited sin_impl pool dateNum k) (index_at sin_impl pool dateNum k).
Proof.
  unfold visited. by rewrite seq_S, map_app, fold_left_app.
Qed.

Lemma sel_iter_offset pool dateNum k :
  seedOffset (sel_iter sin_impl pool dateNum k) = offset_at k.
Proof.
  induction k as [|k IH]; [done|].
  change (sel_iter sin_impl pool dateNum (S k))
    with (body pool dateNum (sel_iter sin_impl pool dateNum k)).
  by rewrite sel_body_offset, IH.
Qed.

Lemma sel_iter_used pool dateNum k :
  usedIndexes (sel_iter sin_impl pool dateNum k) = visited sin_impl pool dateNum k.
Proof.
  induction k as [|k IH]; [done|].
  rewrite visited_S, <- IH.
  change (sel_iter sin_impl pool dateNum (S k))
    with (body pool dateNum (sel_iter sin_impl pool dateNum k)).
  rewrite sel_body_used. f_equal.
  unfold sel_index, index_at. by rewrite sel_iter_offset.
Qed.

Lemma sel_iter_inv pool dateNum k : sel_inv pool (sel_iter sin_impl pool dateNum k).
Proof.
  induction k as [|k IH]; [apply sel_init_inv|]. by apply sel_body_inv.
Qed.

(** Once the index sequence has taken enough distinct values, the loop has
    stopped. *)
Lemma sel_loop_from_iter pool dateNum cnt n d k :
  (k + d = n)%nat →
  (cnt `min` length pool ≤ Set_size (visited sin_impl pool dateNum n))%nat →
  sel_bounded pool cnt (sel_iter sin_impl pool dateNum k) →
  ∃ r, loop (S d) pool dateNum cnt (sel_iter sin_impl pool dateNum k) = Some r.
Proof.
  intros Hn Hvis. revert k Hn.
  induction d as [|d IH]; intros k Hn Hb; simpl;
    destruct (sel_cond pool cnt (sel_iter sin_impl pool dateNum k)) eqn:Hc;
    eauto.
  - exfalso. replace k with n in * by lia.
    destruct (sel_iter_inv pool dateNum n) as [Hsel _].
    unfold sel_cond, Set_size in *.
    rewrite Hsel, length_map, sel_iter_used in Hc.
    apply andb_true_iff in Hc as [H1%Nat.ltb_lt H2%Nat.ltb_lt]. lia.
  - apply (IH (S k)); [lia|].
    apply sel_body_bounded; [apply sel_iter_inv|done].
Qed.

Lemma sel_loop_terminates pool dateNum cnt n :
  (cnt `min` length pool ≤ Set_size (visited sin_impl pool dateNum n))%nat →
  ∃ r, loop (S n) pool dateNum cnt sel_init = Some r
       ∧ length r = (cnt `min` length pool)%nat.
Proof.
  intros Hvis.
  destruct (sel_loop_from_iter pool dateNum cnt n n 0%nat) as [r Hr];
    [done|done|apply sel_init_bounded|].
  exists r. split; [done|].
  apply sel_loop_result in Hr as (used & -> & _ & Hlen);
    [|apply sel_init_inv|apply sel_init_bounded].
  by rewrite length_map.
Qed.

(** A date that does not parse: every index is NaN, the set of used
    indexes stays [{NaN}] and the loop cannot stop. *)
Lemma sel_index_NaN pool st : sel_index sin_impl pool NaN st = NaN.
Proof. unfold sel_index. by rewrite add_NaN_l. Qed.

Lemma sel_loop_NaN_stuck pool cnt fuel off :
  (1 < cnt)%nat → (1 < length pool)%nat →
  loop fuel pool NaN cnt
    {| selectedGames := [None]; usedIndexes := [NaN]; seedOffset := off |}
  = None.
Proof.
  intros Hc Hl. revert off. induction fuel as [|fuel IH]; intros off; [done|].
  simpl. unfold sel_cond, Set_size. simpl.
  apply Nat.ltb_lt in Hc, Hl. rewrite Hc, Hl. simpl.
  unfold sel_body. rewrite sel_index_NaN. simpl. apply IH.
Qed.

Lemma sel_loop_NaN pool cnt fuel :
  (1 < cnt)%nat → (1 < length pool)%nat →
  loop fuel pool NaN cnt sel_init = None.
Proof.
  intros Hc Hl. destruct fuel as [|fuel]; [done|].
  simpl. unfold sel_cond, Set_size. simpl.
  assert ((0 <? cnt)%nat = true) as -> by (apply Nat.ltb_lt; lia).
  assert ((0 <? length pool)%nat = true) as -> by (apply Nat.ltb_lt; lia).
  simpl. unfold sel_body. rewrite sel_index_NaN. simpl.
  by apply sel_loop_NaN_stuck.
Qed.

(** C3 (no duplicates).  When no two games of the pool share a name, no
    two entries of a selection of 9 have the same name; the entries are the
    elements at pairwise distinct indexes. *)
Theorem selectGamesForDate_no_duplicates fuel pool date r :
  NoDup (map name pool) →
  selectGamesForDate sin_impl parse_impl fuel pool date 9 = Some r →
  (∀ i j gi gj, r !! i = Some (Some gi) → r !! j = Some (Some gj) →
                name gi = name gj → i = j)
  ∧ ∃ used, r = map (array_get pool) used ∧ distinct_numbers used.
Proof.
  intros Hnd Hrun.
  apply sel_loop_result in Hrun as (used & -> & Hdis & _);
    [|apply sel_init_inv|apply sel_init_bounded].
  split; [|by exists used].
  intros i j gi gj Hi Hj Hname.
  rewrite lookup_map in Hi, Hj.
  destruct (used !! i) as [x|] eqn:Hx; [|done].
  destruct (used !! j) as [y|] eqn:Hy; [|done].
  simpl in Hi, Hj. injection Hi as Hi. injection Hj as Hj.
  apply array_get_Some in Hi as (zx & Hzx & Hrx & Hgx).
  apply array_get_Some in Hj as (zy & Hzy & Hry & Hgy).
  assert (Z.to_nat zx = Z.to_nat zy) as Heq.
  { apply (NoDup_lookup (map name pool) _ _ (name gi)); [done|..];
      rewrite lookup_map; [by rewrite Hgx|by rewrite Hgy, Hname]. }
  assert (zx = zy) as -> by lia.
  apply (Hdis i j x y); [done..|]. by apply (to_integer_same_value _ _ zy).
Qed.

(** *** The range of the indexes *)

Lemma seededRandom_range seed :
  if is_finite (mul (Math_sin sin_impl seed) (of_Z 10000))
  then bounded_float false 1 (seededRandom sin_impl seed)
  else seededRandom sin_impl seed = NaN.
Proof. apply sub_floor_range, mul_valid. Qed.

Lemma floor_mul_range pool r :
  Z.of_nat (length pool) < 2 ^ 32 →
  r = NaN ∨ bounded_float false 1 r →
  index_in_range pool (Math_floor (mul r (of_Z (Z.of_nat (length pool))))).
Proof.
  intros Hlen [->|Hr]; [left; by rewrite mul_NaN_l|].
  right. apply floor_range; [|lia].
  apply mul_length_range; [done|lia].
Qed.

Lemma seededRandom_cases seed :
  seededRandom sin_impl seed = NaN
  ∨ bounded_float false 1 (seededRandom sin_impl seed).
Proof.
  pose proof (seededRandom_range seed) as H.
  destruct (is_finite _); auto.
Qed.

Lemma sel_index_range pool dateNum st :
  Z.of_nat (length pool) < 2 ^ 32 →
  index_in_range pool (sel_index sin_impl pool dateNum st).
Proof. intros Hlen. apply floor_mul_range; [done|apply seededRandom_cases]. Qed.

Lemma visited_range pool dateNum k :
  Z.of_nat (length pool) < 2 ^ 32 →
  Forall (index_in_range pool) (visited sin_impl pool dateNum k).
Proof.
  intros Hlen. induction k as [|k IH]; [by constructor|].
  rewrite visited_S. unfold Set_add.
  destruct (Set_has _ _); [done|].
  apply Forall_app. split; [done|]. constructor; [|done].
  apply floor_mul_range; [done|apply seededRandom_cases].
Qed.

(** What the loop returns is the selection after some number of
    iterations. *)
Lemma sel_loop_iter_result fuel pool dateNum cnt k r :
  loop fuel pool dateNum cnt (sel_iter sin_impl pool dateNum k) = Some r →
  ∃ k', r = selectedGames (sel_iter sin_impl pool dateNum k').
Proof.
  revert k. induction fuel as [|fuel IH]; intros k; [done|].
  simpl. destruct (sel_cond pool cnt _).
  - apply (IH (S k)).
  - intros [= <-]. by exists k.
Qed.

End SelectorFacts.

(** ** The range of the indexes *)

Section IndexRange.

Variable sin_impl : number -> number.
Variable parse_impl : jsstring -> number.







End IndexRange.

(** *** The selector on concrete inputs *)

Import RefMath.

Example select_5_of_5 :
  selectGamesForDate ref_sin ref_parse 8 (examplePool 5) (str "2025-06-01") 9
  = Some exampleSelection.
Proof. vm_compute. reflexivity. Qed.

Example select_9_of_50 :
  selectGamesForDate ref_sin ref_parse 13 (examplePool 50) (str "2025-06-01") 9
  = Some (map (fun n => Some (exampleGame n))
              [17; 23; 0; 44; 38; 41; 42; 24; 28]%nat).
Proof. vm_compute. reflexivity. Qed.



Lemma selectGamesForDate_no_duplicates_witness :
  NoDup (map name (examplePool 5))
  ∧ selectGamesForDate ref_sin ref_parse 8 (examplePool 5) (str "2025-06-01") 9
    = Some exampleSelection
  ∧ ∀ i j gi gj,
      exampleSelection !! i = Some (Some gi) →
      exampleSelection !! j = Some (Some gj) →
      name gi = name gj → i = j.
Proof.
  assert (NoDup (map name (examplePool 5))) as Hnd.
  { apply (bool_decide_unpack _). vm_compute. exact I. }
  assert (selectGamesForDate ref_sin ref_parse 8 (examplePool 5)
            (str "2025-06-01") 9 = Some exampleSelection) as Hrun
    by (vm_compute; reflexivity).
  split; [exact Hnd|]. split; [exact Hrun|].
  exact (proj1 (selectGamesForDate_no_duplicates ref_sin ref_parse 8
                  (examplePool 5) (str "2025-06-01") exampleSelection
                  Hnd Hrun)).
Defined.

(** ** The rate limiter *)

Lemma isRateLimited_fresh (now : Z) (ip : jsstring) (m : gmap jsstring RateRecord) :
  (m !! ip = None ∨ ∃ r, m !! ip = Some r ∧ resetTime r < now) →
  isRateLimited now ip m
  = (false, <[ip := {| count := 1; resetTime := now + 60000 |}]> m).
Proof.
  unfold isRateLimited. intros [->|(r & -> & Hr)]; [done|].
  destruct (Z.gtb_spec now (resetTime r)); [done|lia].
Qed.

(** Calls inside the window, below the ceiling: each is let through and
    counted. *)
Lemma rateLimitedCalls_in_window (ip : jsstring) (ts : list Z) :
  ∀ (m : gmap jsstring RateRecord) c R,
    m !! ip = Some {| count := c; resetTime := R |} →
    Forall (fun t => t ≤ R) ts →
    c + Z.of_nat (length ts) ≤ 30 →
    rateLimitedCalls ip ts m
    = (replicate (length ts) false,
       <[ip := {| count := c + Z.of_nat (length ts); resetTime := R |}]> m).
Proof.
  induction ts as [|t ts IH]; intros m c R Hm Hts Hc; simpl.
  - rewrite Z.add_0_r. by rewrite insert_id.
  - apply Forall_cons in Hts as [Ht Hts]. simpl in Hc.
    unfold isRateLimited. rewrite Hm. simpl.
    destruct (Z.gtb_spec t R); [lia|].
    destruct (Z.geb_spec c 30); [lia|].
    rewrite (IH _ (c + 1) R); [|by rewrite lookup_insert_eq|done|lia].
    rewrite insert_insert_eq. do 3 f_equal. lia.
Qed.

(** C6 (rate limiter window).  A client without a live record calls at
    [t0]; this call and the 29 next ones, all by [t0 + 60000], are let
    through; a 31st call by [t0 + 60000] is limited; and a call after
    [t0 + 60000] is let through again, with a fresh record of count 1. *)
Theorem isRateLimited_window (ip : jsstring) (m : gmap jsstring RateRecord)
    (t0 : Z) (ts : list Z) (t31 t' : Z) :
  (m !! ip = None ∨ ∃ r, m !! ip = Some r ∧ resetTime r < t0) →
  length ts = 29%nat →
  Forall (fun t => t ≤ t0 + 60000) ts →
  t31 ≤ t0 + 60000 →
  t0 + 60000 < t' →
  ∃ m1,
    rateLimitedCalls ip (t0 :: ts) m = (replicate 30 false, m1)
    ∧ isRateLimited t31 ip m1 = (true, m1)
    ∧ isRateLimited t' ip m1
      = (false, <[ip := {| count := 1; resetTime := t' + 60000 |}]> m1).
Proof.
  intros Hfresh Hlen Hts H31 Ht'.
  exists (<[ip := {| count := 30; resetTime := t0 + 60000 |}]> m).
  split; [|split].
  - simpl. rewrite (isRateLimited_fresh _ _ _ Hfresh).
    rewrite (rateLimitedCalls_in_window ip ts _ 1 (t0 + 60000));
      [|by rewrite lookup_insert_eq|done|lia].
    by rewrite Hlen, insert_insert_eq.
  - unfold isRateLimited. rewrite lookup_insert_eq. simpl.
    destruct (Z.gtb_spec t31 (t0 + 60000)); [lia|done].
  - apply isRateLimited_fresh. right. eexists.
    split; [by rewrite lookup_insert_eq|simpl; lia].
Qed.

(** C7 (frame).  A call that answers "limited" leaves the whole map as it
    was; a call that answers "not limited" changes the caller's record, and
    no call touches the record of another client. *)
Theorem isRateLimited_frame (now : Z) (ip : jsstring)
    (m m' : gmap jsstring RateRecord) (b : bool) :
  isRateLimited now ip m = (b, m') →
  (b = true → m' = m)
  ∧ (b = false → m' !! ip ≠ m !! ip)
  ∧ ∀ ip' : jsstring, ip' ≠ ip → m' !! ip' = m !! ip'.
Proof.
  unfold isRateLimited. destruct (m !! ip) as [r|] eqn:Hm.
  - destruct (Z.gtb_spec now (resetTime r)).
    + intros [= <- <-]. split; [done|]. split.
      * intros _. rewrite lookup_insert_eq. intros [= <-]. simpl in *. lia.
      * intros ip' Hne. by rewrite lookup_insert_ne.
    + destruct (Z.geb_spec (count r) 30).
      * intros [= <- <-]. done.
      * intros [= <- <-]. split; [done|]. split.
        -- intros _. rewrite lookup_insert_eq. intros [= Hr].
           apply (f_equal count) in Hr. simpl in Hr. lia.
        -- intros ip' Hne. by rewrite lookup_insert_ne.
  - intros [= <- <-]. split; [done|]. split.
    + intros _. by rewrite lookup_insert_eq.
    + intros ip' Hne. by rewrite lookup_insert_ne.
Qed.

(** The sweep removes only expired records. *)
Lemma sweepRateLimit_live (now : Z) (ip : jsstring)
    (m : gmap jsstring RateRecord) (r : RateRecord) :
  m !! ip = Some r → now ≤ resetTime r → sweepRateLimit now m !! ip = Some r.
Proof.
  intros Hm Hr. unfold sweepRateLimit.
  apply map_lookup_filter_Some. split; [done|]. simpl.
  destruct (Z.gtb_spec now (resetTime r)); [lia|done].
Qed.

Lemma isRateLimited_window_witness :
  ((∅ : gmap jsstring RateRecord) !! str "ip1" = None
   ∨ ∃ r, (∅ : gmap jsstring RateRecord) !! str "ip1" = Some r
          ∧ resetTime r < 1000)
  ∧ length (replicate 29 2000) = 29%nat
  ∧ Forall (fun t => t ≤ 1000 + 60000) (replicate 29 2000)
  ∧ 61000 ≤ 1000 + 60000
  ∧ 1000 + 60000 < 61001
  ∧ ∃ m1,
      rateLimitedCalls (str "ip1") (1000 :: replicate 29 2000) ∅
      = (replicate 30 false, m1)
      ∧ isRateLimited 61000 (str "ip1") m1 = (true, m1)
      ∧ isRateLimited 61001 (str "ip1") m1
        = (false, <[str "ip1" := {| count := 1; resetTime := 61001 + 60000 |}]> m1).
Proof.
  assert (Forall (fun t => t ≤ 1000 + 60000) (replicate 29 2000)) as Hts.
  { apply Forall_forall. intros t Ht.
    apply elem_of_replicate in Ht as [-> _]. lia. }
  assert ((∅ : gmap jsstring RateRecord) !! str "ip1" = None
          ∨ ∃ r, (∅ : gmap jsstring RateRecord) !! str "ip1" = Some r
                 ∧ resetTime r < 1000) as H0 by (left; reflexivity).
  split; [exact H0|]. split; [reflexivity|]. split; [exact Hts|].
  split; [lia|]. split; [lia|].
  exact (isRateLimited_window (str "ip1") ∅ 1000 (replicate 29 2000)
           61000 61001 H0 eq_refl Hts ltac:(lia) ltac:(lia)).
Defined.

Lemma isRateLimited_frame_witness :
  isRateLimited 50000 (str "ip1") exampleLimits = (true, exampleLimits)
  ∧ ((true = true → exampleLimits = exampleLimits)
     ∧ (true = false → exampleLimits !! str "ip1" ≠ exampleLimits !! str "ip1")
     ∧ ∀ ip' : jsstring, ip' ≠ str "ip1" → exampleLimits !! ip' = exampleLimits !! ip').
Proof.
  assert (isRateLimited 50000 (str "ip1") exampleLimits = (true, exampleLimits))
    as H by (vm_compute; reflexivity).
  split; [exact H|].
  exact (isRateLimited_frame 50000 (str "ip1") exampleLimits exampleLimits
           true H).
Defined.

(** ** The access token manager *)

(** C8 (token reuse).  A call that finds no valid token performs one
    exchange and stores the token with the expiry
    [now + (expires_in - 60) * 1000]; a second call while that token is
    valid returns it and sends nothing: one exchange in all. *)
Theorem getAccessToken_reuse s now1 res now2 exchange2 r1 s1 log1 r2 s2 log2 :
  ¬ tokenValid s now1 →
  getAccessToken now1 (inr res) s = (r1, s1, log1) →
  tokenValid s1 now2 →
  getAccessToken now2 exchange2 s1 = (r2, s2, log2) →
  r1 = inr (access_token res)
  ∧ accessToken s1 = access_token res
  ∧ tokenExpiry s1 = received_at res + (expires_in res - 60) * 1000
  ∧ r2 = inr (accessToken s1)
  ∧ s2 = s1
  ∧ log2 = []
  ∧ tokenExchanges (log1 ++ log2) = 1%nat.
Proof.
  intros Hmiss Hfirst [Htok Hnow2] Hsecond.
  assert (r1 = inr (access_token res) ∧ log1 = [TokenExchange]
          ∧ accessToken s1 = access_token res
          ∧ tokenExpiry s1 = received_at res + (expires_in res - 60) * 1000)
    as (-> & -> & Hacc & Hexp).
  { unfold getAccessToken in Hfirst.
    destruct (bool_decide_reflect (accessToken s = [])) as [Hempty|Hfull];
      simpl in Hfirst.
    - by injection Hfirst as <- <- <-.
    - destruct (Z.ltb_spec now1 (tokenExpiry s)).
      + exfalso. by apply Hmiss.
      + by injection Hfirst as <- <- <-. }
  unfold getAccessToken in Hsecond.
  rewrite bool_decide_eq_false_2 in Hsecond by done.
  destruct (Z.ltb_spec now2 (tokenExpiry s1)); [|lia].
  simpl in Hsecond. injection Hsecond as <- <- <-. done.
Qed.

Lemma getAccessToken_reuse_witness :
  ¬ tokenValid initialState 1748736000400
  ∧ getAccessToken 1748736000400 (inr exampleReply) initialState
    = (inr (str "tok"), exampleStateToken, [TokenExchange])
  ∧ tokenValid exampleStateToken 1748736009999
  ∧ getAccessToken 1748736009999 (inl NotAnError) exampleStateToken
    = (inr (str "tok"), exampleStateToken, [])
  ∧ tokenExchanges ([TokenExchange] ++ []) = 1%nat.
Proof.
  assert (¬ tokenValid initialState 1748736000400) as H1.
  { intros [Htok _]. by apply Htok. }
  assert (getAccessToken 1748736000400 (inr exampleReply) initialState
          = (inr (str "tok"), exampleStateToken, [TokenExchange])) as H2
    by reflexivity.
  assert (tokenValid exampleStateToken 1748736009999) as H3.
  { split; [done|simpl; lia]. }
  assert (getAccessToken 1748736009999 (inl NotAnError) exampleStateToken
          = (inr (str "tok"), exampleStateToken, [])) as H4 by reflexivity.
  split; [exact H1|]. split; [exact H2|]. split; [exact H3|].
  split; [exact H4|].
  exact (proj2 (proj2 (proj2 (proj2 (proj2 (proj2
    (getAccessToken_reuse initialState 1748736000400 exampleReply
       1748736009999 (inl NotAnError) _ _ _ _ _ _ H1 H2 H3 H4))))))).
Defined.

(** The token manager sends nothing but credential exchanges. *)
Lemma getAccessToken_log now exchange s tok s' ev :
  getAccessToken now exchange s = (tok, s', ev) →
  (ev = [] ∨ ev = [TokenExchange])
  ∧ cachedGrid s' = cachedGrid s
  ∧ searchRateLimit s' = searchRateLimit s.
Proof.
  unfold getAccessToken.
  destruct (_ && _); [by intros [= <- <- <-]; auto|].
  destruct exchange; intros [= <- <- <-]; auto.
Qed.

(** ** GET /api/search *)

Lemma trimStart_split l :
  ∃ w, l = w ++ trimStart l ∧ Forall (fun c => isWhiteSpace c = true) w.
Proof.
  induction l as [|c l (w & Hl & Hw)]; [by exists []|].
  simpl. destruct (isWhiteSpace c) eqn:Hc.
  - exists (c :: w). split; [by rewrite Hl at 1|by constructor].
  - by exists [].
Qed.

Lemma trimStart_head l c :
  head (trimStart l) = Some c → isWhiteSpace c = false.
Proof.
  induction l as [|a l IH]; [done|]. simpl.
  destruct (isWhiteSpace a) eqn:Ha; [done|]. simpl. by intros [= <-].
Qed.

Lemma last_rev {A} (l : list A) : last (rev l) = head l.
Proof. destruct l as [|a l]; [done|]. simpl. apply last_snoc. Qed.

(** [trim s] is what is left of [trimStart s] once its trailing white
    space is cut. *)
Lemma trim_prefix l : ∃ w, trimStart l = trim l ++ w.
Proof.
  unfold trim. destruct (trimStart_split (rev (trimStart l))) as (w & Hw & _).
  exists (rev w). rewrite <- rev_app_distr, <- Hw. by rewrite rev_involutive.
Qed.

Lemma trim_elem c l : c ∈ trim l → c ∈ l.
Proof.
  intros Hc. destruct (trim_prefix l) as (w & Hw).
  destruct (trimStart_split l) as (w' & Hl & _).
  rewrite Hl, Hw. set_solver.
Qed.

Lemma trim_head l c : head (trim l) = Some c → isWhiteSpace c = false.
Proof.
  intros Hc. destruct (trim_prefix l) as (w & Hw).
  apply (trimStart_head l). rewrite Hw.
  destruct (trim l); [done|]. done.
Qed.

Lemma trim_last l c : last (trim l) = Some c → isWhiteSpace c = false.
Proof. unfold trim. rewrite last_rev. apply trimStart_head. Qed.

Lemma sanitize_clean query c : c ∈ sanitize query → isStripped c = false.
Proof.
  intros Hc%trim_elem%list_elem_of_In%filter_In.
  destruct Hc as [_ Hc]. by destruct (isStripped c).
Qed.





Example search_sanitized :
  searchHandler exampleQuotedReq exampleSearchEnv initialState
  = (SearchOk (examplePool 2),
     {| accessToken := str "tok";
        tokenExpiry := 1748736000500 + (5000000 - 60) * 1000;
        cachedGrid := cachedGrid initialState;
        searchRateLimit :=
          {[ str "1.2.3.4" := {| count := 1; resetTime := 1748736060400 |} ]} |},
     [TokenExchange; CatalogSearch (searchBody (str "ab"))]).
Proof. vm_compute. reflexivity. Qed.


(** ** GET /api/games *)

Section GamesFacts.

Variable sin_impl : number -> number.
Variable parse_impl : jsstring -> number.
Variable db : bool.

Abbreviation handler := (gamesHandler sin_impl parse_impl db).
Abbreviation fresh := (gamesFresh sin_impl parse_impl db).
Abbreviation select := (selectGamesForDate sin_impl parse_impl).

Lemma catchResponse_500 err : ∃ error details, catchResponse err = Status500 error details.
Proof. destruct err; simpl; eauto. Qed.

Lemma catalogFetches_app l1 l2 :
  catalogFetches (l1 ++ l2) = (catalogFetches l1 + catalogFetches l2)%nat.
Proof. unfold catalogFetches. by rewrite List.filter_app, length_app. Qed.

Ltac count_fetches :=
  rewrite ?catalogFetches_app; unfold catalogFetches; simpl; lia.

(** A response of the path that asks the catalog. *)
Lemma gamesFresh_response fuel env s log resp s' log' :
  fresh fuel env s log = Some (resp, s', log') →
  (catalogFetches log' ≤ catalogFetches log + 1)%nat
  ∧ (∃ l, log' = log ++ l)
  ∧ ((∃ error details, resp = Status500 error details)
     ∨ ∃ allGames selected,
         env_catalog env = inr allGames
         ∧ select fuel (uniqueByName allGames [] ∅) (env_today env) 9
           = Some selected
         ∧ resp = GamesOk selected (env_today env)
         ∧ cachedGrid s' = {| date := env_today env; games := selected |}
         ∧ catalogFetches log' = (catalogFetches log + 1)%nat).
Proof.
  unfold gamesFresh.
  destruct (getAccessToken _ _ _) as [[tok s1] ev] eqn:Htok.
  apply getAccessToken_log in Htok as [Hev _].
  destruct tok as [err|token].
  { intros [= <- <- <-].
    split; [destruct Hev as [-> | ->]; count_fetches|].
    split; [eauto|]. left. apply catchResponse_500. }
  destruct (env_catalog env) as [err|allGames].
  { intros [= <- <- <-].
    split; [destruct Hev as [-> | ->]; count_fetches|].
    split; [eauto|]. left. apply catchResponse_500. }
  destruct (selectGamesForDate _ _ _ _ _ _) as [selected|] eqn:Hsel; [|done].
  intros [= <- <- <-].
  assert (catalogFetches
            (if db
             then (log ++ ev ++ [CatalogFetch (env_monthTimestamp env)])
                  ++ [DbInsert (env_today env) selected]
             else log ++ ev ++ [CatalogFetch (env_monthTimestamp env)])
          = (catalogFetches log + 1)%nat) as Hn.
  { destruct db, Hev as [-> | ->]; count_fetches. }
  split; [lia|]. split.
  { destruct db; rewrite <- ?app_assoc; eauto. }
  right. exists allGames, selected.
  split; [done|]. split; [exact Hsel|]. split; [done|]. split; [done|exact Hn].
Qed.

Lemma gamesHandler_hit fuel env s :
  date (cachedGrid s) = env_today env → games (cachedGrid s) ≠ [] →
  handler fuel env s
  = Some (GamesOk (games (cachedGrid s)) (date (cachedGrid s)), s, []).
Proof.
  intros Hd Hg. unfold gamesHandler.
  rewrite bool_decide_eq_true_2 by done.
  by destruct (games (cachedGrid s)).
Qed.

Lemma gamesHandler_miss fuel env s out :
  handler fuel env s = Some out →
  ¬ (date (cachedGrid s) = env_today env ∧ games (cachedGrid s) ≠ []) →
  (∃ row rest,
     db = true ∧ env_select env = inr (row :: rest)
     ∧ out = (GamesOk row (env_today env),
              withGrid s {| date := env_today env; games := row |},
              [DbSelect (env_today env)]))
  ∨ (fresh fuel env s (if db then [DbSelect (env_today env)] else []) = Some out
     ∧ ∀ row rest, db = true → env_select env ≠ inr (row :: rest)).
Proof.
  unfold gamesHandler. intros Hrun Hmiss.
  assert ((bool_decide (date (cachedGrid s) = env_today env)
           && (0 <? length (games (cachedGrid s)))%nat) = false) as Hcond.
  { apply andb_false_iff.
    destruct (bool_decide_reflect (date (cachedGrid s) = env_today env));
      [|by left].
    right. destruct (games (cachedGrid s)); [done|].
    exfalso. by apply Hmiss. }
  rewrite Hcond in Hrun.
  destruct db; [|by right].
  destruct (env_select env) as [|[|row rest]]; [by right..|].
  left. injection Hrun as <-. eauto.
Qed.

(** C5, as amended (what the handler answers).  A response is either the
    cached grid (of today, not empty), or the grid of the database row, or
    the grid just selected from the deduplicated catalog pool, which has
    [min 9 n] games for a pool of [n] distinct names, hence 9 as soon as the
    pool has 9; or it is a 500 error. *)
Theorem gamesHandler_response fuel env s resp s' log :
  handler fuel env s = Some (resp, s', log) →
  (resp = GamesOk (games (cachedGrid s)) (env_today env)
   ∧ date (cachedGrid s) = env_today env
   ∧ games (cachedGrid s) ≠ [] ∧ s' = s ∧ log = [])
  ∨ (∃ row rest, db = true ∧ env_select env = inr (row :: rest)
                 ∧ resp = GamesOk row (env_today env))
  ∨ (∃ allGames selected,
       env_catalog env = inr allGames
       ∧ select fuel (uniqueByName allGames [] ∅) (env_today env) 9
         = Some selected
       ∧ resp = GamesOk selected (env_today env)
       ∧ length selected = (9 `min` length (uniqueByName allGames [] ∅))%nat)
  ∨ (∃ error details, resp = Status500 error details).
Proof.
  intros Hrun.
  destruct (decide (date (cachedGrid s) = env_today env
                    ∧ games (cachedGrid s) ≠ [])) as [[Hd Hg]|Hmiss].
  { rewrite gamesHandler_hit in Hrun by done.
    injection Hrun as <- <- <-. left. by rewrite Hd. }
  apply gamesHandler_miss in Hrun as [(row & rest & Hdb & Hsel & [= -> _ _])|[Hf _]];
    [by eauto 10| |done].
  apply gamesFresh_response in Hf as (_ & _ & [H500|Hok]); [by auto|].
  destruct Hok as (allGames & selected & Hc & Hsel & -> & _).
  right. right. left. exists allGames, selected.
  split; [done|split; [done|split; [done|]]].
  apply sel_loop_result in Hsel as (used & -> & _ & Hlen);
    [|apply sel_init_inv|apply sel_init_bounded].
  by rewrite length_map.
Qed.

(** The handler answers as soon as the selection loop has the fuel it
    needs. *)
Lemma gamesHandler_responds env s n :
  (∀ allGames, env_catalog env = inr allGames →
     (9 `min` length (uniqueByName allGames [] ∅)
      ≤ Set_size (visited sin_impl (uniqueByName allGames [] ∅)
                    (Date_getTime parse_impl (env_today env)) n))%nat) →
  ∃ out, handler (S n) env s = Some out.
Proof.
  intros Hvis. unfold gamesHandler.
  assert (∀ log, ∃ out, fresh (S n) env s log = Some out) as Hfresh.
  { intros log. unfold gamesFresh.
    destruct (getAccessToken _ _ _) as [[[err|token] s1] ev]; [by eauto|].
    destruct (env_catalog env) as [err|allGames]; [by eauto|].
    destruct (sel_loop_terminates sin_impl (uniqueByName allGames [] ∅)
                (Date_getTime parse_impl (env_today env)) 9 n) as (r & Hr & _);
      [by apply Hvis|].
    unfold selectGamesForDate. rewrite Hr. eauto. }
  destruct (_ && _); [by eauto|].
  destruct db; [|done].
  destruct (env_select env) as [|[|row rest]]; eauto.
Qed.

(** C4, as amended (cache idempotence).  After a request answered with a
    grid that is not empty, a second request on the same date is answered
    with the same grid from the memory slot and sends nothing; the first
    request asked the catalog at most once.  The first request looked at
    the memory slot first, then at the database, and the grid it answered is
    in the memory slot afterwards. *)
Theorem gamesHandler_idempotent fuel1 fuel2 env1 env2 s grid gridId s1 log1 :
  env_today env2 = env_today env1 →
  handler fuel1 env1 s = Some (GamesOk grid gridId, s1, log1) →
  grid ≠ [] →
  handler fuel2 env2 s1 = Some (GamesOk grid gridId, s1, [])
  ∧ (catalogFetches (log1 ++ []) ≤ 1)%nat
  ∧ cachedGrid s1 = {| date := env_today env1; games := grid |}
  ∧ (date (cachedGrid s) = env_today env1 ∧ games (cachedGrid s) ≠ [] →
     log1 = [])
  ∧ (db = true → log1 ≠ [] → head log1 = Some (DbSelect (env_today env1)))
  ∧ (db = true → log1 ≠ [] →
     ∀ row rest, env_select env1 = inr (row :: rest) →
                 grid = row ∧ log1 = [DbSelect (env_today env1)]).
Proof.
  intros Htoday Hrun Hne.
  assert (cachedGrid s1 = {| date := env_today env1; games := grid |}
          ∧ gridId = env_today env1
          ∧ (catalogFetches log1 ≤ 1)%nat
          ∧ (date (cachedGrid s) = env_today env1 ∧ games (cachedGrid s) ≠ [] →
             log1 = [])
          ∧ (db = true → log1 ≠ [] → head log1 = Some (DbSelect (env_today env1)))
          ∧ (db = true → log1 ≠ [] →
             ∀ row rest, env_select env1 = inr (row :: rest) →
                         grid = row ∧ log1 = [DbSelect (env_today env1)]))
    as (Hcache & -> & Hn & Hmem & Hdb1 & Hdb2).
  { destruct (decide (date (cachedGrid s) = env_today env1
                      ∧ games (cachedGrid s) ≠ [])) as [[Hd Hg]|Hmiss].
    { rewrite gamesHandler_hit in Hrun by done.
      injection Hrun as <- <- <- <-.
      split; [destruct (cachedGrid s); simpl in *; by subst|].
      split; [done|]. split; [count_fetches|]. done. }
    apply gamesHandler_miss in Hrun as [(row & rest & Hdb & Hsel & Hout)|[Hf Hno]];
      [| |done].
    - injection Hout as -> -> -> ->.
      split; [done|]. split; [done|]. split; [count_fetches|].
      split; [done|]. split; [done|].
      intros _ _ row' rest'. rewrite Hsel. by intros [= -> ->].
    - apply gamesFresh_response in Hf as (Hn & (l & ->) & [(? & ? & [=])|Hok]).
      destruct Hok as (allGames & selected & _ & _ & [= -> ->] & Hc & _).
      split; [done|]. split; [done|]. split.
      { clear -Hn. destruct db; unfold catalogFetches in *; simpl in *; lia. }
      split; [done|]. split; [by intros ->|].
      intros Hdb _ row rest Hsel. by destruct (Hno row rest Hdb). }
  split; [|split; [by rewrite app_nil_r|]];
    [|exact (conj Hcache (conj Hmem (conj Hdb1 Hdb2)))].
  rewrite <- Htoday in Hcache.
  assert (date (cachedGrid s1) = env_today env2) as Hd by (by rewrite Hcache).
  assert (games (cachedGrid s1) ≠ []) as Hg by (by rewrite Hcache).
  rewrite (gamesHandler_hit _ _ _ Hd Hg), Hcache. simpl. by rewrite Htoday.
Qed.

End GamesFacts.

(** *** The handler on concrete requests *)

(** C5, as stated, fails: a catalog pool of one game is answered with a
    grid of one game. *)
Lemma gamesHandler_partial_grid_counterexample :
  gamesHandler ref_sin ref_parse false 3 (exampleGamesEnv (examplePool 1))
    initialState
  = Some (GamesOk [Some (exampleGame 0)] (str "2025-06-01"),
          exampleStateAfter [Some (exampleGame 0)],
          [TokenExchange; CatalogFetch 1748736000])
  ∧ length [Some (exampleGame 0)] ≠ 9%nat.
Proof. split; [vm_compute; reflexivity|simpl; lia]. Qed.

Lemma gamesHandler_response_witness :
  gamesHandler ref_sin ref_parse false 8 (exampleGamesEnv (examplePool 5))
    initialState
  = Some (GamesOk exampleSelection (str "2025-06-01"),
          exampleStateAfter exampleSelection,
          [TokenExchange; CatalogFetch 1748736000])
  ∧ ∃ allGames selected,
      env_catalog (exampleGamesEnv (examplePool 5)) = inr allGames
      ∧ selectGamesForDate ref_sin ref_parse 8 (uniqueByName allGames [] ∅)
          (str "2025-06-01") 9 = Some selected
      ∧ GamesOk exampleSelection (str "2025-06-01")
        = GamesOk selected (str "2025-06-01")
      ∧ length selected = (9 `min` length (uniqueByName allGames [] ∅))%nat.
Proof.
  assert (gamesHandler ref_sin ref_parse false 8
            (exampleGamesEnv (examplePool 5)) initialState
          = Some (GamesOk exampleSelection (str "2025-06-01"),
                  exampleStateAfter exampleSelection,
                  [TokenExchange; CatalogFetch 1748736000])) as Hrun
    by (vm_compute; reflexivity).
  split; [exact Hrun|].
  destruct (gamesHandler_response ref_sin ref_parse false 8
              (exampleGamesEnv (examplePool 5)) initialState _ _ _ Hrun)
    as [(_ & _ & Hg & _)|[(row & rest & Hdb & _)|[Hfresh|(e & d & H500)]]].
  - exfalso. by apply Hg.
  - discriminate Hdb.
  - exact Hfresh.
  - discriminate H500.
Defined.

(** C4, as stated, fails: with no database, a first request answered with
    the empty grid of an empty catalog pool is followed by a second catalog
    request, and by another grid. *)
Lemma gamesHandler_idempotent_counterexample :
  gamesHandler ref_sin ref_parse false 3 (exampleGamesEnv []) initialState
  = Some (GamesOk [] (str "2025-06-01"),
          exampleStateAfter [],
          [TokenExchange; CatalogFetch 1748736000])
  ∧ gamesHandler ref_sin ref_parse false 3 (exampleGamesEnv (examplePool 1))
      (exampleStateAfter [])
    = Some (GamesOk [Some (exampleGame 0)] (str "2025-06-01"),
            exampleStateAfter [Some (exampleGame 0)],
            [CatalogFetch 1748736000])
  ∧ catalogFetches ([TokenExchange; CatalogFetch 1748736000]
                    ++ [CatalogFetch 1748736000]) = 2%nat.
Proof.
  split; [vm_compute; reflexivity|]. split; [vm_compute; reflexivity|done].
Qed.

Lemma gamesHandler_idempotent_witness :
  env_today (exampleGamesEnv []) = env_today (exampleGamesEnv (examplePool 5))
  ∧ gamesHandler ref_sin ref_parse false 8 (exampleGamesEnv (examplePool 5))
      initialState
    = Some (GamesOk exampleSelection (str "2025-06-01"),
            exampleStateAfter exampleSelection,
            [TokenExchange; CatalogFetch 1748736000])
  ∧ exampleSelection ≠ []
  ∧ gamesHandler ref_sin ref_parse false 0 (exampleGamesEnv [])
      (exampleStateAfter exampleSelection)
    = Some (GamesOk exampleSelection (str "2025-06-01"),
            exampleStateAfter exampleSelection, []).
Proof.
  assert (gamesHandler ref_sin ref_parse false 8
            (exampleGamesEnv (examplePool 5)) initialState
          = Some (GamesOk exampleSelection (str "2025-06-01"),
                  exampleStateAfter exampleSelection,
                  [TokenExchange; CatalogFetch 1748736000])) as Hrun
    by (vm_compute; reflexivity).
  assert (exampleSelection ≠ []) as Hne by done.
  split; [reflexivity|]. split; [exact Hrun|]. split; [exact Hne|].
  exact (proj1 (gamesHandler_idempotent ref_sin ref_parse false 8 0
                  (exampleGamesEnv (examplePool 5)) (exampleGamesEnv [])
                  initialState _ _ _ _ eq_refl Hrun Hne)).
Defined.

(** ** Determinism of the selection *)

(** A request answered after exactly one catalog request was answered
    with the selection made from the deduplicated pool. *)
Lemma gamesHandler_fresh_selection sin_impl parse_impl db fuel env s grid
    gridId s' log :
  gamesHandler sin_impl parse_impl db fuel env s
  = Some (GamesOk grid gridId, s', log) →
  catalogFetches log = 1%nat →
  ∃ allGames,
    env_catalog env = inr allGames
    ∧ selectGamesForDate sin_impl parse_impl fuel (uniqueByName allGames [] ∅)
        (env_today env) 9 = Some grid.
Proof.
  intros Hrun Hone.
  destruct (decide (date (cachedGrid s) = env_today env
                    ∧ games (cachedGrid s) ≠ [])) as [[Hd Hg]|Hmiss].
  { rewrite gamesHandler_hit in Hrun by done.
    injection Hrun as <- <- <- <-. discriminate Hone. }
  apply gamesHandler_miss in Hrun as [(row & rest & _ & _ & Hout)|[Hf _]];
    [| |done].
  { injection Hout as -> -> -> ->. discriminate Hone. }
  apply gamesFresh_response in Hf as (_ & _ & [(? & ? & [=])|Hok]).
  destruct Hok as (allGames & selected & Hc & Hsel & [= -> ->] & _).
  by exists allGames.
Qed.

Lemma digit_digitChar z : 0 ≤ z ≤ 9 → digit (digitChar z) = Some z.
Proof.
  intros Hz. unfold digit, digitChar.
  destruct (N.leb_spec 48 (Z.to_N (48 + z))); [|lia].
  destruct (N.leb_spec (Z.to_N (48 + z)) 57); [|lia].
  simpl. f_equal. lia.
Qed.

Lemma Date_getTime_isoDate parse_impl y m d :
  0 ≤ y ≤ 9999 → 1 ≤ m ≤ 12 → 1 ≤ d ≤ 31 →
  Date_getTime parse_impl (isoDate y m d) = of_Z (dayNumber y m d * msPerDay).
Proof.
  intros Hy Hm Hd. unfold Date_getTime, isoDate.
  rewrite !digit_digitChar by (Z.to_euclidean_division_equations; lia).
  assert (1000 * (y / 1000) + 100 * (y / 100 mod 10) + 10 * (y / 10 mod 10)
          + y mod 10 = y) as -> by (Z.to_euclidean_division_equations; lia).
  assert (10 * (m / 10) + m mod 10 = m) as ->
    by (Z.to_euclidean_division_equations; lia).
  assert (10 * (d / 10) + d mod 10 = d) as ->
    by (Z.to_euclidean_division_equations; lia).
  destruct (Z.leb_spec 1 m), (Z.leb_spec m 12), (Z.leb_spec 1 d),
    (Z.leb_spec d 31); try lia.
  done.
Qed.






(** * Further properties of the code *)

(** ** Deduplication by name *)

(** What the loop appends to [uniqueGames]. *)
Lemma uniqueByName_acc allGames :
  ∀ uniqueGames (seenNames : gset jsstring),
  ∃ rest,
    uniqueByName allGames uniqueGames seenNames = uniqueGames ++ rest
    ∧ rest `sublist_of` allGames
    ∧ NoDup (map name rest)
    ∧ (∀ g, g ∈ allGames → name g ∈ seenNames ∨ name g ∈ map name rest)
    ∧ ∀ g, g ∈ rest ↔
           (∃ i, allGames !! i = Some g ∧ (name g ∉ seenNames)
                 ∧ ∀ j g', (j < i)%nat → allGames !! j = Some g' →
                           name g' ≠ name g).
Proof.
  induction allGames as [|game games IH]; intros uniqueGames seenNames.
  { exists []. rewrite app_nil_r. split; [done|]. split; [done|].
    split; [constructor|]. split; [by intros g ?%elem_of_nil|].
    intros g. split; [by intros ?%elem_of_nil|]. by intros (i & ? & _). }
  simpl. destruct (bool_decide_reflect (name game ∈ seenNames)) as [Hin|Hin].
  - destruct (IH uniqueGames seenNames) as (rest & -> & Hsub & Hnd & Hall & Hfirst).
    exists rest. split; [done|]. split; [by constructor|]. split; [done|].
    split.
    { intros g [->|Hg]%elem_of_cons; [by left|by apply Hall]. }
    intros g. rewrite Hfirst. split.
    + intros (i & Hi & Hg & Hbefore). exists (S i). split; [done|].
      split; [done|]. intros [|j] g' Hj Hj'.
      * injection Hj' as <-. intros Heq. by rewrite Heq in Hin.
      * apply (Hbefore j); [lia|done].
    + intros ([|i] & Hi & Hg & Hbefore).
      * injection Hi as <-. done.
      * exists i. split; [done|]. split; [done|].
        intros j g' Hj Hj'. apply (Hbefore (S j)); [lia|done].
  - destruct (IH (uniqueGames ++ [game]) ({[name game]} ∪ seenNames))
      as (rest & -> & Hsub & Hnd & Hall & Hfirst).
    exists (game :: rest). rewrite <- app_assoc. split; [done|].
    split; [by constructor|].
    assert (name game ∉ map name rest) as Hfresh.
    { intros (g & Hname & Hg%list_elem_of_In%Hfirst)%list_elem_of_In%in_map_iff.
      destruct Hg as (i & _ & Hnot & _). apply Hnot. rewrite Hname.
      apply elem_of_union. left. by apply elem_of_singleton. }
    split; [by constructor|].
    split.
    { intros g [->|Hg]%elem_of_cons; [right; simpl; by left|].
      destruct (Hall g Hg) as [[->%elem_of_singleton|?]%elem_of_union|?].
      - right. simpl. by left.
      - by left.
      - right. simpl. by right. }
    intros g. rewrite elem_of_cons, Hfirst. split.
    + intros [->|(i & Hi & Hg & Hbefore)].
      * exists 0%nat. split; [done|]. split; [done|]. intros; lia.
      * exists (S i). split; [done|]. split.
        { intros ?. apply Hg, elem_of_union. by right. }
        intros [|j] g' Hj Hj'.
        -- injection Hj' as <-. intros Heq. apply Hg, elem_of_union. left.
           by apply elem_of_singleton.
        -- apply (Hbefore j); [lia|done].
    + intros ([|i] & Hi & Hg & Hbefore).
      * injection Hi as <-. by left.
      * right. exists i. split; [done|]. split.
        -- intros [Heq%elem_of_singleton|?]%elem_of_union; [|done].
           by apply (Hbefore 0%nat game); [lia| |].
        -- intros j g' Hj Hj'. apply (Hbefore (S j)); [lia|done].
Qed.

(** X1 (first occurrences).  The deduplicated pool has no two games of the
    same name, keeps the order of the catalog answer, and holds exactly the
    first game of each name. *)
Theorem uniqueByName_first_occurrences allGames :
  NoDup (map name (uniqueByName allGames [] ∅))
  ∧ uniqueByName allGames [] ∅ `sublist_of` allGames
  ∧ (∀ g, g ∈ allGames → name g ∈ map name (uniqueByName allGames [] ∅))
  ∧ ∀ g, g ∈ uniqueByName allGames [] ∅ ↔
         (∃ i, allGames !! i = Some g
               ∧ ∀ j g', (j < i)%nat → allGames !! j = Some g' →
                         name g' ≠ name g).
Proof.
  destruct (uniqueByName_acc allGames [] ∅) as (rest & -> & Hsub & Hnd & Hall & Hfirst).
  simpl. split; [done|]. split; [done|]. split.
  - intros g Hg. by destruct (Hall g Hg) as [?%not_elem_of_empty|?].
  - intros g. rewrite Hfirst. split.
    + intros (i & ? & _ & ?). eauto.
    + intros (i & ? & ?). exists i. split; [done|]. split; [set_solver|done].
Qed.

(** A pool whose names are already distinct is left as it is. *)
Lemma uniqueByName_id_acc allGames :
  ∀ uniqueGames (seenNames : gset jsstring),
    NoDup (map name allGames) →
    (∀ g, g ∈ allGames → name g ∉ seenNames) →
    uniqueByName allGames uniqueGames seenNames = uniqueGames ++ allGames.
Proof.
  induction allGames as [|game games IH]; intros uniqueGames seenNames Hnd Hseen.
  { by rewrite app_nil_r. }
  simpl. inversion_clear Hnd as [|? ? Hfresh Hnd'].
  rewrite bool_decide_eq_false_2 by (apply Hseen; by left).
  rewrite IH, <- app_assoc; [done|done|].
  intros g Hg [Heq%elem_of_singleton|Hin]%elem_of_union.
  - apply Hfresh. rewrite <- Heq. by apply list_elem_of_In, in_map, list_elem_of_In.
  - apply (Hseen g); [by right|done].
Qed.

(** X2 (deduplication is idempotent).  Deduplicating twice is deduplicating
    once, and a pool whose names are distinct is returned unchanged. *)
Theorem uniqueByName_idempotent allGames :
  uniqueByName (uniqueByName allGames [] ∅) [] ∅ = uniqueByName allGames [] ∅
  ∧ (NoDup (map name allGames) → uniqueByName allGames [] ∅ = allGames).
Proof.
  assert (∀ l, NoDup (map name l) → uniqueByName l [] ∅ = l) as Hid.
  { intros l Hl. rewrite uniqueByName_id_acc; [done|done|]. set_solver. }
  split; [|apply Hid].
  apply Hid.
  destruct (uniqueByName_acc allGames [] ∅) as (rest & -> & _ & Hnd & _).
  done.
Qed.

Lemma uniqueByName_names allGames :
  NoDup (map name (uniqueByName allGames [] ∅)).
Proof. by destruct (uniqueByName_acc allGames [] ∅) as (rest & -> & _ & ? & _). Qed.

(** ** The rate limiter: sweep and invariants *)

Lemma sweepRateLimit_lookup (now : Z) (ip : jsstring)
    (m : gmap jsstring RateRecord) :
  sweepRateLimit now m !! ip
  = match m !! ip with
    | Some r => if now >? resetTime r then None else Some r
    | None => None
    end.
Proof.
  unfold sweepRateLimit. destruct (m !! ip) as [r|] eqn:Hm.
  - destruct (Z.gtb_spec now (resetTime r)) as [Hexp|Hlive].
    + apply map_lookup_filter_None. right. intros r' Hr'. simpl.
      assert (r' = r) as -> by congruence.
      destruct (Z.gtb_spec now (resetTime r)); [done|lia].
    + apply map_lookup_filter_Some. split; [done|]. simpl.
      destruct (Z.gtb_spec now (resetTime r)); [lia|done].
  - apply map_lookup_filter_None. by left.
Qed.

(** X3 (the sweep).  The sweep is invisible to the clients. A call made at or
    after the instant of a sweep gets the answer it would have got without the
    sweep, and leaves the same record for the caller. What the sweep keeps is
    exactly the records that have not expired. *)
Theorem sweepRateLimit_transparent (now now' : Z) (ip : jsstring)
    (m : gmap jsstring RateRecord) :
  now ≤ now' →
  fst (isRateLimited now' ip (sweepRateLimit now m))
  = fst (isRateLimited now' ip m)
  ∧ snd (isRateLimited now' ip (sweepRateLimit now m)) !! ip
    = snd (isRateLimited now' ip m) !! ip
  ∧ ∀ (ip' : jsstring) (r : RateRecord),
      sweepRateLimit now m !! ip' = Some r
      ↔ m !! ip' = Some r ∧ now ≤ resetTime r.
Proof.
  intros Hle. apply and_assoc. split.
  2: { intros ip' r. rewrite sweepRateLimit_lookup.
       destruct (m !! ip') as [r0|]; [|by split; [|intros []]].
       destruct (Z.gtb_spec now (resetTime r0)).
       - split; [done|]. intros [[= ->] ?]. lia.
       - split; [by intros [= ->]|by intros []]. }
  unfold isRateLimited. rewrite sweepRateLimit_lookup.
  destruct (m !! ip) as [r|] eqn:Hm; simpl.
  - destruct (Z.gtb_spec now (resetTime r)) as [Hexp|Hlive].
    + destruct (Z.gtb_spec now' (resetTime r)); [|lia]. simpl.
      by rewrite !lookup_insert_eq.
    + destruct (Z.gtb_spec now' (resetTime r)); simpl.
      * by rewrite !lookup_insert_eq.
      * destruct (count r >=? 30); simpl.
        -- rewrite sweepRateLimit_lookup, Hm.
           destruct (Z.gtb_spec now (resetTime r)); [lia|done].
        -- by rewrite !lookup_insert_eq.
  - by rewrite !lookup_insert_eq.
Qed.

Lemma limiterAfter_snoc (ops : list LimiterOp) (op : LimiterOp) :
  limiterAfter (ops ++ [op]) = limiterStep (limiterAfter ops) op.
Proof. unfold limiterAfter. by rewrite fold_left_app. Qed.

Lemma callsBy_snoc (ip : jsstring) (ops : list LimiterOp) (op : LimiterOp) :
  callsBy ip (ops ++ [op])
  = (callsBy ip ops
     + match op with
       | LimiterCall _ ip' => if bool_decide (ip' = ip) then 1 else 0
       | LimiterSweep _ => 0
       end)%nat.
Proof.
  unfold callsBy. rewrite List.filter_app, length_app. f_equal.
  destruct op as [t ip'|t]; simpl; [|done]. by destruct (bool_decide _).
Qed.

(** X4 (records of the limiter).  In every state the limiter can reach from
    the empty map, by calls and sweeps in any order, a record counts between 1
    and 30 requests, never more than its client has made, and expires 60
    seconds after one of that client's calls. *)
Theorem limiter_records (ops : list LimiterOp) (ip : jsstring)
    (r : RateRecord) :
  limiterAfter ops !! ip = Some r →
  1 ≤ count r ≤ 30
  ∧ count r ≤ Z.of_nat (callsBy ip ops)
  ∧ ∃ t, LimiterCall t ip ∈ ops ∧ resetTime r = t + 60000.
Proof.
  revert ip r. induction ops as [|op ops IH] using rev_ind; intros ip r.
  { unfold limiterAfter. simpl. by rewrite lookup_empty. }
  rewrite limiterAfter_snoc, callsBy_snoc.
  assert (∀ r0, limiterAfter ops !! ip = Some r0 →
            1 ≤ count r0 ≤ 30
            ∧ count r0 ≤ Z.of_nat (callsBy ip ops)
            ∧ ∃ t, LimiterCall t ip ∈ ops ++ [op]
                   ∧ resetTime r0 = t + 60000) as Hold.
  { intros r0 (Hc & Hn & t & Ht & Hr)%IH. split; [done|]. split; [done|].
    exists t. split; [|done]. apply elem_of_app. by left. }
  destruct op as [now ip0|now]; simpl.
  - destruct (decide (ip0 = ip)) as [->|Hne].
    + rewrite bool_decide_eq_true_2 by done.
      assert (LimiterCall now ip ∈ ops ++ [LimiterCall now ip]) as Hin.
      { apply elem_of_app. right. by left. }
      unfold isRateLimited.
      destruct (limiterAfter ops !! ip) as [r0|] eqn:H0; simpl.
      * destruct (Hold r0 eq_refl) as (Hc & Hn & t & Ht & Hr).
        destruct (now >? resetTime r0); simpl.
        -- rewrite lookup_insert_eq. intros [= <-]. simpl.
           split; [lia|]. split; [lia|]. by exists now.
        -- destruct (Z.geb_spec (count r0) 30); simpl.
           ++ rewrite H0. intros [= <-].
              split; [lia|]. split; [lia|]. by exists t.
           ++ rewrite lookup_insert_eq. intros [= <-]. simpl.
              split; [lia|]. split; [lia|]. by exists t.
      * rewrite lookup_insert_eq. intros [= <-]. simpl.
        split; [lia|]. split; [lia|]. by exists now.
    + rewrite bool_decide_eq_false_2 by done. rewrite Nat.add_0_r.
      assert (snd (isRateLimited now ip0 (limiterAfter ops)) !! ip
              = limiterAfter ops !! ip) as ->; [|apply Hold].
      unfold isRateLimited.
      destruct (limiterAfter ops !! ip0) as [r0|]; simpl;
        [destruct (now >? resetTime r0); simpl;
         [|destruct (count r0 >=? 30); simpl; [done|]]|];
        by rewrite lookup_insert_ne.
  - rewrite Nat.add_0_r, sweepRateLimit_lookup.
    destruct (limiterAfter ops !! ip) as [r0|] eqn:H0; [|done].
    destruct (now >? resetTime r0); [done|].
    intros [= <-]. by apply Hold.
Qed.

(** ** The search handler and the limiter *)

Lemma searchHandler_valid req env s :
  validQuery req →
  ∃ resp s' log,
    searchHandler req env s = (resp, s', log)
    ∧ searchRateLimit s'
      = snd (isRateLimited (senv_limiterNow env) (clientIp req)
               (searchRateLimit s))
    ∧ is429 resp
      = fst (isRateLimited (senv_limiterNow env) (clientIp req)
               (searchRateLimit s))
    ∧ cachedGrid s' = cachedGrid s
    ∧ (is429 resp = true →
       log = [] ∧ accessToken s' = accessToken s
       ∧ tokenExpiry s' = tokenExpiry s).
Proof.
  intros (query & Hq & Htrim & Hsan). unfold searchHandler. rewrite Hq.
  assert (query ≠ []) as Hne by (intros ->; simpl in Htrim; lia).
  rewrite bool_decide_eq_false_2 by done.
  destruct (Nat.ltb_spec (length (trim query)) 2); [lia|].
  destruct (Nat.ltb_spec (length (sanitize query)) 2); [lia|]. simpl.
  destruct (isRateLimited _ _ _) as [limited m]. simpl.
  destruct limited; [by eexists _, _, _|].
  destruct (getAccessToken _ _ _) as [[tok s1] ev] eqn:Htok.
  apply getAccessToken_log in Htok as (_ & Hgrid & Hlim). simpl in *.
  destruct tok as [err|token].
  { eexists _, _, _. split; [done|]. split; [done|].
    split; [by destruct err|]. split; [done|]. by destruct err. }
  destruct (senv_search env) as [err|data].
  - eexists _, _, _. split; [done|]. split; [done|].
    split; [by destruct err|]. split; [done|]. by destruct err.
  - eexists _, _, _. done.
Qed.

(** X5 (a search is charged).  Every search with a valid query is charged to
    the caller's bucket, whatever the upstream calls then do; it is answered
    429 exactly when the limiter says so, and then nothing is sent and the
    token is left alone. The cached grid is never touched. *)
Theorem searchHandler_charges req env s resp s' log :
  validQuery req →
  searchHandler req env s = (resp, s', log) →
  searchRateLimit s'
  = snd (isRateLimited (senv_limiterNow env) (clientIp req)
           (searchRateLimit s))
  ∧ is429 resp
    = fst (isRateLimited (senv_limiterNow env) (clientIp req)
             (searchRateLimit s))
  ∧ cachedGrid s' = cachedGrid s
  ∧ (is429 resp = true →
     log = [] ∧ accessToken s' = accessToken s
     ∧ tokenExpiry s' = tokenExpiry s).
Proof.
  intros Hvalid Hrun.
  destruct (searchHandler_valid req env s Hvalid) as (? & ? & ? & Heq & H).
  rewrite Hrun in Heq. by injection Heq as <- <- <-.
Qed.

Lemma rateLimitedCalls_app (ip : jsstring) (ts1 ts2 : list Z)
    (m : gmap jsstring RateRecord) :
  rateLimitedCalls ip (ts1 ++ ts2) m
  = (fst (rateLimitedCalls ip ts1 m)
     ++ fst (rateLimitedCalls ip ts2 (snd (rateLimitedCalls ip ts1 m))),
     snd (rateLimitedCalls ip ts2 (snd (rateLimitedCalls ip ts1 m)))).
Proof.
  revert m. induction ts1 as [|t ts1 IH]; intros m; simpl.
  - by destruct (rateLimitedCalls ip ts2 m).
  - destruct (isRateLimited t ip m) as [b m1]. rewrite IH.
    by destruct (rateLimitedCalls ip ts1 m1).
Qed.

(** The 429 answers of a run are the answers of the limiter. *)
Lemma searchRequests_limiter req envs :
  validQuery req →
  ∀ s,
    map is429 (fst (searchRequests req envs s))
    = fst (rateLimitedCalls (clientIp req) (map senv_limiterNow envs)
             (searchRateLimit s))
    ∧ searchRateLimit (snd (searchRequests req envs s))
      = snd (rateLimitedCalls (clientIp req) (map senv_limiterNow envs)
               (searchRateLimit s)).
Proof.
  intros Hvalid. induction envs as [|env envs IH]; intros s; [done|].
  simpl.
  destruct (searchHandler_valid req env s Hvalid)
    as (resp & s1 & log & -> & Hm & H429 & _).
  specialize (IH s1). destruct (searchRequests req envs s1) as [resps s2].
  destruct (isRateLimited _ _ _) as [b m]. simpl in *. subst m b.
  destruct IH as [IH1 IH2].
  destruct (rateLimitedCalls _ _ _) as [bs m']. simpl in *.
  by rewrite IH1, IH2.
Qed.

(** X6 (the 31st search).  A client is cut off at its 31st search of a window.
    With a valid query and no live record at the first request, that request
    and the 29 next ones by [t0 + 60000] are not answered 429, whatever the
    upstream calls do, and a 31st by then is. *)
Theorem searchRequests_cutoff req env0 envs env31 s :
  validQuery req →
  (searchRateLimit s !! clientIp req = None
   ∨ ∃ r, searchRateLimit s !! clientIp req = Some r
          ∧ resetTime r < senv_limiterNow env0) →
  length envs = 29%nat →
  Forall (fun env => senv_limiterNow env ≤ senv_limiterNow env0 + 60000)
    (envs ++ [env31]) →
  map is429 (fst (searchRequests req (env0 :: envs ++ [env31]) s))
  = replicate 30 false ++ [true].
Proof.
  intros Hvalid Hfresh Hlen Hwin.
  rewrite (proj1 (searchRequests_limiter req _ Hvalid s)).
  apply Forall_app in Hwin as [Hwin H31].
  apply Forall_cons in H31 as [H31 _].
  simpl map. rewrite map_app. simpl map.
  change (rateLimitedCalls ?ip (?t :: ?l) ?m)
    with (let '(b, m1) := isRateLimited t ip m in
          let '(bs, m') := rateLimitedCalls ip l m1 in (b :: bs, m')).
  rewrite (isRateLimited_fresh _ _ _ Hfresh).
  rewrite rateLimitedCalls_app.
  rewrite (rateLimitedCalls_in_window _ _ _ 1 (senv_limiterNow env0 + 60000));
    [|by rewrite lookup_insert_eq| |rewrite length_map; lia].
  2: { apply Forall_forall. intros t (env & <- & Henv%list_elem_of_In)%list_elem_of_In%in_map_iff.
       by apply (proj1 (Forall_forall _ _) Hwin). }
  simpl. rewrite length_map, Hlen, insert_insert_eq. simpl.
  unfold isRateLimited. rewrite lookup_insert_eq. simpl.
  destruct (Z.gtb_spec (senv_limiterNow env31) (senv_limiterNow env0 + 60000));
    [lia|done].
Qed.

(** ** The token manager: failures and short-lived tokens *)

Lemma tokenValid_test s now :
  negb (bool_decide (accessToken s = [])) && (now <? tokenExpiry s) = true
  ↔ tokenValid s now.
Proof.
  unfold tokenValid. rewrite andb_true_iff, negb_true_iff, Z.ltb_lt.
  by rewrite bool_decide_eq_false.
Qed.

Lemma getAccessToken_cases now exchange s tok s' ev :
  getAccessToken now exchange s = (tok, s', ev) →
  (tokenValid s now ∧ tok = inr (accessToken s) ∧ s' = s ∧ ev = [])
  ∨ (¬ tokenValid s now ∧ ev = [TokenExchange]
     ∧ cachedGrid s' = cachedGrid s
     ∧ searchRateLimit s' = searchRateLimit s
     ∧ match exchange with
       | inl err => tok = inl err ∧ s' = s
       | inr res =>
           tok = inr (access_token res)
           ∧ accessToken s' = access_token res
           ∧ tokenExpiry s'
             = received_at res + (expires_in res - 60) * 1000
       end).
Proof.
  unfold getAccessToken.
  destruct (negb _ && _) eqn:Htest.
  - intros [= <- <- <-]. left. by apply tokenValid_test in Htest.
  - assert (¬ tokenValid s now) as Hnot.
    { rewrite <- tokenValid_test. by rewrite Htest. }
    destruct exchange as [err|res]; intros [= <- <- <-]; right; done.
Qed.

(** X7 (short-lived tokens).  A token that lives 60 seconds or less is never
    reused: once it is stored, every later call finds it expired and asks for
    another. *)
Theorem getAccessToken_short_lived s now res tok s1 log1 now2 exchange2 :
  ¬ tokenValid s now →
  expires_in res ≤ 60 →
  received_at res ≤ now2 →
  getAccessToken now (inr res) s = (tok, s1, log1) →
  ¬ tokenValid s1 now2
  ∧ snd (getAccessToken now2 exchange2 s1) = [TokenExchange].
Proof.
  intros Hmiss Hshort Hlater Hfirst.
  apply getAccessToken_cases in Hfirst
    as [[? _]|(_ & _ & _ & _ & _ & _ & Hexp)]; [done|].
  assert (¬ tokenValid s1 now2) as Hnot by (intros [_ ?]; lia).
  split; [done|].
  destruct (getAccessToken now2 exchange2 s1) as [[tok2 s2] ev2] eqn:Hsecond.
  by apply getAccessToken_cases in Hsecond as [[? _]|(_ & -> & _)].
Qed.

(** ** The grid handler: errors, log and cache *)

Section GamesMore.

Variable sin_impl : number -> number.
Variable parse_impl : jsstring -> number.
Variable db : bool.


(** The three ways out of the path that asks the catalog. *)
Lemma gamesFresh_cases fuel env s log out :
  gamesFresh sin_impl parse_impl db fuel env s log = Some out →
  (∃ err, env_exchange env = inl err ∧ ¬ tokenValid s (env_now env)
          ∧ out = (catchResponse err, s, log ++ [TokenExchange]))
  ∨ (∃ s1 ev,
       (ev = [] ∨ ev = [TokenExchange])
       ∧ cachedGrid s1 = cachedGrid s
       ∧ searchRateLimit s1 = searchRateLimit s
       ∧ ((∃ err, env_catalog env = inl err
                  ∧ out = (catchResponse err, s1,
                           log ++ ev ++ [CatalogFetch (env_monthTimestamp env)]))
          ∨ ∃ allGames selected,
              env_catalog env = inr allGames
              ∧ selectGamesForDate sin_impl parse_impl fuel
                  (uniqueByName allGames [] ∅) (env_today env) 9
                = Some selected
              ∧ out = (GamesOk selected (env_today env),
                       withGrid s1 {| date := env_today env;
                                      games := selected |},
                       (log ++ ev ++ [CatalogFetch (env_monthTimestamp env)])
                       ++ (if db then [DbInsert (env_today env) selected]
                           else [])))).
Proof.
  unfold gamesFresh. intros Hrun.
  destruct (getAccessToken _ _ _) as [[tok s1] ev] eqn:Htok.
  pose proof (getAccessToken_log _ _ _ _ _ _ Htok) as (Hev & Hgrid & Hlim).
  destruct tok as [err|token].
  { apply getAccessToken_cases in Htok as [(_ & [=] & _)|(Hnot & -> & _ & _ & Hex)].
    destruct (env_exchange env) as [err'|res]; [|by destruct Hex].
    destruct Hex as [[= <-] ->]. injection Hrun as <-. left. by exists err. }
  right. exists s1, ev. split; [done|]. split; [done|]. split; [done|].
  destruct (env_catalog env) as [err|allGames];
    [injection Hrun as <-; left; by exists err|].
  destruct (selectGamesForDate _ _ _ _ _ _) as [selected|] eqn:Hsel; [|done].
  injection Hrun as <-. right. exists allGames, selected.
  split; [done|]. split; [done|]. destruct db; [done|]. by rewrite app_nil_r.
Qed.

Lemma gamesHandler_cases fuel env s out :
  gamesHandler sin_impl parse_impl db fuel env s = Some out →
  (date (cachedGrid s) = env_today env ∧ games (cachedGrid s) ≠ []
   ∧ out = (GamesOk (games (cachedGrid s)) (date (cachedGrid s)), s, []))
  ∨ (∃ row rest,
       db = true ∧ env_select env = inr (row :: rest)
       ∧ out = (GamesOk row (env_today env),
                withGrid s {| date := env_today env; games := row |},
                [DbSelect (env_today env)]))
  ∨ (gamesFresh sin_impl parse_impl db fuel env s (if db then [DbSelect (env_today env)] else [])
     = Some out
     ∧ ∀ row rest, db = true → env_select env ≠ inr (row :: rest)).
Proof.
  intros Hrun.
  destruct (decide (date (cachedGrid s) = env_today env
                    ∧ games (cachedGrid s) ≠ [])) as [[Hd Hg]|Hmiss].
  - rewrite gamesHandler_hit in Hrun by done. injection Hrun as <-. by left.
  - right. by apply gamesHandler_miss in Hrun.
Qed.

Lemma gamesHandler_slot fuel env s resp s' log :
  gamesHandler sin_impl parse_impl db fuel env s = Some (resp, s', log) →
  searchRateLimit s' = searchRateLimit s
  ∧ match resp with
    | GamesOk grid gridId =>
        gridId = env_today env
        ∧ cachedGrid s' = {| date := env_today env; games := grid |}
    | _ => cachedGrid s' = cachedGrid s
    end.
Proof.
  intros [(Hd & Hg & Hout)|[(row & rest & _ & _ & Hout)|[Hf _]]]%gamesHandler_cases.
  - injection Hout as -> -> ->. split; [done|]. split; [done|].
    rewrite <- Hd. by destruct (cachedGrid s).
  - by injection Hout as -> -> ->.
  - apply gamesFresh_cases in Hf
      as [(err & _ & _ & Hout)|(s1 & ev & _ & Hgrid & Hlim & Hout)].
    + injection Hout as -> -> ->. by destruct err.
    + destruct Hout as [(err & _ & Hout)|(allGames & selected & _ & _ & Hout)];
        injection Hout as -> -> ->; [by destruct err|done].
Qed.

(** X8 (the memory slot).  The memory slot after a request. After a grid is
    answered the slot holds that grid under today's date, which is also the
    [gridId] of the answer; after an error the slot is as it was. The
    limiter's map is never touched. *)
Theorem gamesHandler_cache_coherent fuel env s resp s' log :
  gamesHandler sin_impl parse_impl db fuel env s = Some (resp, s', log) →
  searchRateLimit s' = searchRateLimit s
  ∧ match resp with
    | GamesOk grid gridId =>
        gridId = env_today env
        ∧ cachedGrid s' = {| date := env_today env; games := grid |}
    | _ => cachedGrid s' = cachedGrid s
    end.
Proof. apply gamesHandler_slot. Qed.

Lemma gamesHandler_silent fuel env s resp s' log :
  gamesHandler sin_impl parse_impl db fuel env s = Some (resp, s', log) →
  log = []
  ↔ date (cachedGrid s) = env_today env ∧ games (cachedGrid s) ≠ [].
Proof.
  intros Hrun.
  destruct (decide (date (cachedGrid s) = env_today env
                    ∧ games (cachedGrid s) ≠ [])) as [[Hd Hg]|Hmiss].
  { rewrite gamesHandler_hit in Hrun by done. by injection Hrun as _ _ <-. }
  split; [|done]. intros ->. exfalso.
  apply gamesHandler_miss in Hrun
    as [(row & rest & _ & _ & [=])|[Hf _]]; [|done].
  apply gamesFresh_cases in Hf
    as [(err & _ & _ & Hout)|(s1 & ev & _ & _ & _ & Hout)].
  - injection Hout as _ _ Hlog. by destruct db.
  - destruct Hout as [(err & _ & Hout)|(allGames & selected & _ & _ & Hout)];
      injection Hout as _ _ Hlog; by destruct db, ev.
Qed.

(** X9 (answers from memory).  A request is answered from the memory slot,
    without any I/O, exactly when the slot holds a grid for today that is not
    empty. Hence an empty grid, once answered, is never served from memory:
    the next request of the day goes to the database or the catalog again. *)
Theorem gamesHandler_memory fuel env s resp s' log :
  gamesHandler sin_impl parse_impl db fuel env s = Some (resp, s', log) →
  (log = []
   ↔ date (cachedGrid s) = env_today env ∧ games (cachedGrid s) ≠ [])
  ∧ ∀ fuel2 env2 resp2 s2 log2,
      resp = GamesOk [] (env_today env2) →
      gamesHandler sin_impl parse_impl db fuel2 env2 s' = Some (resp2, s2, log2) →
      log2 ≠ [].
Proof.
  intros Hrun. split; [by eapply gamesHandler_silent|].
  intros fuel2 env2 resp2 s2 log2 -> Hrun2 Hlog.
  apply (gamesHandler_silent _ _ _ _ _ _ Hrun2) in Hlog as [_ Hne].
  apply gamesHandler_slot in Hrun as [_ [_ Hslot]].
  by rewrite Hslot in Hne.
Qed.

(** X10 (errors of a grid request).  A 500 answer always reports an upstream
    failure: the credential exchange (nothing was then asked of the catalog,
    and the state is left untouched) or the catalog request. A failure of the
    database is never reported, and nothing is written to the database on an
    error. *)
Theorem gamesHandler_errors fuel env s error details s' log :
  gamesHandler sin_impl parse_impl db fuel env s
  = Some (Status500 error details, s', log) →
  (∀ day grid, DbInsert day grid ∉ log)
  ∧ ∃ err,
      Status500 error details = catchResponse err
      ∧ ((env_exchange env = inl err ∧ ¬ tokenValid s (env_now env)
          ∧ s' = s ∧ catalogFetches log = 0%nat)
         ∨ (env_catalog env = inl err ∧ catalogFetches log = 1%nat)).
Proof.
  intros [(_ & _ & [=])|[(row & rest & _ & _ & [=])|[Hf _]]]%gamesHandler_cases.
  apply gamesFresh_cases in Hf
    as [(err & Hex & Hnot & Hout)|(s1 & ev & Hev & _ & _ & Hout)].
  - injection Hout as Hresp -> ->. split.
    + intros day grid Hin. destruct db;
        repeat (apply elem_of_cons in Hin as [[=]|Hin]); by apply elem_of_nil in Hin.
    + exists err. split; [done|]. left. split; [done|]. split; [done|].
      split; [done|]. by destruct db.
  - destruct Hout as [(err & Hcat & Hout)|(allGames & selected & _ & _ & [=])].
    injection Hout as Hresp -> ->. split.
    + intros day grid Hin.
      destruct db, Hev as [-> | ->];
        repeat (apply elem_of_cons in Hin as [[=]|Hin]); by apply elem_of_nil in Hin.
    + exists err. split; [done|]. right. split; [done|].
      by destruct db, Hev as [-> | ->].
Qed.

(** X11 (order of the calls).  What a request sends, and in which order: at
    most one database read, then at most one credential exchange, then at most
    one catalog request, then at most one database write. *)
Theorem gamesHandler_log_order fuel env s resp s' log :
  gamesHandler sin_impl parse_impl db fuel env s = Some (resp, s', log) →
  ∃ grid,
    log `sublist_of`
      [DbSelect (env_today env); TokenExchange;
       CatalogFetch (env_monthTimestamp env); DbInsert (env_today env) grid].
Proof.
  intros [(_ & _ & Hout)|[(row & rest & _ & _ & Hout)|[Hf _]]]%gamesHandler_cases.
  - injection Hout as _ _ ->. exists []. apply sublist_nil_l.
  - injection Hout as _ _ ->. exists []. by apply sublist_skip, sublist_nil_l.
  - apply gamesFresh_cases in Hf
      as [(err & _ & _ & Hout)|(s1 & ev & Hev & _ & _ & Hout)].
    + injection Hout as _ _ ->. exists [].
      destruct db; simpl; repeat (first [apply sublist_skip|apply sublist_cons]);
        apply sublist_nil_l.
    + destruct Hout as [(err & _ & Hout)|(allGames & selected & _ & _ & Hout)];
        injection Hout as _ _ ->.
      * exists [].
        destruct db, Hev as [-> | ->]; simpl;
          repeat (first [apply sublist_skip|apply sublist_cons]);
          apply sublist_nil_l.
      * exists selected.
        destruct db, Hev as [-> | ->]; simpl;
          repeat (first [apply sublist_skip|apply sublist_cons]);
          apply sublist_nil_l.
Qed.

(** X12 (what is persisted).  What is written to the database. A write is sent
    exactly when a database is configured and the grid answered was just
    selected from the catalog; what is written is the grid answered, under the
    [gridId] answered. *)
Theorem gamesHandler_persists fuel env s resp s' log day grid :
  gamesHandler sin_impl parse_impl db fuel env s = Some (resp, s', log) →
  DbInsert day grid ∈ log
  ↔ db = true ∧ resp = GamesOk grid day ∧ catalogFetches log = 1%nat.
Proof.
  intros [(_ & _ & Hout)|[(row & rest & _ & _ & Hout)|[Hf _]]]%gamesHandler_cases.
  - injection Hout as -> _ ->. split; [by intros ?%elem_of_nil|by intros (_ & _ & [=])].
  - injection Hout as -> _ ->. split; [|by intros (_ & _ & [=])].
    by intros [[=]|?%elem_of_nil]%elem_of_cons.
  - apply gamesFresh_cases in Hf
      as [(err & _ & _ & Hout)|(s1 & ev & Hev & _ & _ & Hout)].
    + injection Hout as -> _ ->. split.
      * intros Hin. destruct db;
          repeat (apply elem_of_cons in Hin as [[=]|Hin]); by apply elem_of_nil in Hin.
      * intros (_ & Hresp & _). by destruct err.
    + destruct Hout as [(err & _ & Hout)|(allGames & selected & _ & _ & Hout)];
        injection Hout as -> _ ->.
      * split.
        -- intros Hin. destruct db, Hev as [-> | ->];
             repeat (apply elem_of_cons in Hin as [[=]|Hin]); by apply elem_of_nil in Hin.
        -- intros (_ & Hresp & _). by destruct err.
      * split.
        -- intros Hin. destruct db, Hev as [-> | ->]; simpl in Hin;
             repeat (apply elem_of_cons in Hin as [Heq|Hin]; try discriminate Heq);
             try (by apply elem_of_nil in Hin);
             injection Heq as -> ->; done.
        -- intros (-> & [= -> ->] & _).
           destruct Hev as [-> | ->]; simpl; set_solver.
Qed.

(** X13 (database read errors).  A database read that fails is answered like a
    database without a row for today: the error is swallowed and the catalog
    is asked. *)
Theorem gamesHandler_db_read_error fuel env s err :
  gamesHandler sin_impl parse_impl db fuel (setSelect env (inl err)) s
  = gamesHandler sin_impl parse_impl db fuel (setSelect env (inr [])) s.
Proof. unfold gamesHandler. simpl. by destruct (_ && _), db. Qed.

(** The names in a selection from a pool of distinct names are distinct. *)
Lemma selection_names_distinct fuel pool today cnt grid :
  NoDup (map name pool) →
  selectGamesForDate sin_impl parse_impl fuel pool today cnt = Some grid →
  ∀ i j gi gj, grid !! i = Some (Some gi) → grid !! j = Some (Some gj) →
               name gi = name gj → i = j.
Proof.
  intros Hnd Hrun.
  apply sel_loop_result in Hrun as (used & -> & Hdis & _);
    [|apply sel_init_inv|apply sel_init_bounded].
  intros i j gi gj Hi Hj Hname.
  rewrite lookup_map in Hi, Hj.
  destruct (used !! i) as [x|] eqn:Hx; [|done].
  destruct (used !! j) as [y|] eqn:Hy; [|done].
  simpl in Hi, Hj. injection Hi as Hi. injection Hj as Hj.
  apply array_get_Some in Hi as (zx & Hzx & Hrx & Hgx).
  apply array_get_Some in Hj as (zy & Hzy & Hry & Hgy).
  assert (Z.to_nat zx = Z.to_nat zy) as Heq.
  { apply (NoDup_lookup (map name pool) _ _ (name gi)); [done|..];
      rewrite lookup_map; [by rewrite Hgx|by rewrite Hgy, Hname]. }
  assert (zx = zy) as -> by lia.
  apply (Hdis i j x y); [done..|]. by apply (to_integer_same_value _ _ zy).
Qed.

(** X14 (names of a fresh grid).  A grid just selected from the catalog never
    shows the same name twice, whatever the catalog answered, duplicates
    included. *)
Theorem gamesHandler_fresh_names fuel env s grid gridId s' log :
  gamesHandler sin_impl parse_impl db fuel env s
  = Some (GamesOk grid gridId, s', log) →
  catalogFetches log = 1%nat →
  ∀ i j gi gj, grid !! i = Some (Some gi) → grid !! j = Some (Some gj) →
               name gi = name gj → i = j.
Proof.
  intros Hrun Hone.
  apply gamesHandler_fresh_selection in Hrun as (allGames & _ & Hsel); [|done].
  apply (selection_names_distinct _ _ _ _ _ (uniqueByName_names allGames) Hsel).
Qed.

End GamesMore.

(** ** More on the selector *)

Section SelectorMore.

Variable sin_impl : number -> number.
Variable parse_impl : jsstring -> number.


Lemma select_length fuel pool date cnt (r : list (option Game)) :
  selectGamesForDate sin_impl parse_impl fuel pool date cnt = Some r →
  length r = (cnt `min` length pool)%nat.
Proof.
  intros Hrun.
  apply sel_loop_result in Hrun as (used & -> & _ & Hlen);
    [|apply sel_init_inv|apply sel_init_bounded].
  by rewrite length_map.
Qed.

(** X15 (size of a selection).  The size of a selection: [count] entries, or
    as many as the pool has when it has fewer, for every date. *)
Theorem selectGamesForDate_length fuel pool date cnt r :
  selectGamesForDate sin_impl parse_impl fuel pool date cnt = Some r →
  length r = (cnt `min` length pool)%nat.
Proof. apply select_length. Qed.

Lemma sel_body_prefix pool dateNum st :
  selectedGames st `prefix_of` selectedGames (sel_body sin_impl pool dateNum st).
Proof.
  unfold sel_body. destruct (negb _); simpl; [|done].
  by apply prefix_app_r.
Qed.

Lemma sel_iter_prefix pool dateNum k k' :
  (k ≤ k')%nat →
  selectedGames (sel_iter sin_impl pool dateNum k)
  `prefix_of` selectedGames (sel_iter sin_impl pool dateNum k').
Proof.
  induction 1 as [|k' _ IH]; [done|].
  etrans; [apply IH|]. apply sel_body_prefix.
Qed.

(** X16 (smaller selections).  Asking for fewer games gives the beginning of
    the larger selection: the selection of [cnt1] games is the first [cnt1]
    entries of the selection of [cnt2 >= cnt1] games from the same pool for
    the same date. *)
Theorem selectGamesForDate_take fuel1 fuel2 pool date cnt1 cnt2 r1 r2 :
  (cnt1 ≤ cnt2)%nat →
  selectGamesForDate sin_impl parse_impl fuel1 pool date cnt1 = Some r1 →
  selectGamesForDate sin_impl parse_impl fuel2 pool date cnt2 = Some r2 →
  r1 = take cnt1 r2.
Proof.
  intros Hle Hrun1 Hrun2.
  pose proof (select_length _ _ _ _ _ Hrun1) as Hlen1.
  pose proof (select_length _ _ _ _ _ Hrun2) as Hlen2.
  apply (sel_loop_iter_result _ _ _ _ _ 0%nat) in Hrun1 as [k1 ->].
  apply (sel_loop_iter_result _ _ _ _ _ 0%nat) in Hrun2 as [k2 ->].
  set (dateNum := Date_getTime parse_impl date) in *.
  assert (selectedGames (sel_iter sin_impl pool dateNum k1)
          `prefix_of` selectedGames (sel_iter sin_impl pool dateNum k2))
    as [rest Hrest].
  { destruct (decide (k1 ≤ k2)%nat) as [Hk|Hk]; [by apply sel_iter_prefix|].
    assert (selectedGames (sel_iter sin_impl pool dateNum k2)
            `prefix_of` selectedGames (sel_iter sin_impl pool dateNum k1))
      as [rest Hrest] by (apply sel_iter_prefix; lia).
    assert (rest = []) as ->.
    { apply nil_length_inv. apply (f_equal length) in Hrest.
      rewrite length_app in Hrest. lia. }
    rewrite app_nil_r in Hrest. by rewrite Hrest. }
  rewrite Hrest.
  destruct (decide (cnt1 ≤ length pool)%nat) as [Hc|Hc].
  - rewrite take_app_le by lia. rewrite take_ge; [done|lia].
  - assert (rest = []) as ->.
    { apply nil_length_inv. apply (f_equal length) in Hrest.
      rewrite length_app in Hrest. lia. }
    rewrite app_nil_r. rewrite take_ge; [done|lia].
Qed.

Lemma select_small pool date cnt :
  (cnt `min` length pool ≤ 1)%nat →
  ∃ r, selectGamesForDate sin_impl parse_impl 2 pool date cnt = Some r.
Proof.
  intros Hsmall.
  destruct (sel_loop_terminates sin_impl pool (Date_getTime parse_impl date)
              cnt 1) as (r & Hr & _); [|by exists r].
  rewrite visited_S. unfold Set_size, Set_add. simpl. lia.
Qed.

(** X17 (small pools).  An empty pool, a pool of one game, and a [count] of 0
    or 1: the loop stops after one iteration at most, for every date, a date
    that does not parse included. *)
Theorem selectGamesForDate_small pool date cnt :
  (cnt `min` length pool ≤ 1)%nat →
  ∃ r, selectGamesForDate sin_impl parse_impl 2 pool date cnt = Some r
       ∧ length r = (cnt `min` length pool)%nat.
Proof.
  intros [r Hr]%(select_small pool date). exists r. split; [done|].
  apply sel_loop_result in Hr as (used & -> & _ & Hlen);
    [|apply sel_init_inv|apply sel_init_bounded].
  by rewrite length_map.
Qed.

(** X18 (dates without a timestamp).  A date whose timestamp is NaN. The loop
    never stops exactly when two entries or more are to be selected: [count >=
    2] and a pool of two games or more. *)
Theorem selectGamesForDate_invalid_date pool date cnt :
  Date_getTime parse_impl date = NaN →
  (∀ fuel, selectGamesForDate sin_impl parse_impl fuel pool date cnt = None)
  ↔ (2 ≤ cnt `min` length pool)%nat.
Proof.
  intros Hnan. split.
  - intros Hnone.
    destruct (decide (2 ≤ cnt `min` length pool)%nat) as [|Hsmall]; [done|].
    destruct (select_small pool date cnt) as [r Hr]; [lia|].
    by rewrite Hnone in Hr.
  - intros Hbig fuel. unfold selectGamesForDate. rewrite Hnan.
    apply sel_loop_NaN; lia.
Qed.

(** The position in the pool that an index denotes. *)
Lemma selection_positions (pool : list Game) (used : list number) :
  distinct_numbers used →
  (∀ x, x ∈ used → array_get pool x ≠ None) →
  ∃ idx : list nat,
    map (array_get pool) used = map (λ i, pool !! i) idx
    ∧ NoDup idx ∧ ∀ i, i ∈ idx → (i < length pool)%nat.
Proof.
  intros Hdis Hsome.
  set (pos := λ x : number, Z.to_nat (default 0 (to_integer x))).
  assert (∀ x, x ∈ used →
            ∃ z, to_integer x = Some z ∧ 0 ≤ z < Z.of_nat (length pool)
                 ∧ array_get pool x = pool !! pos x) as Hpos.
  { intros x Hx. destruct (array_get pool x) as [g|] eqn:Hg;
      [|by destruct (Hsome x Hx)].
    apply array_get_Some in Hg as (z & Hz & Hrange & Hget).
    exists z. unfold pos. rewrite Hz. simpl. by rewrite Hget. }
  exists (map pos used). split; [|split].
  - rewrite map_map. apply map_ext_in. intros x Hx%list_elem_of_In.
    by destruct (Hpos x Hx) as (z & _ & _ & ->).
  - apply NoDup_alt. intros i j p Hi Hj.
    rewrite list_lookup_fmap in Hi, Hj.
    destruct (used !! i) as [a|] eqn:Ha; [|done].
    destruct (used !! j) as [b|] eqn:Hb; [|done].
    simpl in Hi, Hj. injection Hi as Hi. injection Hj as Hj.
    destruct (Hpos a) as (za & Hza & Hra & _); [by eapply list_elem_of_lookup_2|].
    destruct (Hpos b) as (zb & Hzb & Hrb & _); [by eapply list_elem_of_lookup_2|].
    apply (Hdis i j a b Ha Hb).
    apply (to_integer_same_value _ _ za); [done|].
    rewrite Hzb. f_equal. subst p. unfold pos in Hj. rewrite Hza, Hzb in Hj.
    simpl in Hj. lia.
  - intros i (x & <- & Hx%list_elem_of_In)%list_elem_of_In%in_map_iff.
    destruct (Hpos x Hx) as (z & Hz & Hrange & _). unfold pos. rewrite Hz.
    simpl. lia.
Qed.

(** X19 (the whole pool).  A pool that is not larger than [count]: when no
    entry of the selection is [undefined], the selection is the whole pool,
    each game once, in the order of the date. *)
Theorem selectGamesForDate_whole_pool fuel pool date cnt r :
  (length pool ≤ cnt)%nat →
  selectGamesForDate sin_impl parse_impl fuel pool date cnt = Some r →
  None ∉ r →
  r ≡ₚ map Some pool.
Proof.
  intros Hshort Hrun Hsome.
  apply sel_loop_result in Hrun as (used & -> & Hdis & Hlen);
    [|apply sel_init_inv|apply sel_init_bounded].
  destruct (selection_positions pool used Hdis) as (idx & Hmap & Hnd & Hlt).
  { intros x Hx Hnone. apply Hsome. rewrite <- Hnone.
    apply list_elem_of_In, in_map, list_elem_of_In, Hx. }
  rewrite Hmap.
  assert (idx ≡ₚ seq 0 (length pool)) as ->.
  { apply submseteq_length_Permutation.
    - apply NoDup_submseteq; [done|].
      intros i Hi%Hlt. apply elem_of_seq. lia.
    - apply (f_equal length) in Hmap. rewrite !length_map in Hmap.
      rewrite length_seq. lia. }
  assert (map (λ i, pool !! i) (seq 0 (length pool)) = map Some pool) as ->;
    [|done].
  apply list_eq. intros i. rewrite !list_lookup_fmap.
  destruct (decide (i < length pool)%nat) as [Hi|Hi].
  - rewrite lookup_seq_lt by done. simpl.
    destruct (lookup_lt_is_Some_2 pool i Hi) as [g Hg]. by rewrite Hg.
  - rewrite lookup_seq_ge by lia. by rewrite lookup_ge_None_2 by lia.
Qed.

End SelectorMore.

(** ** Sanitization *)

Lemma trimStart_id l :
  (∀ c, head l = Some c → isWhiteSpace c = false) → trimStart l = l.
Proof.
  destruct l as [|a l]; [done|]. intros H. simpl. by rewrite (H a).
Qed.

Lemma trimStart_fixed l : trimStart l = l → ∀ c, head l = Some c → isWhiteSpace c = false.
Proof. intros <-. apply trimStart_head. Qed.

Lemma head_rev {A} (l : list A) : head (rev l) = last l.
Proof. by rewrite <- (rev_involutive l) at 2; rewrite last_rev. Qed.

Lemma trim_id l :
  trim l = l
  ↔ (∀ c, head l = Some c → isWhiteSpace c = false)
    ∧ (∀ c, last l = Some c → isWhiteSpace c = false).
Proof.
  split.
  - intros <-. split; intros c; [apply trim_head|apply trim_last].
  - intros [Hh Hl]. unfold trim. rewrite (trimStart_id l Hh).
    rewrite trimStart_id; [apply rev_involutive|].
    intros c. rewrite head_rev. apply Hl.
Qed.

Lemma filter_id {A} (f : A → bool) (l : list A) :
  List.filter f l = l ↔ ∀ x, x ∈ l → f x = true.
Proof.
  split.
  - intros <- x Hx%list_elem_of_In%filter_In. tauto.
  - induction l as [|a l IH]; [done|]. intros H. simpl.
    rewrite (H a) by (by left). f_equal. apply IH. intros x Hx. apply H. by right.
Qed.

(** X20 (clean queries).  The queries that sanitization leaves as they are:
    those without quote, backslash or semicolon and without white space at
    either end. Sanitizing twice is sanitizing once. *)
Theorem sanitize_fixed_points query :
  (sanitize query = query
   ↔ (∀ c, c ∈ query → isStripped c = false)
     ∧ (∀ c, head query = Some c → isWhiteSpace c = false)
     ∧ (∀ c, last query = Some c → isWhiteSpace c = false))
  ∧ sanitize (sanitize query) = sanitize query.
Proof.
  assert (∀ q,
    (∀ c, c ∈ q → isStripped c = false)
    ∧ (∀ c, head q = Some c → isWhiteSpace c = false)
    ∧ (∀ c, last q = Some c → isWhiteSpace c = false) →
    sanitize q = q) as Hfix.
  { intros q (Hs & Hh & Hl). unfold sanitize.
    assert (List.filter (λ c, negb (isStripped c)) q = q) as ->.
    { apply filter_id. intros c Hc. by rewrite (Hs c Hc). }
    by apply trim_id. }
  split; [split; [|apply Hfix]|].
  - intros <-. split; [apply sanitize_clean|].
    split; intros c; [apply trim_head|apply trim_last].
  - apply Hfix. split; [apply sanitize_clean|].
    split; intros c; [apply trim_head|apply trim_last].
Qed.

(** ** What a search sends and answers *)

Ltac caught err :=
  let msg := fresh "msg" in
  let dt := fresh "dt" in
  destruct err as [msg dt|msg|]; simpl;
  [exists (AxiosError msg dt)|exists (JsError msg)|exists NotAnError];
  (split; [reflexivity|]).

(** X21 (outcomes of a search).  Found games are
    the catalog's answer to the sanitized query, sent last; a 500 reports
    the [TypeError] of a query that is not a string (an array or an object:
    nothing was sent, nothing was charged, the state is as it was), or the
    failed credential exchange (no search was sent, and the request was
    still charged to the limiter), or the failed search; 400 and 429 send
    nothing.  At most one exchange and one search are sent, in this
    order. *)
Theorem searchHandler_outcomes req env s resp s' log :
  searchHandler req env s = (resp, s', log) →
  (∃ body, log `sublist_of` [TokenExchange; CatalogSearch body])
  ∧ match resp with
    | SearchOk data =>
        senv_search env = inr data
        ∧ ∃ query, req_query req = Some (QueryString query)
            ∧ last log = Some (CatalogSearch (searchBody (sanitize query)))
    | Status500 error details =>
        ∃ err, Status500 error details = catchResponse err
          ∧ ((req_query req = Some QueryNotString ∧ err = trimTypeError
              ∧ s' = s ∧ log = [])
             ∨ (senv_exchange env = inl err ∧ log = [TokenExchange]
                ∧ searchRateLimit s'
                  = snd (isRateLimited (senv_limiterNow env) (clientIp req)
                           (searchRateLimit s)))
             ∨ (senv_search env = inl err
                ∧ ∃ body, last log = Some (CatalogSearch body)))
    | Status400 _ => s' = s ∧ log = []
    | Status429 _ => log = []
    | GamesOk _ _ => False
    end.
Proof.
  unfold searchHandler.
  destruct (req_query req) as [[query|]|];
    [|intros [= <- <- <-]; split; [exists []; apply sublist_nil_l|]..].
  2: { exists trimTypeError. split; [done|]. by left. }
  2: done.
  destruct (_ || _);
    [intros [= <- <- <-]; split; [exists []; apply sublist_nil_l|done]|].
  destruct (_ <? _)%nat;
    [intros [= <- <- <-]; split; [exists []; apply sublist_nil_l|done]|].
  destruct (isRateLimited _ _ _) as [limited m] eqn:Hlim.
  destruct limited;
    [intros [= <- <- <-]; split; [exists []; apply sublist_nil_l|done]|].
  destruct (getAccessToken _ _ _) as [[tok s1] ev] eqn:Htok.
  apply getAccessToken_cases in Htok
    as [(_ & -> & -> & ->)|(Hnot & -> & _ & Hm & Hex)].
  - destruct (senv_search env) as [err|data]; intros [= <- <- <-]; simpl.
    + split; [exists (searchBody (sanitize query)); by apply sublist_cons|].
      caught err; right; right; eauto.
    + split; [exists (searchBody (sanitize query)); by apply sublist_cons|].
      eauto.
  - destruct (senv_exchange env) as [err|res].
    + destruct Hex as [-> ->]. intros [= <- <- <-]. simpl.
      split; [exists []; by apply sublist_skip, sublist_nil_l|].
      caught err; right; left; done.
    + destruct Hex as (-> & _ & _).
      destruct (senv_search env) as [err|data]; intros [= <- <- <-]; simpl.
      * split; [by exists (searchBody (sanitize query))|].
        caught err; right; right; eauto.
      * split; [by exists (searchBody (sanitize query))|]. eauto.
Qed.

(** What a search does to the token. *)
Lemma searchHandler_token req env s resp s' log :
  searchHandler req env s = (resp, s', log) →
  tokenValid s (senv_now env) → tokenExchanges log = 0%nat.
Proof.
  unfold searchHandler. intros Hrun Hvalid.
  destruct (req_query req) as [[query|]|];
    [|by injection Hrun as <- <- <-..].
  destruct (_ || _); [by injection Hrun as <- <- <-|].
  destruct (_ <? _)%nat; [by injection Hrun as <- <- <-|].
  destruct (isRateLimited _ _ _) as [limited m] eqn:Hlim.
  destruct limited; [by injection Hrun as <- <- <-|].
  destruct (getAccessToken _ _ _) as [[tok s1] ev] eqn:Htok.
  apply getAccessToken_cases in Htok as [(_ & -> & -> & ->)|(Hnot & _)].
  - destruct (senv_search env); by injection Hrun as <- <- <-.
  - by destruct Hnot.
Qed.

Section TokenShared.

Variable sin_impl : number -> number.
Variable parse_impl : jsstring -> number.
Variable db : bool.

(** The token after a grid request that exchanged credentials. *)
Lemma gamesHandler_token fuel env s resp s' log res :
  gamesHandler sin_impl parse_impl db fuel env s = Some (resp, s', log) →
  TokenExchange ∈ log →
  env_exchange env = inr res →
  accessToken s' = access_token res
  ∧ tokenExpiry s' = received_at res + (expires_in res - 60) * 1000.
Proof.
  intros [(_ & _ & Hout)|[(row & rest & _ & _ & Hout)|[Hf _]]]%gamesHandler_cases
    Hin Hex.
  - injection Hout as _ _ ->. by apply elem_of_nil in Hin.
  - injection Hout as _ _ ->.
    by apply elem_of_cons in Hin as [[=]|?%elem_of_nil].
  - unfold gamesFresh in Hf.
    destruct (getAccessToken _ _ _) as [[tok s1] ev] eqn:Htok.
    apply getAccessToken_cases in Htok
      as [(_ & -> & -> & ->)|(Hnot & -> & _ & _ & Hcase)].
    + exfalso.
      destruct (env_catalog env) as [err|allGames].
      * injection Hf as _ _ <-.
        destruct db; repeat (apply elem_of_cons in Hin as [[=]|Hin]);
          by apply elem_of_nil in Hin.
      * destruct (selectGamesForDate _ _ _ _ _ _); [|done].
        injection Hf as _ _ <-.
        destruct db; simpl in Hin;
          repeat (apply elem_of_cons in Hin as [[=]|Hin]);
          by apply elem_of_nil in Hin.
    + rewrite Hex in Hcase. destruct Hcase as (-> & Hacc & Hexp).
      destruct (env_catalog env) as [err|allGames].
      * by injection Hf as _ <- _.
      * destruct (selectGamesForDate _ _ _ _ _ _); [|done].
        by injection Hf as _ <- _.
Qed.

(** X22 (one token for two routes).  The two routes share the token. After a
    grid request that exchanged credentials, a search made before the token
    expires sends no exchange, also when the grid request itself ended in a
    catalog error. *)
Theorem token_shared fuel env s resp s1 log1 res req senv resp2 s2 log2 :
  gamesHandler sin_impl parse_impl db fuel env s = Some (resp, s1, log1) →
  TokenExchange ∈ log1 →
  env_exchange env = inr res →
  access_token res ≠ [] →
  senv_now senv < received_at res + (expires_in res - 60) * 1000 →
  searchHandler req senv s1 = (resp2, s2, log2) →
  tokenExchanges log2 = 0%nat.
Proof.
  intros Hrun Hin Hex Hne Hnow Hsearch.
  destruct (gamesHandler_token _ _ _ _ _ _ _ Hrun Hin Hex) as [Hacc Hexp].
  apply (searchHandler_token _ _ _ _ _ _ Hsearch).
  split; [by rewrite Hacc|by rewrite Hexp].
Qed.

End TokenShared.

(** ** Exact arithmetic on integers *)

Lemma Zdigits2_mul_pow2 q j :
  0 < q → 0 ≤ j → Zdigits2 (q * 2 ^ j) = Zdigits2 q + j.
Proof.
  intros Hq Hj.
  assert (0 < 2 ^ j) as Hp by (by apply pow2_pos).
  destruct (Zdigits2_bounds q Hq) as [Hlo Hhi].
  destruct (Zdigits2_bounds (q * 2 ^ j)) as [Hlo' Hhi']; [lia|].
  pose proof (Zdigits2_nonneg q) as Hd.
  pose proof (Zdigits2_nonneg (q * 2 ^ j)) as Hd'.
  assert (1 ≤ Zdigits2 q) by (destruct q; simpl in *; lia).
  assert (1 ≤ Zdigits2 (q * 2 ^ j)).
  { destruct (q * 2 ^ j) eqn:E; simpl in *; lia. }
  assert (2 ^ (Zdigits2 q - 1 + j) ≤ q * 2 ^ j < 2 ^ (Zdigits2 q + j)) as [H1 H2].
  { rewrite !Z.pow_add_r by lia. nia. }
  destruct (Z.lt_trichotomy (Zdigits2 (q * 2 ^ j)) (Zdigits2 q + j))
    as [Hlt|[Heq|Hgt]]; [exfalso|done|exfalso].
  - assert (2 ^ Zdigits2 (q * 2 ^ j) ≤ 2 ^ (Zdigits2 q - 1 + j))
      by (apply pow2_le; lia). lia.
  - assert (2 ^ (Zdigits2 q + j) ≤ 2 ^ (Zdigits2 (q * 2 ^ j) - 1))
      by (apply pow2_le; lia). lia.
Qed.

Lemma Zdigits2_le a b : 0 < a ≤ b → Zdigits2 a ≤ Zdigits2 b.
Proof.
  intros [Ha Hab].
  destruct (Zdigits2_bounds a Ha) as [Hlo _].
  destruct (Zdigits2_bounds b) as [_ Hhi]; [lia|].
  pose proof (Zdigits2_nonneg b).
  destruct (Z.le_gt_cases (Zdigits2 a) (Zdigits2 b)) as [|Hgt]; [done|exfalso].
  assert (1 ≤ Zdigits2 a) by (destruct a; simpl in *; lia).
  assert (2 ^ Zdigits2 b ≤ 2 ^ (Zdigits2 a - 1)) by (apply pow2_le; lia).
  lia.
Qed.

Lemma Zdigits2_mul a b :
  0 < a → 0 < b → Zdigits2 (a * b) ≤ Zdigits2 a + Zdigits2 b.
Proof.
  intros Ha Hb.
  destruct (Zdigits2_bounds a Ha) as [_ Hhia].
  destruct (Zdigits2_bounds b Hb) as [_ Hhib].
  destruct (Zdigits2_bounds (a * b)) as [Hlo _]; [lia|].
  pose proof (Zdigits2_nonneg a). pose proof (Zdigits2_nonneg b).
  destruct (Z.le_gt_cases (Zdigits2 (a * b)) (Zdigits2 a + Zdigits2 b))
    as [|Hgt]; [done|exfalso].
  assert (2 ^ (Zdigits2 a + Zdigits2 b) ≤ 2 ^ (Zdigits2 (a * b) - 1))
    by (apply pow2_le; lia).
  rewrite Z.pow_add_r in * by lia. nia.
Qed.

Lemma Zdigits2_53 q : 0 < q < 2 ^ 53 → 1 ≤ Zdigits2 q ≤ 53.
Proof.
  intros [Hq Hlt]. destruct (Zdigits2_bounds q Hq) as [Hlo _].
  split; [destruct q; simpl in *; lia|].
  destruct (Z.le_gt_cases (Zdigits2 q) 53) as [|Hgt]; [done|exfalso].
  assert (2 ^ 53 ≤ 2 ^ (Zdigits2 q - 1)) by (apply pow2_le; lia). lia.
Qed.

Lemma cexp_range q : 0 < q < 2 ^ 53 → cexp q = Zdigits2 q - 53 ∧ -52 ≤ cexp q ≤ 0.
Proof.
  intros Hq%Zdigits2_53. unfold cexp, fexp, emin, prec, emax. lia.
Qed.

(** One pass of [shr_fexp] on a mantissa that is a multiple of the power
    of two it drops. *)
Lemma shr_fexp_exact q E :
  0 < q < 2 ^ 53 → E ≤ cexp q →
  ∃ mrs,
    shr_fexp prec emax (q * 2 ^ (- E)) E loc_Exact = (mrs, cexp q)
    ∧ shr_m mrs = q * 2 ^ (- cexp q)
    ∧ loc_of_shr_record mrs = loc_Exact.
Proof.
  intros Hq HE. destruct (cexp_range q Hq) as [Hfe Hfe0].
  assert (0 < 2 ^ (- E)) as Hp by (apply pow2_pos; lia).
  unfold shr_fexp. simpl shr_record_of_loc.
  rewrite Zdigits2_mul_pow2 by lia.
  replace (Zdigits2 q + - E + E) with (Zdigits2 q) by lia.
  fold (cexp q).
  destruct (shr_spec (q * 2 ^ (- E)) E (cexp q - E)) as (mrs & -> & Hm & Hloc);
    [lia|].
  rewrite Z.max_r in * by lia.
  assert (q * 2 ^ (- E) = q * 2 ^ (- cexp q) * 2 ^ (cexp q - E)) as Hsplit.
  { rewrite <- Z.mul_assoc, <- Z.pow_add_r by lia. do 2 f_equal. lia. }
  assert (0 < 2 ^ (cexp q - E)) as Hp' by (apply pow2_pos; lia).
  exists mrs. split; [f_equal; lia|]. split.
  - rewrite Hm, Hsplit. by rewrite Z.div_mul by lia.
  - destruct (loc_of_shr_record mrs) eqn:Hl; [done|].
    exfalso. apply Hloc; [done|]. rewrite Hsplit. by apply Z.mod_mul; lia.
Qed.

(** Rounding a mantissa that denotes an integer of at most 53 bits gives
    the number of that integer. *)
Lemma binary_round_aux_integer s q E :
  0 < q < 2 ^ 53 → E ≤ cexp q →
  binary_round_aux prec emax s (q * 2 ^ (- E)) E loc_Exact
  = S754_finite s (Z.to_pos (q * 2 ^ (- cexp q))) (cexp q).
Proof.
  intros Hq HE. destruct (cexp_range q Hq) as [Hfe Hfe0].
  unfold binary_round_aux.
  destruct (shr_fexp_exact q E Hq HE) as (mrs & -> & Hm & Hloc).
  rewrite Hloc, Hm. simpl round_nearest_even.
  destruct (shr_fexp_exact q (cexp q) Hq) as (mrs' & -> & Hm' & _); [lia|].
  rewrite Hm'.
  assert (0 < q * 2 ^ (- cexp q)) as Hpos.
  { pose proof (pow2_pos (- cexp q)). nia. }
  destruct (q * 2 ^ (- cexp q)) as [|p|p] eqn:Hp; [lia| |lia].
  destruct (Z.leb_spec (cexp q) (emax - prec)) as [|Hbig]; [done|].
  unfold emax, prec in Hbig. lia.
Qed.

Lemma binary_round_integer s M E q :
  0 < q < 2 ^ 53 → E ≤ 0 → Z.pos M = q * 2 ^ (- E) →
  binary_round prec emax s M E
  = S754_finite s (Z.to_pos (q * 2 ^ (- cexp q))) (cexp q).
Proof.
  intros Hq HE HM. destruct (cexp_range q Hq) as [Hfe Hfe0].
  unfold binary_round.
  assert (Z.pos (digits2_pos M) + E = Zdigits2 q) as ->.
  { change (Z.pos (digits2_pos M)) with (Zdigits2 (Z.pos M)).
    rewrite HM, Zdigits2_mul_pow2 by lia. lia. }
  fold (cexp q).
  destruct (shl_align_spec M E (cexp q)) as (j & Hj & Hsnd & Hfst & Hje & _).
  destruct (shl_align M E (cexp q)) as [mz ez]. simpl in *. subst ez.
  assert (E - j ≤ cexp q) as Hle.
  { destruct (Z.le_gt_cases (cexp q) E) as [Hc|Hc]; [rewrite (Hje Hc)|]; lia. }
  rewrite Hfst, HM, <- Z.mul_assoc, <- Z.pow_add_r by lia.
  replace (- E + j) with (- (E - j)) by lia.
  by apply binary_round_aux_integer.
Qed.

(** The number of an integer of at most 53 bits. *)
Lemma of_Z_cond s q :
  0 < q < 2 ^ 53 →
  of_Z (cond_Zopp s q) = S754_finite s (Z.to_pos (q * 2 ^ (- cexp q))) (cexp q).
Proof.
  intros Hq. unfold of_Z, binary_normalize.
  destruct q as [|p|p]; [lia| |lia].
  destruct s; simpl cond_Zopp;
    apply binary_round_integer; (done || lia).
Qed.

Lemma binary_normalize_integer M E q :
  - 2 ^ 53 < q < 2 ^ 53 → E ≤ 0 → M = q * 2 ^ (- E) →
  binary_normalize prec emax M E false = of_Z q.
Proof.
  intros Hq HE ->.
  assert (0 < 2 ^ (- E)) as Hp by (apply pow2_pos; lia).
  destruct q as [|p|p].
  - done.
  - change (of_Z (Z.pos p)) with (of_Z (cond_Zopp false (Z.pos p))).
    rewrite (of_Z_cond false (Z.pos p)) by lia.
    destruct (Z.pos p * 2 ^ (- E)) as [|M|M] eqn:HM; [lia| |lia].
    simpl. by apply binary_round_integer; [lia|lia|].
  - change (of_Z (Z.neg p)) with (of_Z (cond_Zopp true (Z.pos p))).
    rewrite (of_Z_cond true (Z.pos p)) by lia.
    destruct (Z.neg p * 2 ^ (- E)) as [|M|M] eqn:HM; [lia|lia|].
    simpl. apply binary_round_integer; [lia|lia|]. lia.
Qed.

(** The representation of a non-zero integer. *)
Lemma of_Z_finite z :
  - 2 ^ 53 < z < 2 ^ 53 → z ≠ 0 →
  ∃ s m e, of_Z z = S754_finite s m e ∧ e ≤ 0
           ∧ cond_Zopp s (Z.pos m) = z * 2 ^ (- e)
           ∧ e = cexp (Z.abs z).
Proof.
  intros Hz Hz0.
  assert (0 < Z.abs z < 2 ^ 53) as Ha by lia.
  destruct (cexp_range _ Ha) as [_ Hfe].
  assert (0 < Z.abs z * 2 ^ (- cexp (Z.abs z))) as Hpos.
  { pose proof (pow2_pos (- cexp (Z.abs z))). nia. }
  exists (z <? 0), (Z.to_pos (Z.abs z * 2 ^ (- cexp (Z.abs z)))), (cexp (Z.abs z)).
  split; [|split; [lia|split; [|done]]].
  - rewrite <- of_Z_cond by done. f_equal.
    destruct (Z.ltb_spec z 0); simpl; lia.
  - rewrite Z2Pos.id by done.
    destruct (Z.ltb_spec z 0); simpl; lia.
Qed.

Lemma sub_finite_general s1 m1 e1 s2 m2 e2 :
  let ez := Z.min e1 e2 in
  sub (S754_finite s1 m1 e1) (S754_finite s2 m2 e2)
  = binary_normalize prec emax
      (cond_Zopp s1 (Z.pos m1 * 2 ^ (e1 - ez))
       - cond_Zopp s2 (Z.pos m2 * 2 ^ (e2 - ez))) ez false.
Proof.
  intros ez. assert (ez ≤ e1 ∧ ez ≤ e2) as [H1 H2] by (unfold ez; lia).
  unfold sub, SFsub. change (Z.min e1 e2) with ez.
  destruct (shl_align_spec m1 e1 ez) as (j1 & _ & _ & -> & Hj1 & _).
  destruct (shl_align_spec m2 e2 ez) as (j2 & _ & _ & -> & Hj2 & _).
  by rewrite (Hj1 H1), (Hj2 H2).
Qed.

Lemma add_finite_general s1 m1 e1 s2 m2 e2 :
  let ez := Z.min e1 e2 in
  add (S754_finite s1 m1 e1) (S754_finite s2 m2 e2)
  = binary_normalize prec emax
      (cond_Zopp s1 (Z.pos m1 * 2 ^ (e1 - ez))
       + cond_Zopp s2 (Z.pos m2 * 2 ^ (e2 - ez))) ez false.
Proof.
  intros ez. assert (ez ≤ e1 ∧ ez ≤ e2) as [H1 H2] by (unfold ez; lia).
  unfold add, SFadd. change (Z.min e1 e2) with ez.
  destruct (shl_align_spec m1 e1 ez) as (j1 & _ & _ & -> & Hj1 & _).
  destruct (shl_align_spec m2 e2 ez) as (j2 & _ & _ & -> & Hj2 & _).
  by rewrite (Hj1 H1), (Hj2 H2).
Qed.

Lemma cond_Zopp_mul s a b : cond_Zopp s a * b = cond_Zopp s (a * b).
Proof. destruct s; simpl; lia. Qed.

Lemma aligned z s m e ez :
  cond_Zopp s (Z.pos m) = z * 2 ^ (- e) → ez ≤ e → e ≤ 0 →
  cond_Zopp s (Z.pos m * 2 ^ (e - ez)) = z * 2 ^ (- ez).
Proof.
  intros Hm H1 H2. rewrite <- cond_Zopp_mul, Hm, <- Z.mul_assoc.
  rewrite <- Z.pow_add_r by lia. do 2 f_equal. lia.
Qed.

(** Integers of at most 53 bits are subtracted and added exactly. *)
Lemma sub_of_Z a b :
  - 2 ^ 53 < a < 2 ^ 53 → - 2 ^ 53 < b < 2 ^ 53 →
  - 2 ^ 53 < a - b < 2 ^ 53 →
  sub (of_Z a) (of_Z b) = of_Z (a - b).
Proof.
  intros Ha Hb Hab.
  destruct (Z.eq_dec b 0) as [->|Hb0].
  { rewrite Z.sub_0_r. change (of_Z 0) with (S754_zero false).
    destruct (Z.eq_dec a 0) as [->|Ha0]; [done|].
    by destruct (of_Z_finite a Ha Ha0) as (s & m & e & -> & _). }
  destruct (of_Z_finite b Hb Hb0) as (sb & mb & eb & Eb & Heb & Hmb & Hfb).
  destruct (Z.eq_dec a 0) as [->|Ha0].
  { change (of_Z 0) with (S754_zero false). rewrite Eb. simpl.
    assert (0 < Z.abs b < 2 ^ 53) as Habs by lia.
    replace (0 - b) with (cond_Zopp (negb sb) (Z.abs b)).
    - rewrite of_Z_cond by done.
      replace b with (cond_Zopp sb (Z.abs b)) in Eb.
      + rewrite of_Z_cond in Eb by done. by injection Eb as <- <-.
      + pose proof (pow2_pos (- eb)). destruct sb; simpl in *; nia.
    - pose proof (pow2_pos (- eb)). destruct sb; simpl in *; nia. }
  destruct (of_Z_finite a Ha Ha0) as (sa & ma & ea & -> & Hea & Hma & _).
  rewrite Eb, sub_finite_general.
  apply binary_normalize_integer; [done|lia|].
  rewrite (aligned a), (aligned b) by (done || lia). lia.
Qed.

Lemma add_of_Z a b :
  - 2 ^ 53 < a < 2 ^ 53 → - 2 ^ 53 < b < 2 ^ 53 →
  - 2 ^ 53 < a + b < 2 ^ 53 →
  add (of_Z a) (of_Z b) = of_Z (a + b).
Proof.
  intros Ha Hb Hab.
  destruct (Z.eq_dec b 0) as [->|Hb0].
  { rewrite Z.add_0_r. change (of_Z 0) with (S754_zero false).
    destruct (Z.eq_dec a 0) as [->|Ha0]; [done|].
    by destruct (of_Z_finite a Ha Ha0) as (s & m & e & -> & _). }
  destruct (of_Z_finite b Hb Hb0) as (sb & mb & eb & Eb & Heb & Hmb & _).
  destruct (Z.eq_dec a 0) as [->|Ha0].
  { change (of_Z 0) with (S754_zero false). by rewrite Eb. }
  destruct (of_Z_finite a Ha Ha0) as (sa & ma & ea & -> & Hea & Hma & _).
  rewrite Eb, add_finite_general.
  apply binary_normalize_integer; [done|lia|].
  rewrite (aligned a), (aligned b) by (done || lia). lia.
Qed.

(** An integer is its own floor. *)
Lemma floor_of_Z z : - 2 ^ 53 < z < 2 ^ 53 → Math_floor (of_Z z) = of_Z z.
Proof.
  intros Hz. destruct (Z.eq_dec z 0) as [->|Hz0]; [done|].
  destruct (of_Z_finite z Hz Hz0) as (s & m & e & E & He & Hm & _).
  rewrite E. unfold Math_floor.
  destruct (Z.leb_spec 0 e); [done|].
  assert (0 < 2 ^ (- e)) as Hp by (apply pow2_pos; lia).
  assert (Z.pos m = Z.abs z * 2 ^ (- e)) as Habs.
  { destruct s; simpl in Hm; nia. }
  rewrite Z.shiftr_div_pow2, Z.shiftl_mul_pow2 by lia.
  rewrite Habs, Z.div_mul, Z.eqb_refl by lia.
  destruct s; simpl in Hm; rewrite <- E; f_equal; nia.
Qed.

(** Dividing a multiple of [D] by [D]. *)
Lemma div_of_Z k D :
  0 < D < 2 ^ 53 → - 2 ^ 53 < k * D < 2 ^ 53 →
  div (of_Z (k * D)) (of_Z D) = of_Z k.
Proof.
  intros HD' HkD. pose proof (proj1 HD') as HD.
  change (of_Z D) with (of_Z (cond_Zopp false D)).
  rewrite (of_Z_cond false D HD').
  destruct (Z.eq_dec k 0) as [->|Hk0]; [done|].
  set (a := Z.abs k).
  assert (0 < a < 2 ^ 53) as Ha by (unfold a; nia).
  assert (0 < a * D < 2 ^ 53) as HaD by (unfold a; nia).
  assert (D ≤ a * D) as HDle by nia.
  replace (k * D) with (cond_Zopp (k <? 0) (a * D))
    by (unfold a; destruct (Z.ltb_spec k 0); simpl; lia).
  replace k with (cond_Zopp (k <? 0) a) at 2
    by (unfold a; destruct (Z.ltb_spec k 0); simpl; lia).
  generalize (k <? 0). intros s.
  rewrite (of_Z_cond s (a * D) HaD), (of_Z_cond s a Ha).
  destruct (cexp_range _ HD') as [HfD HfD0].
  destruct (cexp_range _ HaD) as [HfaD HfaD0].
  destruct (cexp_range _ Ha) as [Hfa Hfa0].
  pose proof (Zdigits2_mul a D (proj1 Ha) HD) as Hmul.
  pose proof (Zdigits2_le D (a * D) (conj HD HDle)) as Hle.
  set (e1 := cexp (a * D)) in *. set (e2 := cexp D) in *.
  assert (0 < 2 ^ (- e1)) as Hp1 by (apply pow2_pos; lia).
  assert (0 < 2 ^ (- e2)) as Hp2 by (apply pow2_pos; lia).
  unfold div, SFdiv, SFdiv_core_binary.
  rewrite !Z2Pos.id by nia.
  rewrite !Zdigits2_mul_pow2 by lia.
  set (delta := e1 - e2).
  replace (Zdigits2 (a * D) + - e1 + e1 - (Zdigits2 D + - e2 + e2))
    with delta by (unfold delta; lia).
  assert (fexp prec emax delta = delta - 53) as ->.
  { unfold fexp, emin, prec, emax, delta. lia. }
  rewrite Z.min_l by lia.
  replace (delta - (delta - 53)) with 53 by lia.
  simpl Z.shiftl at 1.
  assert (Z.shiftl (a * D * 2 ^ (- e1)) 53
          = a * 2 ^ (53 - delta) * (D * 2 ^ (- e2))) as ->.
  { rewrite Z.shiftl_mul_pow2 by lia.
    replace (a * D * 2 ^ (- e1) * 2 ^ 53) with (a * D * (2 ^ (- e1) * 2 ^ 53))
      by lia.
    rewrite <- Z.pow_add_r by lia.
    replace (a * 2 ^ (53 - delta) * (D * 2 ^ (- e2)))
      with (a * D * (2 ^ (53 - delta) * 2 ^ (- e2))) by lia.
    rewrite <- Z.pow_add_r by (unfold delta; lia).
    do 2 f_equal. unfold delta. lia. }
  assert (0 < D * 2 ^ (- e2)) as Hm2 by nia.
  destruct (Z.div_eucl _ _) as [q r] eqn:Hdiv.
  assert (q = a * 2 ^ (53 - delta) ∧ r = 0) as [-> ->].
  { pose proof (Z.div_mul (a * 2 ^ (53 - delta)) (D * 2 ^ (- e2))) as Hq.
    pose proof (Z.mod_mul (a * 2 ^ (53 - delta)) (D * 2 ^ (- e2))) as Hr.
    unfold Z.div, Z.modulo in Hq, Hr. rewrite Hdiv in Hq, Hr.
    split; [apply Hq|apply Hr]; lia. }
  assert (new_location (D * 2 ^ (- e2)) 0 = loc_Exact) as ->.
  { unfold new_location. by destruct (Z.even _). }
  replace (53 - delta) with (- (delta - 53)) by lia.
  rewrite xorb_false_r.
  apply binary_round_aux_integer; [done|]. unfold delta. lia.
Qed.

(** ** The grid number *)

Lemma dayNumber_range y m d :
  0 ≤ y ≤ 9999 → 1 ≤ m ≤ 12 → 1 ≤ d ≤ 31 →
  - 720000 ≤ dayNumber y m d ≤ 2940000.
Proof.
  intros Hy Hm Hd. unfold dayNumber, DayFromYear.
  assert (0 ≤ month_start (InLeapYear y) m ≤ 335).
  { assert (m = 1 ∨ m = 2 ∨ m = 3 ∨ m = 4 ∨ m = 5 ∨ m = 6 ∨ m = 7 ∨ m = 8
            ∨ m = 9 ∨ m = 10 ∨ m = 11 ∨ m = 12) as Hcases by lia.
    destruct (InLeapYear y);
      repeat (destruct Hcases as [->|Hcases]; [simpl; lia|]);
      subst m; simpl; lia. }
  Z.to_euclidean_division_equations. lia.
Qed.

Lemma getGridNumber_of_day parse_impl dateStr n :
  Date_getTime parse_impl dateStr = of_Z (n * msPerDay) →
  - 3000000 ≤ n ≤ 3000000 →
  getGridNumber parse_impl dateStr = of_Z (n - 20089 + 1).
Proof.
  intros Hdate Hn. unfold getGridNumber. rewrite Hdate.
  assert (Date_getTime parse_impl (str "2025-01-01") = of_Z (20089 * msPerDay))
    as -> by reflexivity.
  assert (mul (mul (mul (of_Z 1000) (of_Z 60)) (of_Z 60)) (of_Z 24)
          = of_Z msPerDay) as -> by (vm_compute; reflexivity).
  assert (2 ^ 53 = 9007199254740992) as Hpow by reflexivity.
  unfold msPerDay in *.
  rewrite sub_of_Z by lia.
  replace (n * 86400000 - 20089 * 86400000) with ((n - 20089) * 86400000)
    by lia.
  rewrite div_of_Z by lia.
  rewrite floor_of_Z by lia.
  rewrite add_of_Z by lia. done.
Qed.

(** X23 (the grid number).  The grid number of a date [YYYY-MM-DD] is exactly
    the number of days from 2025-01-01 to that date, plus one, for every year
    from 0000 to 9999: the subtraction, the division and the floor lose
    nothing. A date before the launch has a number of zero or less. A date
    without a timestamp has the number NaN. *)
Theorem getGridNumber_days parse_impl :
  (∀ y m d,
     0 ≤ y ≤ 9999 → 1 ≤ m ≤ 12 → 1 ≤ d ≤ 31 →
     getGridNumber parse_impl (isoDate y m d)
     = of_Z (dayNumber y m d - dayNumber 2025 1 1 + 1)
     ∧ to_integer (getGridNumber parse_impl (isoDate y m d))
       = Some (dayNumber y m d - dayNumber 2025 1 1 + 1))
  ∧ ∀ dateStr,
      Date_getTime parse_impl dateStr = NaN →
      getGridNumber parse_impl dateStr = NaN.
Proof.
  split.
  - intros y m d Hy Hm Hd.
    pose proof (dayNumber_range y m d Hy Hm Hd) as Hn.
    assert (getGridNumber parse_impl (isoDate y m d)
            = of_Z (dayNumber y m d - dayNumber 2025 1 1 + 1)) as ->.
    { apply getGridNumber_of_day; [by apply Date_getTime_isoDate|lia]. }
    split; [done|].
    change (dayNumber 2025 1 1) with 20089.
    set (k := dayNumber y m d - 20089 + 1).
    assert (2 ^ 53 = 9007199254740992) as Hpow by reflexivity.
    destruct (Z.eq_dec k 0) as [->|Hk0]; [done|].
    destruct (of_Z_finite k) as (s & mk & e & -> & He & Hmk & _);
      [unfold k; lia|done|].
    assert (Z.pos mk = Z.abs k * 2 ^ (- e)) as Habs.
    { pose proof (pow2_pos (- e)). destruct s; simpl in Hmk; nia. }
    rewrite (to_integer_exact s mk e (Z.abs k) He Habs). f_equal.
    pose proof (pow2_pos (- e)). destruct s; simpl in *; nia.
  - intros dateStr Hnan. unfold getGridNumber. by rewrite Hnan.
Qed.

(** ** The key of the limiter *)

Lemma isRateLimited_other (now : Z) (ip ip' : jsstring)
    (m : gmap jsstring RateRecord) :
  ip' ≠ ip → snd (isRateLimited now ip m) !! ip' = m !! ip'.
Proof.
  intros Hne. unfold isRateLimited.
  destruct (m !! ip) as [r|]; simpl;
    [destruct (now >? resetTime r); simpl;
     [|destruct (count r >=? 30); simpl; [done|]]|];
    by rewrite lookup_insert_ne.
Qed.

Lemma beforeComma_no_comma h : 44%N ∉ beforeComma h.
Proof.
  induction h as [|c h IH]; simpl; [by intros ?%elem_of_nil|].
  destruct (N.eqb_spec c 44) as [->|Hc]; [by intros ?%elem_of_nil|].
  by intros [?|?]%elem_of_cons.
Qed.

(** X24 (the key of the limiter).  The key of the limiter is taken from the
    [x-forwarded-for] header when the request has one; the socket address then
    plays no role. The key is the first element of the header, trimmed, and
    has no comma; the request is answered 429 exactly when that key is
    limited, so a request whose header names a key without a record is let
    through whatever the record of its socket address, and no other record is
    touched. *)
Theorem searchHandler_forwarded_key req env s h resp s' log :
  validQuery req →
  req_forwarded req = Some h →
  searchHandler req env s = (resp, s', log) →
  clientIp req = trim (beforeComma h)
  ∧ (44%N ∉ clientIp req)
  ∧ is429 resp
    = fst (isRateLimited (senv_limiterNow env) (trim (beforeComma h))
             (searchRateLimit s))
  ∧ (searchRateLimit s !! trim (beforeComma h) = None → is429 resp = false)
  ∧ ∀ ip' : jsstring,
      ip' ≠ trim (beforeComma h) →
      searchRateLimit s' !! ip' = searchRateLimit s !! ip'.
Proof.
  intros Hvalid Hh Hrun.
  assert (clientIp req = trim (beforeComma h)) as Hkey
    by (unfold clientIp; by rewrite Hh).
  destruct (searchHandler_valid req env s Hvalid)
    as (resp0 & s0 & log0 & Heq & Hm & H429 & _).
  rewrite Hrun in Heq. injection Heq as <- <- <-.
  rewrite Hkey in Hm, H429.
  split; [done|]. split; [|split; [done|split]].
  - rewrite Hkey. intros Hin%trim_elem. by apply (beforeComma_no_comma h).
  - intros Hnone. rewrite H429.
    rewrite (isRateLimited_fresh _ _ _ (or_introl Hnone)). done.
  - intros ip' Hne. rewrite Hm. by apply isRateLimited_other.
Qed.

(** ** Instances *)

Lemma sweepRateLimit_transparent_witness :
  60000 ≤ 70000
  ∧ fst (isRateLimited 70000 (str "ip1") (sweepRateLimit 60000 exampleLimits))
    = fst (isRateLimited 70000 (str "ip1") exampleLimits).
Proof.
  assert (60000 ≤ 70000) as H by lia.
  split; [exact H|].
  exact (proj1 (sweepRateLimit_transparent 60000 70000 (str "ip1")
                  exampleLimits H)).
Defined.

Lemma limiter_records_witness :
  limiterAfter exampleHistory !! str "ip1"
  = Some {| count := 2; resetTime := 61000 |}
  ∧ 1 ≤ 2 ≤ 30
  ∧ 2 ≤ Z.of_nat (callsBy (str "ip1") exampleHistory)
  ∧ ∃ t, LimiterCall t (str "ip1") ∈ exampleHistory ∧ 61000 = t + 60000.
Proof.
  assert (limiterAfter exampleHistory !! str "ip1"
          = Some {| count := 2; resetTime := 61000 |}) as H
    by (vm_compute; reflexivity).
  split; [exact H|].
  exact (limiter_records exampleHistory (str "ip1")
           {| count := 2; resetTime := 61000 |} H).
Defined.

Lemma exampleSearchReq_valid : validQuery (exampleSearchReq "zelda").
Proof.
  exists (str "zelda"). split; [reflexivity|]. split; vm_compute; lia.
Qed.

Lemma searchHandler_charges_witness :
  validQuery (exampleSearchReq "zelda")
  ∧ searchHandler (exampleSearchReq "zelda") exampleSearchEnv
      exampleStateLimited
    = (Status429 (str "Too many requests, please slow down."),
       exampleStateLimited, [])
  ∧ is429 (Status429 (str "Too many requests, please slow down."))
    = fst (isRateLimited (senv_limiterNow exampleSearchEnv)
             (clientIp (exampleSearchReq "zelda"))
             (searchRateLimit exampleStateLimited)).
Proof.
  assert (searchHandler (exampleSearchReq "zelda") exampleSearchEnv
            exampleStateLimited
          = (Status429 (str "Too many requests, please slow down."),
             exampleStateLimited, [])) as H by (vm_compute; reflexivity).
  split; [exact exampleSearchReq_valid|]. split; [exact H|].
  exact (proj1 (proj2 (searchHandler_charges _ _ _ _ _ _
                         exampleSearchReq_valid H))).
Defined.

Lemma searchRequests_cutoff_witness :
  map is429
    (fst (searchRequests (exampleSearchReq "zelda")
            (exampleSearchEnv :: replicate 29 exampleSearchEnv
             ++ [exampleSearchEnv])
            initialState))
  = replicate 30 false ++ [true].
Proof.
  assert (searchRateLimit initialState !! clientIp (exampleSearchReq "zelda")
          = None
          ∨ ∃ r, searchRateLimit initialState
                 !! clientIp (exampleSearchReq "zelda") = Some r
                 ∧ resetTime r < senv_limiterNow exampleSearchEnv) as Hfresh
    by (left; apply lookup_empty).
  assert (length (replicate 29 exampleSearchEnv) = 29%nat) as Hlen
    by reflexivity.
  assert (Forall (fun env => senv_limiterNow env
                             ≤ senv_limiterNow exampleSearchEnv + 60000)
            (replicate 29 exampleSearchEnv ++ [exampleSearchEnv])) as Hwin.
  { apply Forall_forall. intros env Henv.
    assert (env = exampleSearchEnv) as ->; [|simpl; lia].
    apply elem_of_app in Henv as [[-> _]%elem_of_replicate|Henv]; [done|].
    by apply list_elem_of_singleton in Henv. }
  exact (searchRequests_cutoff (exampleSearchReq "zelda") exampleSearchEnv
           (replicate 29 exampleSearchEnv) exampleSearchEnv initialState
           exampleSearchReq_valid Hfresh Hlen Hwin).
Defined.

Lemma searchHandler_outcomes_witness :
  searchHandler exampleArrayReq exampleSearchEnv initialState
  = (Status500 (str "query.trim is not a function") None, initialState, [])
  ∧ ∃ err,
      Status500 (str "query.trim is not a function") None = catchResponse err
      ∧ ((req_query exampleArrayReq = Some QueryNotString
          ∧ err = trimTypeError ∧ initialState = initialState
          ∧ ([] : list Event) = [])
         ∨ (senv_exchange exampleSearchEnv = inl err
            ∧ [] = [TokenExchange]
            ∧ searchRateLimit initialState
              = snd (isRateLimited (senv_limiterNow exampleSearchEnv)
                       (clientIp exampleArrayReq)
                       (searchRateLimit initialState)))
         ∨ (senv_search exampleSearchEnv = inl err
            ∧ ∃ body, last [] = Some (CatalogSearch body))).
Proof.
  assert (searchHandler exampleArrayReq exampleSearchEnv initialState
          = (Status500 (str "query.trim is not a function") None,
             initialState, [])) as H by reflexivity.
  split; [exact H|].
  exact (proj2 (searchHandler_outcomes _ _ _ _ _ _ H)).
Defined.

Lemma getAccessToken_short_lived_witness :
  ¬ tokenValid initialState 1748736000400
  ∧ expires_in exampleShortReply ≤ 60
  ∧ received_at exampleShortReply ≤ 1748736000600
  ∧ snd (getAccessToken 1748736000600 (inr exampleShortReply)
           (snd (fst (getAccessToken 1748736000400 (inr exampleShortReply)
                        initialState))))
    = [TokenExchange].
Proof.
  assert (¬ tokenValid initialState 1748736000400) as H1
    by (intros [Htok _]; by apply Htok).
  assert (expires_in exampleShortReply ≤ 60) as H2 by (simpl; lia).
  assert (received_at exampleShortReply ≤ 1748736000600) as H3
    by (simpl; lia).
  split; [exact H1|]. split; [exact H2|]. split; [exact H3|].
  exact (proj2 (getAccessToken_short_lived initialState 1748736000400
                  exampleShortReply _ _ _ 1748736000600
                  (inr exampleShortReply) H1 H2 H3 eq_refl)).
Defined.

Lemma token_shared_witness :
  gamesHandler ref_sin ref_parse false 0 exampleFailingEnv initialState
  = Some (catchResponse exampleCatalogError, exampleStateToken,
          [TokenExchange; CatalogFetch 1748736000])
  ∧ tokenExchanges
      (snd (searchHandler (exampleSearchReq "zelda") exampleSearchEnv
              exampleStateToken))
    = 0%nat.
Proof.
  assert (gamesHandler ref_sin ref_parse false 0 exampleFailingEnv
            initialState
          = Some (catchResponse exampleCatalogError, exampleStateToken,
                  [TokenExchange; CatalogFetch 1748736000])) as Hrun
    by reflexivity.
  assert (TokenExchange ∈ [TokenExchange; CatalogFetch 1748736000]) as Hin
    by (by left).
  assert (access_token exampleReply ≠ []) as Hne by done.
  assert (senv_now exampleSearchEnv
          < received_at exampleReply + (expires_in exampleReply - 60) * 1000)
    as Hnow by (simpl; lia).
  split; [exact Hrun|].
  destruct (searchHandler (exampleSearchReq "zelda") exampleSearchEnv
              exampleStateToken) as [[resp2 s2] log2] eqn:Hsearch.
  exact (token_shared ref_sin ref_parse false 0 exampleFailingEnv
           initialState _ _ _ exampleReply _ _ _ _ _
           Hrun Hin eq_refl Hne Hnow Hsearch).
Defined.

Lemma exampleDbHit :
  gamesHandler ref_sin ref_parse true 0
    (setSelect (exampleGamesEnv []) (inr [exampleSelection])) initialState
  = Some (GamesOk exampleSelection (str "2025-06-01"),
          withGrid initialState
            {| date := str "2025-06-01"; games := exampleSelection |},
          [DbSelect (str "2025-06-01")]).
Proof. reflexivity. Qed.

Lemma gamesHandler_cache_coherent_witness :
  gamesHandler ref_sin ref_parse true 0
    (setSelect (exampleGamesEnv []) (inr [exampleSelection])) initialState
  = Some (GamesOk exampleSelection (str "2025-06-01"),
          withGrid initialState
            {| date := str "2025-06-01"; games := exampleSelection |},
          [DbSelect (str "2025-06-01")])
  ∧ cachedGrid (withGrid initialState
                  {| date := str "2025-06-01"; games := exampleSelection |})
    = {| date := str "2025-06-01"; games := exampleSelection |}.
Proof.
  split; [exact exampleDbHit|].
  exact (proj2 (proj2 (gamesHandler_cache_coherent ref_sin ref_parse true 0
                         _ _ _ _ _ exampleDbHit))).
Defined.

Lemma exampleCatalogFailure :
  gamesHandler ref_sin ref_parse true 0 exampleFailingEnv initialState
  = Some (Status500 (str "Request failed with status code 503") None,
          exampleStateToken,
          [DbSelect (str "2025-06-01"); TokenExchange;
           CatalogFetch 1748736000]).
Proof. reflexivity. Qed.

Lemma gamesHandler_errors_witness :
  gamesHandler ref_sin ref_parse true 0 exampleFailingEnv initialState
  = Some (Status500 (str "Request failed with status code 503") None,
          exampleStateToken,
          [DbSelect (str "2025-06-01"); TokenExchange;
           CatalogFetch 1748736000])
  ∧ ∀ day grid,
      DbInsert day grid
      ∉ [DbSelect (str "2025-06-01"); TokenExchange; CatalogFetch 1748736000].
Proof.
  split; [exact exampleCatalogFailure|].
  exact (proj1 (gamesHandler_errors ref_sin ref_parse true 0 _ _ _ _ _ _
                  exampleCatalogFailure)).
Defined.

Lemma exampleFreshRun :
  gamesHandler ref_sin ref_parse true 2 (exampleGamesEnv exampleDuplicates)
    initialState
  = Some (GamesOk [Some (exampleGame 0)] (str "2025-06-01"),
          exampleStateAfter [Some (exampleGame 0)],
          [DbSelect (str "2025-06-01"); TokenExchange;
           CatalogFetch 1748736000;
           DbInsert (str "2025-06-01") [Some (exampleGame 0)]]).
Proof. vm_compute. reflexivity. Qed.

Lemma gamesHandler_log_order_witness :
  gamesHandler ref_sin ref_parse true 2 (exampleGamesEnv exampleDuplicates)
    initialState
  = Some (GamesOk [Some (exampleGame 0)] (str "2025-06-01"),
          exampleStateAfter [Some (exampleGame 0)],
          [DbSelect (str "2025-06-01"); TokenExchange;
           CatalogFetch 1748736000;
           DbInsert (str "2025-06-01") [Some (exampleGame 0)]])
  ∧ ∃ grid,
      [DbSelect (str "2025-06-01"); TokenExchange; CatalogFetch 1748736000;
       DbInsert (str "2025-06-01") [Some (exampleGame 0)]]
      `sublist_of`
      [DbSelect (str "2025-06-01"); TokenExchange; CatalogFetch 1748736000;
       DbInsert (str "2025-06-01") grid].
Proof.
  split; [exact exampleFreshRun|].
  exact (gamesHandler_log_order ref_sin ref_parse true 2 _ _ _ _ _
           exampleFreshRun).
Defined.

Lemma gamesHandler_persists_witness :
  gamesHandler ref_sin ref_parse true 2 (exampleGamesEnv exampleDuplicates)
    initialState
  = Some (GamesOk [Some (exampleGame 0)] (str "2025-06-01"),
          exampleStateAfter [Some (exampleGame 0)],
          [DbSelect (str "2025-06-01"); TokenExchange;
           CatalogFetch 1748736000;
           DbInsert (str "2025-06-01") [Some (exampleGame 0)]])
  ∧ DbInsert (str "2025-06-01") [Some (exampleGame 0)]
    ∈ [DbSelect (str "2025-06-01"); TokenExchange; CatalogFetch 1748736000;
       DbInsert (str "2025-06-01") [Some (exampleGame 0)]].
Proof.
  split; [exact exampleFreshRun|].
  apply (gamesHandler_persists ref_sin ref_parse true 2 _ _ _ _ _
           (str "2025-06-01") [Some (exampleGame 0)] exampleFreshRun).
  split; [reflexivity|]. split; reflexivity.
Defined.

Lemma gamesHandler_fresh_names_witness :
  gamesHandler ref_sin ref_parse true 2 (exampleGamesEnv exampleDuplicates)
    initialState
  = Some (GamesOk [Some (exampleGame 0)] (str "2025-06-01"),
          exampleStateAfter [Some (exampleGame 0)],
          [DbSelect (str "2025-06-01"); TokenExchange;
           CatalogFetch 1748736000;
           DbInsert (str "2025-06-01") [Some (exampleGame 0)]])
  ∧ ∀ i j gi gj,
      [Some (exampleGame 0)] !! i = Some (Some gi) →
      [Some (exampleGame 0)] !! j = Some (Some gj) →
      name gi = name gj → i = j.
Proof.
  split; [exact exampleFreshRun|].
  exact (gamesHandler_fresh_names ref_sin ref_parse true 2 _ _ _ _ _ _
           exampleFreshRun eq_refl).
Defined.

Lemma exampleEmptyRun :
  gamesHandler ref_sin ref_parse false 1 (exampleGamesEnv []) initialState
  = Some (GamesOk [] (str "2025-06-01"), exampleStateAfter [],
          [TokenExchange; CatalogFetch 1748736000]).
Proof. vm_compute. reflexivity. Qed.

Lemma gamesHandler_memory_witness :
  gamesHandler ref_sin ref_parse false 1 (exampleGamesEnv []) initialState
  = Some (GamesOk [] (str "2025-06-01"), exampleStateAfter [],
          [TokenExchange; CatalogFetch 1748736000])
  ∧ ∀ fuel2 env2 resp2 s2 log2,
      GamesOk [] (str "2025-06-01") = GamesOk [] (env_today env2) →
      gamesHandler ref_sin ref_parse false fuel2 env2 (exampleStateAfter [])
      = Some (resp2, s2, log2) →
      log2 ≠ [].
Proof.
  split; [exact exampleEmptyRun|].
  exact (proj2 (gamesHandler_memory ref_sin ref_parse false 1 _ _ _ _ _
                  exampleEmptyRun)).
Defined.

Lemma exampleSelectTwo :
  selectGamesForDate ref_sin ref_parse 3 (examplePool 5) (str "2025-06-01") 2
  = Some [Some (exampleGame 1); Some (exampleGame 2)].
Proof. vm_compute. reflexivity. Qed.

Lemma exampleSelectAll :
  selectGamesForDate ref_sin ref_parse 8 (examplePool 5) (str "2025-06-01") 9
  = Some exampleSelection.
Proof. vm_compute. reflexivity. Qed.

Lemma selectGamesForDate_length_witness :
  selectGamesForDate ref_sin ref_parse 3 (examplePool 5) (str "2025-06-01") 2
  = Some [Some (exampleGame 1); Some (exampleGame 2)]
  ∧ length [Some (exampleGame 1); Some (exampleGame 2)]
    = (2 `min` length (examplePool 5))%nat.
Proof.
  split; [exact exampleSelectTwo|].
  exact (selectGamesForDate_length ref_sin ref_parse 3 _ _ _ _
           exampleSelectTwo).
Defined.

Lemma selectGamesForDate_take_witness :
  (2 ≤ 9)%nat
  ∧ [Some (exampleGame 1); Some (exampleGame 2)] = take 2 exampleSelection.
Proof.
  assert (2 ≤ 9)%nat as Hle by lia.
  split; [exact Hle|].
  exact (selectGamesForDate_take ref_sin ref_parse 3 8 (examplePool 5)
           (str "2025-06-01") 2 9 _ _ Hle exampleSelectTwo exampleSelectAll).
Defined.

Lemma selectGamesForDate_small_witness :
  (9 `min` length (examplePool 1) ≤ 1)%nat
  ∧ ∃ r, selectGamesForDate ref_sin ref_parse 2 (examplePool 1)
           (str "not a date") 9 = Some r
         ∧ length r = (9 `min` length (examplePool 1))%nat.
Proof.
  assert (9 `min` length (examplePool 1) ≤ 1)%nat as H by (simpl; lia).
  split; [exact H|].
  exact (selectGamesForDate_small ref_sin ref_parse (examplePool 1)
           (str "not a date") 9 H).
Defined.

Lemma selectGamesForDate_invalid_date_witness :
  Date_getTime ref_parse (str "2025-13-01") = NaN
  ∧ ((∀ fuel, selectGamesForDate ref_sin ref_parse fuel (examplePool 5)
                (str "2025-13-01") 9 = None)
     ↔ (2 ≤ 9 `min` length (examplePool 5))%nat).
Proof.
  assert (Date_getTime ref_parse (str "2025-13-01") = NaN) as H
    by reflexivity.
  split; [exact H|].
  exact (selectGamesForDate_invalid_date ref_sin ref_parse (examplePool 5)
           (str "2025-13-01") 9 H).
Defined.

Lemma selectGamesForDate_whole_pool_witness :
  (length (examplePool 5) ≤ 9)%nat
  ∧ (None ∉ exampleSelection)
  ∧ exampleSelection ≡ₚ map Some (examplePool 5).
Proof.
  assert (length (examplePool 5) ≤ 9)%nat as Hshort by (simpl; lia).
  assert (None ∉ exampleSelection) as Hsome.
  { intros Hin. unfold exampleSelection in Hin. simpl in Hin.
    repeat (apply elem_of_cons in Hin as [Hin|Hin]; [discriminate Hin|]).
    by apply elem_of_nil in Hin. }
  split; [exact Hshort|]. split; [exact Hsome|].
  exact (selectGamesForDate_whole_pool ref_sin ref_parse 8 (examplePool 5)
           (str "2025-06-01") 9 exampleSelection Hshort exampleSelectAll
           Hsome).
Defined.

Lemma exampleForwardedReq_valid : validQuery (exampleForwardedReq "zelda").
Proof.
  exists (str "zelda"). split; [reflexivity|]. split; vm_compute; lia.
Qed.

Lemma searchHandler_forwarded_key_witness :
  validQuery (exampleForwardedReq "zelda")
  ∧ req_forwarded (exampleForwardedReq "zelda")
    = Some (str "203.0.113.7, 10.0.0.1")
  ∧ clientIp (exampleForwardedReq "zelda")
    = trim (beforeComma (str "203.0.113.7, 10.0.0.1"))
  ∧ is429 (fst (fst (searchHandler (exampleForwardedReq "zelda")
                       exampleSearchEnv exampleStateLimited)))
    = fst (isRateLimited (senv_limiterNow exampleSearchEnv)
             (trim (beforeComma (str "203.0.113.7, 10.0.0.1")))
             (searchRateLimit exampleStateLimited)).
Proof.
  assert (req_forwarded (exampleForwardedReq "zelda")
          = Some (str "203.0.113.7, 10.0.0.1")) as Hh by reflexivity.
  split; [exact exampleForwardedReq_valid|]. split; [exact Hh|].
  destruct (searchHandler (exampleForwardedReq "zelda") exampleSearchEnv
              exampleStateLimited) as [[resp s'] log] eqn:Hrun.
  destruct (searchHandler_forwarded_key (exampleForwardedReq "zelda")
              exampleSearchEnv exampleStateLimited
              (str "203.0.113.7, 10.0.0.1") resp s' log
              exampleForwardedReq_valid Hh Hrun) as (Hkey & _ & H429 & _).
  split; [exact Hkey|exact H429].
Defined.
